(** * cntnr: a shallow embedding of the image builder, the Dockerfile
    front end, the runtime spec builder and the lock file wrapper.

    Sources embedded here:
    - [image/builder/imagebuilder.go]        (module [ImageBuilder])
    - [image/builder/dockerfile/dockerfile.go] (module [Dockerfile])
    - the bundle spec builder ([SpecBuilder], package [builder])
    - [pkg/lock/lockfile.go]                 (module [Lock])
    - [parseCniArgs] of [net/net.go]         (module [Net])

    Go strings are byte strings ([string]); Go maps are [gmap]/[gset];
    a [nil] slice or map is [None]; [uint32(x)] is [x mod 2^32].  Calls into
    other packages (image store, build cache, bundles, the Dockerfile
    parser and lexer, the file system) are interfaces or parameters.

    The definitions come first; the properties follow in the modules
    [GoStringsFacts], [BuilderFacts], [SpecFacts], [SpecClaims],
    [ImageBuilderFacts], [DockerfileFacts] and [LockFacts], and further
    properties in [DockerfileExtra], [ApplyFacts], [SpecExtra],
    [EngineExtra], [LockExtra] and [NetFacts]. *)

From stdpp Require Import base gmap sets list strings sorting pretty.
From Stdlib Require Import Ascii ZArith Lia.

Set Warnings "-clear-no-such-hyp".

Open Scope string_scope.
Open Scope list_scope.

(** ** Go strings *)

Module GoStrings.

Definition space : ascii := " "%char.
Definition comma : ascii := ","%char.

(** [strings.Contains(s, string(c))] *)
Fixpoint has_byte (c : ascii) (s : string) : bool :=
  match s with
  | EmptyString => false
  | String a s' => if decide (a = c) then true else has_byte c s'
  end.

(** [strings.TrimLeft(s, string(c))] for a one byte cutset *)
Fixpoint trimLeftByte (c : ascii) (s : string) : string :=
  match s with
  | EmptyString => EmptyString
  | String a s' => if decide (a = c) then trimLeftByte c s' else s
  end.

(** [strings.TrimRight(s, string(c))] for a one byte cutset *)
Fixpoint trimRightByte (c : ascii) (s : string) : string :=
  match s with
  | EmptyString => EmptyString
  | String a s' =>
      match trimRightByte c s' with
      | EmptyString => if decide (a = c) then EmptyString else String a EmptyString
      | r => String a r
      end
  end.

(** [strings.Trim(s, " ")]: Go trims the right end, then the left end. *)
Definition Trim (c : ascii) (s : string) : string :=
  trimLeftByte c (trimRightByte c s).

(** [strings.Split(s, string(sep))]: never empty, [Split("", sep) = [""]]. *)
Fixpoint Split (sep : ascii) (s : string) : list string :=
  match s with
  | EmptyString => [EmptyString]
  | String a s' =>
      if decide (a = sep) then EmptyString :: Split sep s'
      else match Split sep s' with
           | [] => [String a EmptyString]
           | w :: ws => String a w :: ws
           end
  end.

(** [strings.Join(l, string(sep))] *)
Fixpoint Join (sep : ascii) (l : list string) : string :=
  match l with
  | [] => EmptyString
  | [w] => w
  | w :: ws => w +:+ String sep (Join sep ws)
  end.

(** [strings.TrimSpace]: the white space of [unicode.IsSpace], in UTF-8.
    One byte: tab, LF, VT, FF, CR, space.  Two bytes: U+0085 and U+00A0
    ([C2 85], [C2 A0]).  Three bytes: U+1680 ([E1 9A 80]), U+2000 to U+200A
    ([E2 80 80] to [E2 80 8A]), U+2028, U+2029, U+202F ([E2 80 A8],
    [E2 80 A9], [E2 80 AF]), U+205F ([E2 81 9F]) and U+3000 ([E3 80 80]).
    A byte that starts no such encoding is no white space (an invalid
    encoding decodes to U+FFFD). *)
Definition isSpace2 (a b : ascii) : bool :=
  bool_decide (a = "194"%char)
  && (bool_decide (b = "133"%char) || bool_decide (b = "160"%char)).

Definition isSpace3 (a b c : ascii) : bool :=
  (bool_decide (a = "225"%char) && bool_decide (b = "154"%char)
   && bool_decide (c = "128"%char))
  || (bool_decide (a = "226"%char) && bool_decide (b = "128"%char)
      && (((128 <=? nat_of_ascii c) && (nat_of_ascii c <=? 138))%nat
          || bool_decide (c = "168"%char) || bool_decide (c = "169"%char)
          || bool_decide (c = "175"%char)))
  || (bool_decide (a = "226"%char) && bool_decide (b = "129"%char)
      && bool_decide (c = "159"%char))
  || (bool_decide (a = "227"%char) && bool_decide (b = "128"%char)
      && bool_decide (c = "128"%char)).

(** [strings.TrimLeftFunc(s, unicode.IsSpace)] *)
Fixpoint trimSpaceLeft (s : string) : string :=
  match s with
  | EmptyString => EmptyString
  | String a s1 =>
      if Ascii.is_space a then trimSpaceLeft s1
      else
        match s1 with
        | EmptyString => s
        | String b s2 =>
            if isSpace2 a b then trimSpaceLeft s2
            else
              match s2 with
              | EmptyString => s
              | String c s3 => if isSpace3 a b c then trimSpaceLeft s3 else s
              end
        end
  end.

(** The same from the other end, on the reversed string: the last byte
    comes first. *)
Fixpoint trimSpaceRev (s : string) : string :=
  match s with
  | EmptyString => EmptyString
  | String c s1 =>
      if Ascii.is_space c then trimSpaceRev s1
      else
        match s1 with
        | EmptyString => s
        | String b s2 =>
            if isSpace2 b c then trimSpaceRev s2
            else
              match s2 with
              | EmptyString => s
              | String a s3 => if isSpace3 a b c then trimSpaceRev s3 else s
              end
        end
  end.

(** [strings.TrimRightFunc(s, unicode.IsSpace)] *)
Definition trimSpaceRight (s : string) : string :=
  String.rev (trimSpaceRev (String.rev s)).

(** Go trims the left end, then the right end. *)
Definition TrimSpace (s : string) : string := trimSpaceRight (trimSpaceLeft s).

(** [strings.Index(s, string(c))], [None] for Go's [-1] *)
Fixpoint IndexByte (c : ascii) (s : string) : option nat :=
  match s with
  | EmptyString => None
  | String a s' => if decide (a = c) then Some 0 else S <$> IndexByte c s'
  end.

(** [s[n:]] for [n <= len(s)] *)
Fixpoint drop_bytes (n : nat) (s : string) : string :=
  match n, s with
  | 0, _ => s
  | S n', String _ s' => drop_bytes n' s'
  | S _, EmptyString => EmptyString
  end.

(** [strings.ToUpper] on the ASCII range *)
Definition upper_byte (a : ascii) : ascii :=
  let n := Ascii.nat_of_ascii a in
  if (97 <=? n)%nat && (n <=? 122)%nat then Ascii.ascii_of_nat (n - 32) else a.

Fixpoint ToUpper (s : string) : string :=
  match s with
  | EmptyString => EmptyString
  | String a s' => String (upper_byte a) (ToUpper s')
  end.

(** [strings.HasPrefix] *)
Fixpoint HasPrefix (s p : string) : bool :=
  match p, s with
  | EmptyString, _ => true
  | String b p', String a s' => if decide (a = b) then HasPrefix s' p' else false
  | String _ _, EmptyString => false
  end.

End GoStrings.

(** ** The runtime spec builder (package [builder], type [SpecBuilder]) *)

Module Builder.
Import GoStrings.

(** Modelled from the spec: package [idutils] is not part of the sources.
    A user is the pair of strings of a [name[:group]] or [uid[:gid]] user
    specification; resolved ids are Go [uint]s (the comparison with
    [1<<32] in [Spec] only compiles for a type of more than 32 bits). *)
Record User := mkUser { UserName : string; Group : string }.

Record UserIds := mkUserIds { Uid : N; Gid : N }.

#[global] Instance User_eq_dec : EqDecision User.
Proof. solve_decision. Defined.

#[global] Instance UserIds_eq_dec : EqDecision UserIds.
Proof. solve_decision. Defined.

(** Modelled from the spec: [User.String()] prints [user:group], as in the
    [-i 1000:1000] of a PRoot command line. *)
Definition User_String (u : User) : string :=
  UserName u +:+ ":" +:+ Group u.

(** Modelled from the spec: [UserIds.User()] prints both ids in decimal. *)
Definition UserIds_User (ids : UserIds) : User :=
  {| UserName := pretty (Uid ids); Group := pretty (Gid ids) |}.

(** [uint32(x)] of a wider unsigned value *)
Definition uint32 (x : N) : N := (x mod 2 ^ 32)%N.

(** The errors [Spec] can return, with the arguments of their messages. *)
Inductive error :=
| ResolveError (msg : string)
| UidExceedsRange (uid : N)
| GidExceedsRange (gid : N)
| NoPRootPath
| RootlessUserUnsupported (user : string).

Inductive result (A : Type) :=
| Ok (a : A)
| Err (e : error).
Arguments Ok {A} a.
Arguments Err {A} e.


(** *** The part of runtime-tools' [generate.Generator] the builder drives *)

Record Mount := mkMount {
  Destination : string;
  MountType : string;
  Source : string;
  Options : list string
}.

Record LinuxIDMapping := mkIDMapping {
  HostID : N;
  ContainerID : N;
  Size : N
}.

Record LinuxCapabilities := mkCaps {
  Bounding : list string;
  Effective : list string;
  Inheritable : list string;
  Permitted : list string;
  Ambient : list string
}.

Inductive SeccompProfile :=
| DefaultProfile
| UnconfinedProfile
| CustomProfile.

Record Generator := mkGenerator {
  ProcessArgs : list string;
  ProcessEnv : list string;
  ProcessUID : N;
  ProcessGID : N;
  ProcessCapabilities : LinuxCapabilities;
  Mounts : list Mount;
  Annotations : option (gmap string string);
  UIDMappings : list LinuxIDMapping;
  GIDMappings : list LinuxIDMapping;
  LinuxSeccomp : option SeccompProfile
}.

(** Field updates of the spec held by the generator. *)
Definition with_ProcessArgs (v : list string) (g : Generator) : Generator :=
  mkGenerator v (ProcessEnv g) (ProcessUID g) (ProcessGID g) (ProcessCapabilities g) (Mounts g) (Annotations g) (UIDMappings g) (GIDMappings g) (LinuxSeccomp g).

Definition with_ProcessEnv (v : list string) (g : Generator) : Generator :=
  mkGenerator (ProcessArgs g) v (ProcessUID g) (ProcessGID g) (ProcessCapabilities g) (Mounts g) (Annotations g) (UIDMappings g) (GIDMappings g) (LinuxSeccomp g).

Definition with_ProcessUID (v : N) (g : Generator) : Generator :=
  mkGenerator (ProcessArgs g) (ProcessEnv g) v (ProcessGID g) (ProcessCapabilities g) (Mounts g) (Annotations g) (UIDMappings g) (GIDMappings g) (LinuxSeccomp g).

Definition with_ProcessGID (v : N) (g : Generator) : Generator :=
  mkGenerator (ProcessArgs g) (ProcessEnv g) (ProcessUID g) v (ProcessCapabilities g) (Mounts g) (Annotations g) (UIDMappings g) (GIDMappings g) (LinuxSeccomp g).

Definition with_ProcessCapabilities (v : LinuxCapabilities) (g : Generator) : Generator :=
  mkGenerator (ProcessArgs g) (ProcessEnv g) (ProcessUID g) (ProcessGID g) v (Mounts g) (Annotations g) (UIDMappings g) (GIDMappings g) (LinuxSeccomp g).

Definition with_Mounts (v : list Mount) (g : Generator) : Generator :=
  mkGenerator (ProcessArgs g) (ProcessEnv g) (ProcessUID g) (ProcessGID g) (ProcessCapabilities g) v (Annotations g) (UIDMappings g) (GIDMappings g) (LinuxSeccomp g).

Definition with_Annotations (v : option (gmap string string)) (g : Generator) : Generator :=
  mkGenerator (ProcessArgs g) (ProcessEnv g) (ProcessUID g) (ProcessGID g) (ProcessCapabilities g) (Mounts g) v (UIDMappings g) (GIDMappings g) (LinuxSeccomp g).

Definition with_UIDMappings (v : list LinuxIDMapping) (g : Generator) : Generator :=
  mkGenerator (ProcessArgs g) (ProcessEnv g) (ProcessUID g) (ProcessGID g) (ProcessCapabilities g) (Mounts g) (Annotations g) v (GIDMappings g) (LinuxSeccomp g).

Definition with_GIDMappings (v : list LinuxIDMapping) (g : Generator) : Generator :=
  mkGenerator (ProcessArgs g) (ProcessEnv g) (ProcessUID g) (ProcessGID g) (ProcessCapabilities g) (Mounts g) (Annotations g) (UIDMappings g) v (LinuxSeccomp g).

Definition with_LinuxSeccomp (v : option SeccompProfile) (g : Generator) : Generator :=
  mkGenerator (ProcessArgs g) (ProcessEnv g) (ProcessUID g) (ProcessGID g) (ProcessCapabilities g) (Mounts g) (Annotations g) (UIDMappings g) (GIDMappings g) v.

(** Modelled from the spec: the vendored runtime-tools generator is not part
    of the sources.  Its setters overwrite one field, its [Add...] methods
    append one entry ("add a tmpfs at", "bind-mount ... into the container
    at", "set env", "add CAP_SYS_PTRACE"). *)
Definition SetProcessArgs (args : list string) (g : Generator) : Generator :=
  with_ProcessArgs args g.

Definition SetProcessUID (uid : N) (g : Generator) : Generator :=
  with_ProcessUID uid g.

Definition SetProcessGID (gid : N) (g : Generator) : Generator :=
  with_ProcessGID gid g.

Definition ClearLinuxUIDMappings (g : Generator) : Generator :=
  with_UIDMappings [] g.

Definition ClearLinuxGIDMappings (g : Generator) : Generator :=
  with_GIDMappings [] g.

Definition AddLinuxUIDMapping (hid cid size : N) (g : Generator) : Generator :=
  with_UIDMappings (UIDMappings g ++ [mkIDMapping hid cid size]) g.

Definition AddLinuxGIDMapping (hid cid size : N) (g : Generator) : Generator :=
  with_GIDMappings (GIDMappings g ++ [mkIDMapping hid cid size]) g.

Definition AddTmpfsMount (dest : string) (options : list string) (g : Generator) : Generator :=
  with_Mounts (Mounts g ++ [mkMount dest "tmpfs" "tmpfs" options]) g.

(** An empty option list becomes ["rw"], and "bind" is added unless the
    options already name "bind" or "rbind". *)
Definition AddBindMount (source dest : string) (options : list string) (g : Generator) : Generator :=
  let options := match options with [] => ["rw"] | _ => options end in
  let options :=
    if List.existsb (fun o => bool_decide (o = "bind") || bool_decide (o = "rbind")) options
    then options else options ++ ["bind"] in
  with_Mounts (Mounts g ++ [mkMount dest "bind" source options]) g.

(** Replaces the entry of the same name, or appends a new one. *)
Fixpoint replaceEnv (name env : string) (l : list string) : option (list string) :=
  match l with
  | [] => None
  | e :: l' =>
      if HasPrefix e (name +:+ "=") then Some (env :: l')
      else cons e <$> replaceEnv name env l'
  end.

Definition AddProcessEnv (name value : string) (g : Generator) : Generator :=
  if decide (name = "") then g
  else
    let env := name +:+ "=" +:+ value in
    match replaceEnv name env (ProcessEnv g) with
    | Some l => with_ProcessEnv l g
    | None => with_ProcessEnv (ProcessEnv g ++ [env]) g
    end.

(** gocapability's [Cap.String()] names, in the order of [capability.List()]. *)
Definition capabilityNames : list string :=
  ["chown"; "dac_override"; "dac_read_search"; "fowner"; "fsetid"; "kill";
   "setgid"; "setuid"; "setpcap"; "linux_immutable"; "net_bind_service";
   "net_broadcast"; "net_admin"; "net_raw"; "ipc_lock"; "ipc_owner";
   "sys_module"; "sys_rawio"; "sys_chroot"; "sys_ptrace"; "sys_pacct";
   "sys_admin"; "sys_boot"; "sys_nice"; "sys_resource"; "sys_time";
   "sys_tty_config"; "mknod"; "lease"; "audit_write"; "audit_control";
   "setfcap"; "mac_override"; "mac_admin"; "syslog"; "wake_alarm";
   "block_suspend"; "audit_read"].

(** [capability.CAP_SYS_PTRACE.String()] *)
Definition CAP_SYS_PTRACE_String : string := "sys_ptrace".

Definition CapValid (cp : string) : bool :=
  bool_decide (cp ∈ (fun c => "CAP_" +:+ ToUpper c) <$> capabilityNames).

Definition addCap (cp : string) (l : list string) : list string :=
  if List.existsb (fun c => bool_decide (ToUpper c = cp)) l then l else l ++ [cp].

(** The name is upper-cased and validated; an unknown name changes nothing
    (the error is returned, and [SetPRootPath] drops it). *)
Definition AddProcessCapability (c : string) (g : Generator) : Generator :=
  let cp := ToUpper c in
  if CapValid cp then
    let k := ProcessCapabilities g in
    with_ProcessCapabilities
      (mkCaps (addCap cp (Bounding k)) (addCap cp (Effective k))
              (addCap cp (Inheritable k)) (addCap cp (Permitted k))
              (addCap cp (Ambient k))) g
  else g.

Definition AddAnnotation (key value : string) (g : Generator) : Generator :=
  with_Annotations (Some (<[key := value]> (default ∅ (Annotations g)))) g.

(** [seccomp.DefaultProfile(spec)] is kept abstract. *)
Definition SetLinuxSeccompDefault (g : Generator) : Generator :=
  with_LinuxSeccomp (Some DefaultProfile) g.

(** *** [SpecBuilder] *)

Record prootOptions := mkPRoot {
  Path : string;
  Ports : list string
}.

Record SpecBuilder := mkSpecBuilder {
  generator : Generator;
  entrypoint : option (list string);
  cmd : option (list string);
  user : User;
  customSeccomp : bool;
  proot : option prootOptions;
  rootless : bool
}.

Definition with_generator (g : Generator) (b : SpecBuilder) : SpecBuilder :=
  mkSpecBuilder g (entrypoint b) (cmd b) (user b) (customSeccomp b) (proot b) (rootless b).

Definition with_user (u : User) (b : SpecBuilder) : SpecBuilder :=
  mkSpecBuilder (generator b) (entrypoint b) (cmd b) u (customSeccomp b) (proot b) (rootless b).

Definition with_proot (p : option prootOptions) (b : SpecBuilder) : SpecBuilder :=
  mkSpecBuilder (generator b) (entrypoint b) (cmd b) (user b) (customSeccomp b) p (rootless b).

Definition emptyGenerator : Generator :=
  mkGenerator [] [] 0 0 (mkCaps [] [] [] [] []) [] None [] [] None.

(** [NewSpecBuilder], with the generator's defaults left out *)
Definition NewSpecBuilder : SpecBuilder :=
  mkSpecBuilder emptyGenerator None None (mkUser "" "") false None false.

Definition SetProcessUser (u : User) (b : SpecBuilder) : SpecBuilder :=
  with_user u b.

Definition exposedPortsKey : string := "org.opencontainers.image.exposedPorts".

(** The set [exposed] built by the two loops of [AddExposedPorts]. *)
Definition exposedSet (exposedPortsAnn : string) (ports : list string) : gset string :=
  let exposed : gset string :=
    if decide (exposedPortsAnn = "") then ∅
    else foldl (fun acc p => {[Trim space p]} ∪ acc) ∅ (Split comma exposedPortsAnn) in
  foldl (fun acc e => {[Trim space e]} ∪ acc) exposed ports.

(** [sort.Strings] of the keys of a Go map: the iteration order of the map
    is whatever [elements] gives, the sort is by bytes. *)
Definition sortedKeys (exposed : gset string) : list string :=
  merge_sort String.le (elements exposed).

Definition AddExposedPorts (ports : list string) (b : SpecBuilder) : SpecBuilder :=
  let exposedPortsAnn :=
    match Annotations (generator b) with
    | Some m => default "" (m !! exposedPortsKey)
    | None => ""
    end in
  let exposed := exposedSet exposedPortsAnn ports in
  if decide (0 < size exposed) then
    with_generator
      (AddAnnotation exposedPortsKey (Join comma (sortedKeys exposed)) (generator b)) b
  else b.

Definition SetPRootPath (prootPath : string) (b : SpecBuilder) : SpecBuilder :=
  let p := default (mkPRoot "" []) (proot b) in
  let b := with_proot (Some (mkPRoot prootPath (Ports p))) b in
  let g := generator b in
  let g := AddTmpfsMount "/dev/proot" ["exec"; "mode=755"; "size=32256k"] g in
  let g := AddBindMount prootPath "/dev/proot/proot" ["bind"; "ro"] g in
  let g := AddProcessEnv "PROOT_TMP_DIR" "/dev/proot" g in
  let g := AddProcessEnv "PROOT_NO_SECCOMP" "1" g in
  let g := AddProcessCapability ("CAP_" +:+ CAP_SYS_PTRACE_String) g in
  with_generator g b.

Definition AddPRootPortMapping (published target : string) (b : SpecBuilder) : SpecBuilder :=
  let p := default (mkPRoot "" []) (proot b) in
  with_proot (Some (mkPRoot (Path p) (Ports p ++ [published +:+ ":" +:+ target]))) b.

Definition SetProcessEntrypoint (v : option (list string)) (b : SpecBuilder) : SpecBuilder :=
  mkSpecBuilder (generator b) v None (user b) (customSeccomp b) (proot b) (rootless b).

Definition SetProcessCmd (v : option (list string)) (b : SpecBuilder) : SpecBuilder :=
  mkSpecBuilder (generator b) (entrypoint b) v (user b) (customSeccomp b) (proot b) (rootless b).

(** The [-p] arguments appended by the loop over [b.proot.Ports]. *)
Definition portArgs (ports : list string) : list string :=
  flat_map (fun port => ["-p"; port]) ports.

Definition applyEntrypoint (b : SpecBuilder) : SpecBuilder :=
  let args :=
    match entrypoint b, cmd b with
    | Some e, Some c => e ++ c
    | Some e, None => e
    | None, Some c => c
    | None, None => []
    end in
  let args :=
    match proot b with
    | Some p =>
        let prootArgs := ["/dev/proot/proot"; "--kill-on-exit"; "-n"] in
        let prootArgs :=
          if decide (User_String (user b) = "0:0") then prootArgs ++ ["-0"]
          else prootArgs ++ ["-i"; User_String (user b)] in
        (prootArgs ++ portArgs (Ports p)) ++ args
    | None => args
    end in
  with_generator (SetProcessArgs args (generator b)) b.

Section Spec.

(** [User.Resolve(rootfs)] reads the passwd and group files of the root file
    system; [os.Geteuid()] and [os.Getegid()] are the caller's ids. *)
Variable Resolve : User -> string -> result UserIds.
Variables Geteuid Getegid : N.

(** [Spec] returns the builder as it left it together with the spec or the
    error. *)
Definition Spec (b : SpecBuilder) (rootfs : string) : SpecBuilder * result Generator :=
  match Resolve (user b) rootfs with
  | Err e => (b, Err e)
  | Ok usr =>
      let b := with_user (UserIds_User usr) b in
      if (2 ^ 32 <? Uid usr)%N then (b, Err (UidExceedsRange (Uid usr)))
      else if (2 ^ 32 <? Gid usr)%N then (b, Err (GidExceedsRange (Gid usr)))
      else
        let checked : result UserIds :=
          match proot b with
          | Some p =>
              if decide (Path p = "") then Err NoPRootPath
              else Ok (mkUserIds 0 0)
          | None =>
              if rootless b && negb (bool_decide (Uid usr = 0%N) && bool_decide (Gid usr = 0%N))
              then Err (RootlessUserUnsupported (User_String (user b)))
              else Ok usr
          end in
        match checked with
        | Err e => (b, Err e)
        | Ok usr =>
            let b := applyEntrypoint b in
            let g := generator b in
            let g := SetProcessUID (uint32 (Uid usr)) g in
            let g := SetProcessGID (uint32 (Gid usr)) g in
            let g :=
              if rootless b then
                AddLinuxGIDMapping (uint32 Getegid) (uint32 (Gid usr)) 1
                  (AddLinuxUIDMapping (uint32 Geteuid) (uint32 (Uid usr)) 1
                     (ClearLinuxGIDMappings (ClearLinuxUIDMappings g)))
              else g in
            let g := if customSeccomp b then g else SetLinuxSeccompDefault g in
            (with_generator g b, Ok g)
        end
  end.

End Spec.

(** The value [AddExposedPorts] reads: the annotation, or "" when the map is
    nil or has no such key. *)
Definition exposedPortsAnn (b : SpecBuilder) : string :=
  match Annotations (generator b) with
  | Some m => default "" (m !! exposedPortsKey)
  | None => ""
  end.

(** A capability set holds a capability whatever the case it is written in. *)
Definition hasCapability (cp : string) (l : list string) : Prop :=
  ∃ c, c ∈ l ∧ ToUpper c = cp.

(** Decimal digits, as [UserIds.User()] prints them *)
Definition is_digit (a : ascii) : bool :=
  ((48 <=? nat_of_ascii a)%nat && (nat_of_ascii a <=? 57)%nat).

Fixpoint all_digits (s : string) : bool :=
  match s with
  | EmptyString => true
  | String a s' => is_digit a && all_digits s'
  end.

(** *** Sample builders *)

Definition rootUser : User := mkUser "root" "root".

Definition resolveTo (uid gid : N) : User -> string -> result UserIds :=
  fun _ _ => Ok (mkUserIds uid gid).

Definition rootlessBuilder : SpecBuilder :=
  mkSpecBuilder emptyGenerator None None rootUser false None true.

Definition prootBuilder : SpecBuilder :=
  AddPRootPortMapping "8080" "80"
    (SetPRootPath "/usr/bin/proot"
       (SetProcessCmd (Some ["-c"; "id"])
          (SetProcessEntrypoint (Some ["/bin/sh"]) rootlessBuilder))).

End Builder.

(** ** The image build engine ([image/builder/imagebuilder.go]) *)

Module ImageBuilder.

Definition Digest := string.

(** Go errors as the engine builds them: [errors.New]/[Errorf] messages,
    [errors.Wrap], the build cache's [CacheError] with its [Temporary()]
    flag, and [multierror.Append]. *)
#[warnings="-register-all"]
Inductive error :=
| ErrNew (msg : string)
| ErrWrap (e : error) (msg : string)
| ErrCache (temporary : bool) (msg : string)
| ErrMulti (es : list error).

(** The outcome of a call whose only result is an [error]; a nil pointer
    dereference is a panic. *)
Inductive outcome :=
| Done
| Failed (e : error)
| Panicked.

Inductive result (A : Type) :=
| Ok (a : A)
| Err (e : error).
Arguments Ok {A} a.
Arguments Err {A} e.

(** [ispecs.History] and the fields of [ispecs.Image] the engine writes *)
Record History := mkHistory {
  CreatedBy : string;
  Comment : string;
  EmptyLayer : bool
}.

Record ImageConfig := mkConfig {
  Author : string;
  WorkingDir : string;
  Entrypoint : option (list string);
  Cmd : option (list string);
  HistoryEntries : list History
}.

(** [image.Image]: [ID()] is the manifest digest, [Config()] returns the
    loaded configuration and an error. *)
Record Image := mkImage {
  ID : Digest;
  Config : ImageConfig * option error
}.

(** [image.ImageStoreRW], as far as the engine calls it *)
Class ImageStoreRW (S : Type) := {
  ImageById : S -> Digest -> result Image;
  AddImageConfig : S -> ImageConfig -> option Digest -> S * result Image;
  AddImageLayer : S -> string -> option Digest -> string -> string -> S * result Image
}.

(** [ImageBuildCache] *)
Class ImageBuildCache (C : Type) := {
  Get : C -> option Digest -> string -> result Digest;
  Put : C -> option Digest -> string -> Digest -> C * option error
}.

(** [bundle.LockedBundle] and what [initBundle], [Run] and [CopyFile] do
    with packages [bundle], [run] and the file system builder, none of which
    is part of the sources: creating the bundle of an image, reading and
    rewriting its spec, creating, running and closing its container, adding
    files to its root file system. *)
Class BundleStore (B : Type) := {
  CreateBundle : option Image -> bool -> string -> string -> result B;
  BundleSpec : B -> option error;
  SetProcessArgs : B -> list string -> B;
  Close : B -> option error;
  Dir : B -> string;
  BundleImage : B -> option Digest;
  SetParentImageId : B -> Digest -> B * option error;
  NewContainer : B -> bool -> option error;
  StartAndWait : B -> option error;
  CloseContainer : B -> option error;
  FsAdd : B -> string -> list string -> string -> option error
}.

(** Go library calls whose result the engine only passes on:
    [json.Marshal] of a string slice, [filepath.Join], and the [%q] verb. *)
Class GoLib := {
  json_Marshal : option (list string) -> result string;
  filepath_Join : string -> string -> string;
  quote : string -> string
}.

Section Engine.
Context {S C B : Type} `{ImageStoreRW S} `{ImageBuildCache C} `{BundleStore B} `{GoLib}.

(** What the engine does to the outside: lines written to the info logger
    and bundles it closed. *)
Inductive Event :=
| Println (msg : string)
| BundleClosed (b : B).

Record BuildState := mkState {
  images : S;
  config : ImageConfig;
  image : option Image;
  cache : C;
  bundle : option B;
  rootless : bool;
  proot : string;
  trace : list Event
}.

Definition with_images (v : S) (b : BuildState) : BuildState :=
  mkState v (config b) (image b) (cache b) (bundle b) (rootless b) (proot b) (trace b).

Definition with_config (v : ImageConfig) (b : BuildState) : BuildState :=
  mkState (images b) v (image b) (cache b) (bundle b) (rootless b) (proot b) (trace b).

Definition with_image (v : option Image) (b : BuildState) : BuildState :=
  mkState (images b) (config b) v (cache b) (bundle b) (rootless b) (proot b) (trace b).

Definition with_cache (v : C) (b : BuildState) : BuildState :=
  mkState (images b) (config b) (image b) v (bundle b) (rootless b) (proot b) (trace b).

Definition with_bundle (v : option B) (b : BuildState) : BuildState :=
  mkState (images b) (config b) (image b) (cache b) v (rootless b) (proot b) (trace b).

Definition emit (e : Event) (b : BuildState) : BuildState :=
  mkState (images b) (config b) (image b) (cache b) (bundle b) (rootless b) (proot b)
          (trace b ++ [e]).

Definition NewBuildState (imgs : S) (c : C) (rl : bool) (pr : string) : BuildState :=
  mkState imgs (mkConfig "" "" None None []) None c None rl pr [].

Definition wrap (msg : string) (o : outcome) : outcome :=
  match o with
  | Failed e => Failed (ErrWrap e msg)
  | o => o
  end.

Definition of_error (e : option error) : outcome :=
  match e with
  | Some e => Failed e
  | None => Done
  end.

Definition parentImgId (b : BuildState) : option Digest := ID <$> image b.

Definition setImage (img : Image) (b : BuildState) : BuildState * option error :=
  (with_config (fst (Config img)) (with_image (Some img) b), snd (Config img)).

Definition initBundle (cmd : string) (b : BuildState) : BuildState * option error :=
  let entrypoint := ["/bin/sh"; "-c"] in
  match bundle b with
  | None =>
      match CreateBundle (image b) (rootless b) (proot b) cmd with
      | Err e => (b, Some (ErrWrap e "image builder"))
      | Ok bd => (with_bundle (Some bd) b, None)
      end
  | Some bd =>
      if decide (cmd = "") then (b, None)
      else match BundleSpec bd with
           | Some e => (b, Some e)
           | None =>
               (* the error of [SetSpec] is assigned to a shadowed [err] *)
               (with_bundle (Some (SetProcessArgs bd (entrypoint ++ [cmd]))) b, None)
           end
  end.

Definition commitLayer (comment : string) (b : BuildState) : BuildState * outcome :=
  let b := emit (Println "  -> committing layer ...") b in
  match bundle b with
  | None => (b, Panicked)
  | Some bd =>
      let rootfs := filepath_Join (Dir bd) "rootfs" in
      let '(imgs, r) := AddImageLayer (images b) rootfs (BundleImage bd) (Author (config b)) comment in
      let b := with_images imgs b in
      match r with
      | Err e => (b, Failed (ErrWrap e "commit layer"))
      | Ok img =>
          let '(b, e) := setImage img b in
          match e with
          | Some e => (b, Failed (ErrWrap e "commit layer"))
          | None =>
              let '(bd, e) := SetParentImageId bd (ID img) in
              (with_bundle (Some bd) b, wrap "commit layer" (of_error e))
          end
      end
  end.

Definition commitConfig (comment : string) (b : BuildState) : BuildState * outcome :=
  let cfg := config b in
  let cfg :=
    mkConfig (Author cfg) (WorkingDir cfg) (Entrypoint cfg) (Cmd cfg)
             (HistoryEntries cfg ++
                [{| CreatedBy := Author cfg; Comment := comment; EmptyLayer := false |}]) in
  let b := with_config cfg b in
  let '(imgs, r) := AddImageConfig (images b) (config b) (parentImgId b) in
  let b := with_images imgs b in
  match r with
  | Err e => (b, Failed (ErrWrap e "commit config"))
  | Ok img =>
      let '(b, e) := setImage img b in
      (b, wrap "commit config" (of_error e))
  end.

(** The deferred function of [cached]: on an error the bundle, if there is
    one, is closed and dropped. *)
Definition releaseBundle (b : BuildState) (err : error) : BuildState * error :=
  match bundle b with
  | Some bd =>
      (with_bundle None (emit (BundleClosed bd) b),
       ErrMulti (err :: option_list (Close bd)))
  | None => (b, err)
  end.

Definition build (uniqComment : string) (call : string -> BuildState -> BuildState * outcome)
    (parent : option Digest) (b : BuildState) : BuildState * outcome :=
  let b := emit (Println "  -> building ...") b in
  match call uniqComment b with
  | (b, Panicked) => (b, Panicked)
  | (b, Failed e) => let '(b, e) := releaseBundle b e in (b, Failed e)
  | (b, Done) =>
      match image b with
      | None => (b, Panicked)
      | Some img =>
          let '(c, e) := Put (cache b) parent uniqComment (ID img) in
          let b := with_cache c b in
          let b := emit (Println ("  -> built image " +:+ ID img)) b in
          match e with
          | Some e => let '(b, e) := releaseBundle b e in (b, Failed e)
          | None => (b, Done)
          end
      end
  end.

Definition cached (uniqComment : string) (call : string -> BuildState -> BuildState * outcome)
    (b : BuildState) : BuildState * outcome :=
  let b := emit (Println uniqComment) b in
  let parent := parentImgId b in
  match Get (cache b) parent uniqComment with
  | Ok cachedImgId =>
      match ImageById (images b) cachedImgId with
      | Ok cachedImg =>
          let '(b, e) := setImage cachedImg b in
          match e with
          | Some e => (b, Failed (ErrWrap e "cached image"))
          | None =>
              (emit (Println ("  -> using cached image " +:+ ID cachedImg)) b, Done)
          end
      | Err _ => build uniqComment call parent b
      end
  | Err (ErrCache true _) => build uniqComment call parent b
  | Err e => (b, Failed e)
  end.

Definition SetAuthor (author : string) (b : BuildState) : BuildState * outcome :=
  let cfg := config b in
  let b := with_config (mkConfig author (WorkingDir cfg) (Entrypoint cfg) (Cmd cfg)
                                 (HistoryEntries cfg)) b in
  cached ("AUTHOR " +:+ author) commitConfig b.

Definition absFile (p baseDir : string) : string :=
  if GoStrings.HasPrefix p "/" then p else filepath_Join baseDir p.

Definition SetWorkingDir (dir : string) (b : BuildState) : BuildState * outcome :=
  let cfg := config b in
  let dir := absFile dir (WorkingDir cfg) in
  let b := with_config (mkConfig (Author cfg) dir (Entrypoint cfg) (Cmd cfg)
                                 (HistoryEntries cfg)) b in
  cached ("WORKDIR " +:+ dir) commitConfig b.

Definition SetEntrypoint (entrypoint : option (list string)) (b : BuildState)
    : BuildState * outcome :=
  match json_Marshal entrypoint with
  | Err e => (b, Failed e)
  | Ok entrypointJson =>
      let cfg := config b in
      let b := with_config (mkConfig (Author cfg) (WorkingDir cfg) entrypoint (Cmd cfg)
                                     (HistoryEntries cfg)) b in
      cached ("ENTRYPOINT " +:+ entrypointJson) commitConfig b
  end.

Definition SetCmd (cmd : option (list string)) (b : BuildState) : BuildState * outcome :=
  match json_Marshal cmd with
  | Err e => (b, Failed e)
  | Ok cmdJson =>
      let cfg := config b in
      let b := with_config (mkConfig (Author cfg) (WorkingDir cfg) (Entrypoint cfg) cmd
                                     (HistoryEntries cfg)) b in
      cached ("CMD " +:+ cmdJson) commitConfig b
  end.

(** The deferred [container.Close()] of [Run]: its error is appended to
    whatever the step returned. *)
Definition closeContainer (bd : B) (r : BuildState * outcome) : BuildState * outcome :=
  match CloseContainer bd, r with
  | Some ce, (b, Failed e) => (b, Failed (ErrMulti [e; ce]))
  | Some ce, (b, Done) => (b, Failed (ErrMulti [ce]))
  | _, r => r
  end.

Definition Run (cmd : string) (b : BuildState) : BuildState * outcome :=
  match image b with
  | None => (b, Failed (ErrNew "cannot run a command in an empty image"))
  | Some _ =>
      let comment := "RUN /bin/sh -c " +:+ quote cmd in
      cached comment
        (fun comment b =>
           match initBundle cmd b with
           | (b, Some e) => (b, Failed e)
           | (b, None) =>
               match bundle b with
               | None => (b, Panicked)
               | Some bd =>
                   match NewContainer bd (rootless b) with
                   | Some e => (b, Failed e)
                   | None =>
                       closeContainer bd
                         match StartAndWait bd with
                         | Some e => (b, Failed e)
                         | None => commitLayer comment b
                         end
                   end
               end
           end) b
  end.

(** The comment [CopyFile] commits its layer with. *)
Definition copyFileComment : string := "add file to image".

Definition CopyFile (contextDir : string) (patterns : list string) (dest root : string)
    (b : BuildState) : BuildState * outcome :=
  let release (r : BuildState * outcome) : BuildState * outcome :=
    match r with
    | (b, Failed e) =>
        let '(b, e) := releaseBundle b e in
        (b, Failed (ErrWrap e "copy file into image"))
    | r => r
    end in
  release
    match initBundle "" b with
    | (b, Some e) => (b, Failed e)
    | (b, None) =>
        match bundle b with
        | None => (b, Panicked)
        | Some bd =>
            match FsAdd bd contextDir patterns dest with
            | Some e => (b, Failed e)
            | None => commitLayer copyFileComment b
            end
        end
    end.

(** A miss: the cache answers with a temporary error, or the image it
    names cannot be loaded. *)
Definition miss (key : string) (b : BuildState) : Prop :=
  (∃ m, Get (cache b) (parentImgId b) key = Err (ErrCache true m))
  ∨ (∃ d e, Get (cache b) (parentImgId b) key = Ok d ∧ ImageById (images b) d = Err e).

End Engine.

Arguments BuildState S C B : clear implicits.
Arguments Event B : clear implicits.
Arguments miss {S C B _ _} key b.

(** *** A sample image store, build cache and bundle store *)

Definition sampleDigest (cfg : ImageConfig) : Digest :=
  "sha256:" +:+ pretty (length (HistoryEntries cfg)).

#[export] Instance sampleStore : ImageStoreRW (list Image) := {|
  ImageById s d :=
    match List.find (fun i => bool_decide (ID i = d)) s with
    | Some i => Ok i
    | None => Err (ErrNew "image not found")
    end;
  AddImageConfig s cfg parent :=
    let img := mkImage (sampleDigest cfg) (cfg, None) in (img :: s, Ok img);
  AddImageLayer s rootfs parent author comment :=
    let cfg := mkConfig author "" None None [mkHistory author comment false] in
    let img := mkImage ("sha256:layer of " +:+ rootfs) (cfg, None) in
    (img :: s, Ok img)
|}.

#[export] Instance sampleCache : ImageBuildCache (gmap (option Digest * string) Digest) := {|
  Get c parent key :=
    match c !! (parent, key) with
    | Some d => Ok d
    | None => Err (ErrCache true "cache entry not found")
    end;
  Put c parent key d := (<[(parent, key) := d]> c, None)
|}.

Record SampleBundle := mkBundle {
  sampleDir : string;
  sampleParent : option Digest
}.

#[export] Instance sampleBundles : BundleStore SampleBundle := {|
  CreateBundle img rl pr cmd := Ok (mkBundle "/bundles/build" (ID <$> img));
  BundleSpec bd := None;
  SetProcessArgs bd args := bd;
  Close bd := None;
  Dir := sampleDir;
  BundleImage := sampleParent;
  SetParentImageId bd d := (mkBundle (sampleDir bd) (Some d), None);
  NewContainer bd rl := None;
  StartAndWait bd := None;
  CloseContainer bd := None;
  FsAdd bd contextDir patterns dest := None
|}.

#[export] Instance sampleLib : GoLib := {|
  json_Marshal v := Ok ("[" +:+ GoStrings.Join GoStrings.comma (default [] v) +:+ "]");
  filepath_Join a b := a +:+ "/" +:+ b;
  quote s := String "034" (s +:+ String "034" "")
|}.

Definition SampleState := BuildState (list Image) (gmap (option Digest * string) Digest) SampleBundle.

Definition sampleState : SampleState := NewBuildState [] ∅ false "".

(** A step that fails after a bundle was created *)
Definition failingStep (comment : string) (b : SampleState) : SampleState * outcome :=
  (with_bundle (Some (mkBundle "/bundles/build" None)) b, Failed (ErrNew "exit status 1")).

(** *** Base image, tags and the list of build steps *)

(** The rest of [image.ImageStoreRW]: lookup by name, import, tagging *)
Class ImageNames (S : Type) := {
  ImageByName : S -> string -> result Image;
  ImportImage : S -> string -> S * result Image;
  TagImage : S -> Digest -> string -> S * result Image
}.

Section Steps.
Context {S C B : Type} `{ImageStoreRW S} `{ImageNames S} `{ImageBuildCache C}
        `{BundleStore B} `{GoLib}.

Local Abbreviation State := (BuildState S C B).

Definition FromImage (name : string) (b : State) : State * outcome :=
  match image b with
  | Some _ => (b, Failed (ErrNew "base image must be defined as first build step"))
  | None =>
      match ImageByName (images b) name with
      | Ok img => let '(b, e) := setImage img b in (b, of_error e)
      | Err _ =>
          let '(imgs, r) := ImportImage (images b) name in
          let b := with_images imgs b in
          match r with
          | Err e => (b, Failed e)
          | Ok img => let '(b, e) := setImage img b in (b, of_error e)
          end
      end
  end.

Definition Tag (tag : string) (b : State) : State * outcome :=
  match image b with
  | None => (b, Failed (ErrNew "no image to tag provided"))
  | Some cur =>
      let '(imgs, r) := TagImage (images b) (ID cur) tag in
      let b := with_images imgs b in
      match r with
      | Ok img => (with_image (Some img) b, Done)
      | Err e => (b, Failed e)
      end
  end.

(** [AddTag] dereferences [b.image] without a check. *)
Definition AddTag (name : string) (b : State) : State * outcome :=
  match image b with
  | None => (b, Panicked)
  | Some cur =>
      let '(imgs, r) := TagImage (images b) (ID cur) name in
      let b := with_images imgs b in
      match r with
      | Ok img => (with_image (Some img) b, Done)
      | Err e => (b, Failed e)
      end
  end.

(** [BuildState.Close]: the bundle is closed and kept. *)
Definition CloseState (b : State) : State * option error :=
  match bundle b with
  | Some bd => (emit (BundleClosed bd) b, (fun e => ErrMulti [e]) <$> Close bd)
  | None => (b, None)
  end.

(** The closures [ImageBuilder] collects in [steps], by the method that
    added them. *)
Inductive Step :=
| StepFromImage (image : string)
| StepSetAuthor (author : string)
| StepSetWorkingDir (dir : string)
| StepSetEntrypoint (entrypoint : option (list string))
| StepSetCmd (cmd : option (list string))
| StepRun (cmd : string)
| StepTag (tag : string).

(** The step of [ImageBuilder.SetAuthor] calls [BuildState.SetAuthor] and
    returns nil. *)
Definition runStep (step : Step) (b : State) : State * outcome :=
  match step with
  | StepFromImage image => FromImage image b
  | StepSetAuthor author =>
      match SetAuthor author b with
      | (b, Panicked) => (b, Panicked)
      | (b, _) => (b, Done)
      end
  | StepSetWorkingDir dir => SetWorkingDir dir b
  | StepSetEntrypoint v => SetEntrypoint v b
  | StepSetCmd v => SetCmd v b
  | StepRun c => Run c b
  | StepTag tag => Tag tag b
  end.

Fixpoint runSteps (steps : list Step) (b : State) : State * outcome :=
  match steps with
  | [] => (b, Done)
  | step :: steps' =>
      match runStep step b with
      | (b, Done) => runSteps steps' b
      | r => r
      end
  end.

(** [ImageBuilder.Build]: the state it leaves, the image and the error it
    returns.  Of the configuration it initialises ([Created],
    [Architecture], [OS]) the model of [ImageConfig] holds no field.  The
    deferred [state.Close()] runs on every way out, then the error is
    wrapped. *)
Definition Build (steps : list Step) (imgs : S) (c : C) (rl : bool) (pr : string)
    : State * option Image * outcome :=
  let state := NewBuildState imgs c rl pr in
  let '(state, img, o) :=
    match steps with
    | [] => (state, None, Failed (ErrNew "no build steps defined"))
    | _ =>
        match runSteps steps state with
        | (state, Done) =>
            match image state with
            | Some img => (state, Some img, Done)
            | None => (state, None, Panicked)
            end
        | (state, o) => (state, None, o)
        end
    end in
  let '(state, ce) := CloseState state in
  let o :=
    match o, ce with
    | Panicked, _ => Panicked
    | Failed e, Some ce => Failed (ErrMulti [e; ce])
    | Done, Some ce => Failed (ErrMulti [ce])
    | o, None => o
    end in
  (state, img, wrap "build image" o).

Definition isAuthorStep (step : Step) : bool :=
  match step with
  | StepSetAuthor _ => true
  | _ => false
  end.

(** An action keeps the image when a builder that holds an image holds one
    afterwards. *)
Definition keepsImage (f : State -> State * outcome) : Prop :=
  ∀ b, is_Some (image b) -> is_Some (image (fst (f b))).

(** An action is safe when it does not panic and leaves an image whenever
    it succeeds. *)
Definition safe (f : State -> State * outcome) : Prop :=
  ∀ b, snd (f b) ≠ Panicked ∧ (snd (f b) = Done -> is_Some (image (fst (f b)))).

End Steps.

(** *** More samples: image names, a store that fails, states *)

#[export] Instance sampleNames : ImageNames (list Image) := {|
  ImageByName s name :=
    match List.find (fun i => bool_decide (ID i = "sha256:" +:+ name)) s with
    | Some i => Ok i
    | None => Err (ErrNew "image not found")
    end;
  ImportImage s name :=
    let img := mkImage ("sha256:" +:+ name) (mkConfig "" "" None None [], None) in
    (img :: s, Ok img);
  TagImage s d tag :=
    (s, match List.find (fun i => bool_decide (ID i = d)) s with
        | Some i => Ok i
        | None => Err (ErrNew "image not found")
        end)
|}.

(** An image store on a file system that cannot be read or written *)
Definition ioError : error := ErrNew "input/output error".

#[export] Instance brokenStore : ImageStoreRW unit := {|
  ImageById s d := Err ioError;
  AddImageConfig s cfg parent := (s, Err ioError);
  AddImageLayer s rootfs parent author comment := (s, Err ioError)
|}.

#[export] Instance brokenNames : ImageNames unit := {|
  ImageByName s name := Err ioError;
  ImportImage s name := (s, Err ioError);
  TagImage s d tag := (s, Err ioError)
|}.

Definition BrokenState := BuildState unit (gmap (option Digest * string) Digest) SampleBundle.

Definition brokenState : BrokenState := NewBuildState tt ∅ false "".

(** The state after the step [AUTHOR Max] on the empty sample state, and
    the state of a later build on the same store and cache *)
Definition builtState : SampleState := fst (cached "AUTHOR Max" commitConfig sampleState).

Definition rebuildState : SampleState :=
  NewBuildState (images builtState) (cache builtState) false "".

End ImageBuilder.

(** ** The Dockerfile front end ([image/builder/dockerfile/dockerfile.go]) *)

Module Dockerfile.
Import GoStrings.

(** A [parser.Node] of an instruction: the lower-cased instruction name, the
    source line, the flags, and the values of the chain of [Next] nodes. *)
Record Node := mkNode {
  Value : string;
  Original : string;
  Flags : list string;
  Next : list string;
  StartLine : nat
}.

Inductive error :=
| IncompleteInstruction (n : Node)
| UnsupportedFlag (key : string)
| FromExpected (v : list string)
| InvalidArgumentCount (n : Node)
| UnsupportedInstruction (instr : string)
| LexError (msg : string)
| AtLine (line : nat) (instr : string) (e : error).

(** A call returns a value, returns an error, or panics (index or slice
    bounds out of range, an explicit [panic]). *)
Inductive res (A : Type) :=
| Ok (a : A)
| Err (e : error)
| Panic.
Arguments Ok {A} a.
Arguments Err {A} e.
Arguments Panic {A}.

#[global] Instance res_bind : MBind res := fun A B (f : A -> res B) (r : res A) =>
  match r with
  | Ok a => f a
  | Err e => Err e
  | Panic => Panic
  end.

Fixpoint mapM_res {A B} (f : A -> res B) (l : list A) : res (list B) :=
  match l with
  | [] => Ok []
  | a :: l' => b ← f a; bs ← mapM_res f l'; Ok (b :: bs)
  end.

(** What [warn.Printf] is called with *)
Inductive Warning :=
| UndefinedBuildArg (k : string)
| ArgShadowedByEnv (k : string).

(** The closures appended to [ops], as the call they make on the image
    builder and the values they captured. *)
Inductive Op :=
| OpFromImage (image : string) (v : list string)
| OpCopyFiles (ctxDir : string) (srcPattern : list string) (dest : string) (usr : option Builder.User)
| OpCopyFilesFromImage (from : string) (srcPattern : list string) (dest : string) (usr : option Builder.User)
| OpAddFiles (from ctxDir : string) (srcPattern : list string) (dest : string) (usr : option Builder.User)
| OpLabels (m : gmap string string)
| OpSetAuthor (author : string)
| OpAddEnv (m : gmap string string)
| OpSetUser (u : string)
| OpSetWorkingDir (dir : string)
| OpRun (v : list string) (addEnv : gmap string string)
| OpAddExposedPorts (v : list string)
| OpAddVolumes (v : list string)
| OpSetEntrypoint (v : list string)
| OpSetCmd (v : list string)
| OpSetStopSignal (sig : string).

Record DockerfileBuilder := mkBuilder {
  ops : list Op;
  ctxDir : string;
  buildArgs : gmap string string;
  envMap : gmap string bool;
  runEnvMap : gmap string string;
  varScope : gmap string string;
  shell : list string;
  warnings : list Warning;
  (** [cap(s.shell)], and the positions in [ops] of the operations whose
      argument slice lies in the backing array of [s.shell] *)
  shellCap : nat;
  shellRefs : list nat
}.

Definition resetState (s : DockerfileBuilder) : DockerfileBuilder :=
  mkBuilder (ops s) (ctxDir s) (buildArgs s) ∅ ∅ ∅ (shell s) (warnings s)
            (shellCap s) (shellRefs s).

Definition add (op : Op) (s : DockerfileBuilder) : DockerfileBuilder :=
  mkBuilder (ops s ++ [op]) (ctxDir s) (buildArgs s) (envMap s) (runEnvMap s)
            (varScope s) (shell s) (warnings s) (shellCap s) (shellRefs s).

Definition warn (w : Warning) (s : DockerfileBuilder) : DockerfileBuilder :=
  mkBuilder (ops s) (ctxDir s) (buildArgs s) (envMap s) (runEnvMap s)
            (varScope s) (shell s) (warnings s ++ [w]) (shellCap s) (shellRefs s).

(** [s.shell = v] for a slice [v] of capacity [c] that nothing else refers
    to *)
Definition with_shell (v : list string) (c : nat) (s : DockerfileBuilder)
    : DockerfileBuilder :=
  mkBuilder (ops s) (ctxDir s) (buildArgs s) (envMap s) (runEnvMap s)
            (varScope s) v (warnings s) c [].

Definition with_scopes (em : gmap string bool) (rm vs : gmap string string)
    (s : DockerfileBuilder) : DockerfileBuilder :=
  mkBuilder (ops s) (ctxDir s) (buildArgs s) em rm vs (shell s) (warnings s)
            (shellCap s) (shellRefs s).

Definition with_buildArgs (args : gmap string string) (s : DockerfileBuilder)
    : DockerfileBuilder :=
  mkBuilder (ops s) (ctxDir s) args (envMap s) (runEnvMap s) (varScope s) (shell s)
            (warnings s) (shellCap s) (shellRefs s).

(** The last element of the argument slice of a [RUN], [ENTRYPOINT] or
    [CMD] operation is overwritten. *)
Definition setCmdLast (x : string) (op : Op) : Op :=
  match op with
  | OpRun v addEnv => OpRun (removelast v ++ [x]) addEnv
  | OpSetEntrypoint v => OpSetEntrypoint (removelast v ++ [x])
  | OpSetCmd v => OpSetCmd (removelast v ++ [x])
  | op => op
  end.

(** [s.add] of an operation made from the slice [v] that
    [readInstructionNodeCmd] returned.  In shell form [v] is
    [append(s.shell, joined)].  When [s.shell] has capacity left, [append]
    allocates nothing: it writes [joined] into the backing array of
    [s.shell], behind its elements, and [v] is a slice of that array
    ([shared]).  The place written is the last element of every operation
    recorded before from the same [s.shell]: they all hold [joined] from now
    on.  In exec form, and when [s.shell] is full, [v] is a slice of its
    own. *)
Definition addCmd (shared : bool) (mk : list string -> Op) (v : list string)
    (s : DockerfileBuilder) : DockerfileBuilder :=
  if shared then
    let joined := default "" (last v) in
    let ops' :=
      imap (fun i op => if bool_decide (i ∈ shellRefs s) then setCmdLast joined op else op)
           (ops s) in
    mkBuilder (ops' ++ [mk v]) (ctxDir s) (buildArgs s) (envMap s) (runEnvMap s)
              (varScope s) (shell s) (warnings s) (shellCap s)
              (shellRefs s ++ [length (ops s)])
  else add (mk v) s.

(** [strings.SplitN(f, "=", 2)]: the key and, when there is a "=", the rest *)
Fixpoint splitKeyValue (f : string) : string * option string :=
  match f with
  | EmptyString => (EmptyString, None)
  | String a f' =>
      if decide (a = "="%char) then (EmptyString, Some f')
      else let '(k, v) := splitKeyValue f' in (String a k, v)
  end.

(** [readFlags]: [known] holds the flag names passed by pointer; the result
    is their new values, in the same order. *)
Fixpoint readFlagValues (known : list string) (flags : list string)
    (vals : gmap string string) : res (gmap string string) :=
  match flags with
  | [] => Ok vals
  | f :: flags' =>
      let '(key, v) := splitKeyValue f in
      if bool_decide (key ∈ known) then
        readFlagValues known flags'
          (match v with Some v => <[key := v]> vals | None => vals end)
      else Err (UnsupportedFlag key)
  end.

Definition readFlags (n : Node) (flags : list string) : res (list string) :=
  if bool_decide ("" ∈ flags) then Panic
  else
    vals ← readFlagValues flags (Flags n) ∅;
    Ok ((fun f => default "" (vals !! f)) <$> flags).

Definition readInstructionNode (node : Node) (flags : list string)
    : res (list string * list string) :=
  let r := Next node in
  match r with
  | [] => Err (IncompleteInstruction node)
  | _ => fl ← readFlags node flags; Ok (r, fl)
  end.

(** *** Exec form detection *)

(** [json.Unmarshal(args, &[]string{}) == nil]: the scanner of
    [encoding/json] accepts one JSON value between white space; decoding
    into a string slice succeeds for [null] and for an array whose elements
    are strings or [null]. *)
Inductive jstate :=
| JTop
| JArrFirst
| JArrValue
| JArrAfter
| JEnd
| JStr
| JEsc
| JHex (n : nat)
| JLit (rest : string) (top : bool).

Definition json_space (c : ascii) : bool :=
  bool_decide (c = " "%char) || bool_decide (c = "009"%char)
  || bool_decide (c = "010"%char) || bool_decide (c = "013"%char).

Definition is_hex (c : ascii) : bool :=
  let n := nat_of_ascii c in
  (((48 <=? n) && (n <=? 57)) || ((97 <=? n) && (n <=? 102))
   || ((65 <=? n) && (n <=? 70)))%nat.

Definition jvalue (c : ascii) : option jstate :=
  if bool_decide (c = "034"%char) then Some JStr
  else if bool_decide (c = "n"%char) then Some (JLit "ull" false)
  else None.

Definition jstep (st : jstate) (c : ascii) : option jstate :=
  match st with
  | JTop =>
      if json_space c then Some JTop
      else if bool_decide (c = "["%char) then Some JArrFirst
      else if bool_decide (c = "n"%char) then Some (JLit "ull" true)
      else None
  | JArrFirst =>
      if json_space c then Some JArrFirst
      else if bool_decide (c = "]"%char) then Some JEnd
      else jvalue c
  | JArrValue =>
      if json_space c then Some JArrValue else jvalue c
  | JArrAfter =>
      if json_space c then Some JArrAfter
      else if bool_decide (c = ","%char) then Some JArrValue
      else if bool_decide (c = "]"%char) then Some JEnd
      else None
  | JEnd => if json_space c then Some JEnd else None
  | JStr =>
      if bool_decide (c = "034"%char) then Some JArrAfter
      else if bool_decide (c = "\"%char) then Some JEsc
      else if (nat_of_ascii c <? 32)%nat then None
      else Some JStr
  | JEsc =>
      if bool_decide (c ∈ ["b"; "f"; "n"; "r"; "t"; "\"; "/"; "034"]%char) then Some JStr
      else if bool_decide (c = "u"%char) then Some (JHex 4)
      else None
  | JHex n =>
      if is_hex c then
        match n with
        | 0 | 1 => Some JStr
        | S n' => Some (JHex n')
        end
      else None
  | JLit rest top =>
      match rest with
      | String a rest' =>
          if bool_decide (c = a) then
            match rest' with
            | EmptyString => Some (if top then JEnd else JArrAfter)
            | _ => Some (JLit rest' top)
            end
          else None
      | EmptyString => None
      end
  end.

Fixpoint jscan (st : jstate) (s : string) : bool :=
  match s with
  | EmptyString => match st with JEnd => true | _ => false end
  | String c s' =>
      match jstep st c with
      | Some st' => jscan st' s'
      | None => false
      end
  end.

Definition json_Unmarshal_strings_ok (args : string) : bool := jscan JTop args.

(** [isJsonNotation]; [None] is the panic of [line[-1:]] when the trimmed
    line holds no space. *)
Definition isJsonNotation (n : Node) : option bool :=
  let line := TrimSpace (Original n) in
  match IndexByte " "%char line with
  | None => None
  | Some i => Some (json_Unmarshal_strings_ok (TrimSpace (drop_bytes i line)))
  end.







(** *** The instruction handlers *)

Section Handlers.

(** [shell.Lex.ProcessWord], [strconv.Unquote] and [idutils.ParseUser] are
    library calls whose results are only passed on. *)
Variable ProcessWord : string -> list string -> res string.
Variable Unquote : string -> option string.
Variable ParseUser : string -> Builder.User.

(** [appendCap n] is the capacity of the slice [readInstructionNode] returns
    for [n] values, which it appends one by one to [[]string{}].  Go's
    runtime decides it ([growslice]); for short slices it doubles: 1, 2, 4,
    4, 8, ... *)
Variable appendCap : nat -> nat.

Definition subst (s : DockerfileBuilder) (v : list string) : res (list string) :=
  let env := (fun kv => fst kv +:+ "=" +:+ snd kv) <$> map_to_list (varScope s) in
  mapM_res (fun e => ProcessWord e env) v.

Definition unquote (v : string) : string := default v (Unquote v).

Fixpoint toMapFrom (v : list string) (m : gmap string string) : gmap string string :=
  match v with
  | k :: x :: v' => toMapFrom v' (<[unquote k := unquote x]> m)
  | _ => m
  end.

Definition toMap (v : list string) : gmap string string := toMapFrom v ∅.

(** The contents of the slice [readInstructionNodeCmd] returns, when it
    returns. *)
Definition readInstructionNodeCmd (s : DockerfileBuilder) (n : Node) : res (list string) :=
  '(r, _) ← readInstructionNode n [];
  match isJsonNotation n with
  | None => Panic
  | Some true => Ok r
  | Some false => Ok (shell s ++ [Join space r])
  end.

(** Whether that slice is [append(s.shell, ...)] with [s.shell] not full:
    then it lies in the backing array of [s.shell]. *)
Definition sharesShell (s : DockerfileBuilder) (n : Node) : bool :=
  match isJsonNotation n with
  | Some false => bool_decide (length (shell s) < shellCap s)
  | _ => false
  end.

Definition from (n : Node) (s : DockerfileBuilder) : res DockerfileBuilder :=
  '(v, _) ← readInstructionNode n [];
  v ← subst s v;
  if bool_decide (length v ≠ 1 ∧ length v ≠ 3)
     || bool_decide (v !! 0 = Some "")
     || (bool_decide (length v = 3) && negb (bool_decide (v !! 1 = Some "as")))
  then Err (FromExpected v)
  else Ok (add (OpFromImage (default "" (v !! 0)) v) (resetState s)).

Definition copy (n : Node) (isAdd : bool) (s : DockerfileBuilder) : res DockerfileBuilder :=
  '(v, fl) ← readInstructionNode n ["--chown"; "--from"];
  fl ← subst s fl;
  let chown := default "" (fl !! 0) in
  let from := default "" (fl !! 1) in
  v ← subst s v;
  let '(srcPattern, dest) :=
    if decide (1 < length v) then (removelast v, default "" (last v)) else (v, "") in
  let usr := if decide (chown = "") then None else Some (ParseUser chown) in
  Ok (add (if isAdd then OpAddFiles from (ctxDir s) srcPattern dest usr
           else if decide (from = "") then OpCopyFiles (ctxDir s) srcPattern dest usr
           else OpCopyFilesFromImage from srcPattern dest usr) s).

Definition label (n : Node) (s : DockerfileBuilder) : res DockerfileBuilder :=
  '(v, _) ← readInstructionNode n [];
  v ← subst s v;
  Ok (add (OpLabels (toMap v)) s).

Definition maintainer (n : Node) (s : DockerfileBuilder) : res DockerfileBuilder :=
  '(v, _) ← readInstructionNode n [];
  Ok (add (OpSetAuthor (Join space v)) s).

Definition arg (n : Node) (s : DockerfileBuilder) : res DockerfileBuilder :=
  '(l, _) ← readInstructionNode n [];
  match l with
  | [] => Panic
  | k :: rest =>
      let v := if decide (2 <= length l) then Join space rest else "" in
      let '(v, s) :=
        match buildArgs s !! k with
        | Some barg => (barg, s)
        | None => if decide (v = "") then (v, warn (UndefinedBuildArg k) s) else (v, s)
        end in
      if default false (envMap s !! k) then Ok (warn (ArgShadowedByEnv k) s)
      else if decide (v = "") then Ok s
      else Ok (with_scopes (envMap s) (<[k := v]> (runEnvMap s)) (<[k := v]> (varScope s)) s)
  end.

Definition env (n : Node) (s : DockerfileBuilder) : res DockerfileBuilder :=
  '(v, _) ← readInstructionNode n [];
  v ← subst s v;
  let m := toMap v in
  let s := add (OpAddEnv m) s in
  Ok (with_scopes (((fun _ => true) <$> m) ∪ envMap s) (runEnvMap s) (m ∪ varScope s) s).

Definition useShell (n : Node) (s : DockerfileBuilder) : res DockerfileBuilder :=
  '(v, _) ← readInstructionNode n [];
  Ok (with_shell v (appendCap (length v)) s).

Definition oneArg (mk : string -> Op) (n : Node) (s : DockerfileBuilder)
    : res DockerfileBuilder :=
  '(v, _) ← readInstructionNode n [];
  if decide (length v = 1) then
    v ← subst s v;
    Ok (add (mk (default "" (v !! 0))) s)
  else Err (InvalidArgumentCount n).

Definition user : Node -> DockerfileBuilder -> res DockerfileBuilder := oneArg OpSetUser.

Definition workdir : Node -> DockerfileBuilder -> res DockerfileBuilder :=
  oneArg OpSetWorkingDir.

Definition stopsignal : Node -> DockerfileBuilder -> res DockerfileBuilder :=
  oneArg OpSetStopSignal.

Definition run (n : Node) (s : DockerfileBuilder) : res DockerfileBuilder :=
  v ← readInstructionNodeCmd s n;
  Ok (addCmd (sharesShell s n) (fun v => OpRun v (runEnvMap s)) v s).

Definition exposePorts (n : Node) (s : DockerfileBuilder) : res DockerfileBuilder :=
  '(v, _) ← readInstructionNode n [];
  v ← subst s v;
  Ok (add (OpAddExposedPorts v) s).

Definition volume (n : Node) (s : DockerfileBuilder) : res DockerfileBuilder :=
  '(v, _) ← readInstructionNode n [];
  v ← subst s v;
  Ok (add (OpAddVolumes v) s).

Definition entrypoint (n : Node) (s : DockerfileBuilder) : res DockerfileBuilder :=
  v ← readInstructionNodeCmd s n;
  Ok (addCmd (sharesShell s n) OpSetEntrypoint v s).

Definition cmd (n : Node) (s : DockerfileBuilder) : res DockerfileBuilder :=
  v ← readInstructionNodeCmd s n;
  Ok (addCmd (sharesShell s n) OpSetCmd v s).

Definition dispatch (node : Node) (s : DockerfileBuilder) : res DockerfileBuilder :=
  let instr := Value node in
  if decide (instr = "from") then from node s
  else if decide (instr = "copy") then copy node false s
  else if decide (instr = "add") then copy node true s
  else if decide (instr = "label") then label node s
  else if decide (instr = "maintainer") then maintainer node s
  else if decide (instr = "arg") then arg node s
  else if decide (instr = "env") then env node s
  else if decide (instr = "workdir") then workdir node s
  else if decide (instr = "user") then user node s
  else if decide (instr = "shell") then useShell node s
  else if decide (instr = "run") then run node s
  else if decide (instr = "expose") then exposePorts node s
  else if decide (instr = "volume") then volume node s
  else if decide (instr = "entrypoint") then entrypoint node s
  else if decide (instr = "cmd") then cmd node s
  else if decide (instr = "stopsignal") then stopsignal node s
  else Err (UnsupportedInstruction instr).

(** [readNode] wraps the error of the handler with the line and the name of
    the instruction. *)
Definition readNode (node : Node) (s : DockerfileBuilder) : res DockerfileBuilder :=
  match dispatch node s with
  | Err e => Err (AtLine (StartLine node) (Value node) e)
  | r => r
  end.

Fixpoint readNodes (nodes : list Node) (s : DockerfileBuilder) : res DockerfileBuilder :=
  match nodes with
  | [] => Ok s
  | n :: nodes' => s' ← readNode n s; readNodes nodes' s'
  end.

(** [LoadDockerfile] after [parser.Parse] returned the instruction nodes
    [children]; a nil map of build arguments is [None].  The slice literal
    of the default shell is full: length and capacity 2. *)
Definition LoadDockerfile (children : list Node) (dir : string)
    (args : option (gmap string string)) : res DockerfileBuilder :=
  let sh := ["/bin/sh"; "-c"] in
  let b := mkBuilder [] dir (default ∅ args) ∅ ∅ ∅ sh [] 2 [] in
  readNodes children (resetState b).

End Handlers.




(** *** Sample instructions *)

Definition dq : string := String "034" "".

Definition emptyBuilder : DockerfileBuilder :=
  mkBuilder [] "/ctx" ∅ ∅ ∅ ∅ ["/bin/sh"; "-c"] [] 2 [].


(** [RUN ["/bin/busybox", "sh"]] *)
Definition runExec : Node :=
  mkNode "run"
    ("RUN [" +:+ dq +:+ "/bin/busybox" +:+ dq +:+ ", " +:+ dq +:+ "sh" +:+ dq +:+ "]")
    [] ["/bin/busybox"; "sh"] 4.

(** [RUN echo hello]: in shell form the parser hands the rest of the line
    over as one argument *)
Definition runShell : Node := mkNode "run" "RUN echo hello" [] ["echo hello"] 5.

(** [SHELL ["/bin/bash", "-c"]] *)
Definition shellBash : Node :=
  mkNode "shell"
    ("SHELL [" +:+ dq +:+ "/bin/bash" +:+ dq +:+ ", " +:+ dq +:+ "-c" +:+ dq +:+ "]")
    [] ["/bin/bash"; "-c"] 2.

(** [ARG HTTP_PROXY] and [ARG VERSION=1.0]: the parser
    ([parseNameOrNameVal]) makes one argument of every word, so a name and
    its default arrive as the one word [VERSION=1.0] *)
Definition argNoDefault : Node := mkNode "arg" "ARG HTTP_PROXY" [] ["HTTP_PROXY"] 6.

Definition argDefault : Node := mkNode "arg" "ARG VERSION=1.0" [] ["VERSION=1.0"] 7.

(** [ARG BASEARG=baseargval], the instruction of the test Dockerfile whose
    expected operations are [testfiles/60-multistage.expected] *)
Definition argBaseArg : Node :=
  mkNode "arg" "ARG BASEARG=baseargval" [] ["BASEARG=baseargval"] 11.


(** [CMD<TAB>["a", "b"]] and [CMD<TAB>["a","b"]]: a tab after the name *)
Definition tab : string := String "009" "".

Definition cmdTab : Node :=
  mkNode "cmd"
    ("CMD" +:+ tab +:+ "[" +:+ dq +:+ "a" +:+ dq +:+ ", " +:+ dq +:+ "b" +:+ dq +:+ "]")
    [] ["a"; "b"] 12.

Definition cmdTabNoSpace : Node :=
  mkNode "cmd"
    ("CMD" +:+ tab +:+ "[" +:+ dq +:+ "a" +:+ dq +:+ "," +:+ dq +:+ "b" +:+ dq +:+ "]")
    [] ["a"; "b"] 13.

(** [SHELL ["/bin/busybox", "sh", "-c"]], [RUN echo one], [RUN echo two] *)
Definition shellBusybox : Node :=
  mkNode "shell"
    ("SHELL [" +:+ dq +:+ "/bin/busybox" +:+ dq +:+ ", " +:+ dq +:+ "sh" +:+ dq +:+ ", "
     +:+ dq +:+ "-c" +:+ dq +:+ "]")
    [] ["/bin/busybox"; "sh"; "-c"] 14.

Definition runOne : Node := mkNode "run" "RUN echo one" [] ["echo one"] 15.

Definition runTwo : Node := mkNode "run" "RUN echo two" [] ["echo two"] 16.

(** The capacities Go's [append] gives a slice that grows from empty one
    element at a time: 0, 1, 2, 4, 4, 8, 8, 8, 8, 16, ... *)
Fixpoint goAppendCap (n : nat) : nat :=
  match n with
  | 0 => 0
  | S n' =>
      let c := goAppendCap n' in
      if decide (n' < c) then c else if decide (c = 0) then 1 else 2 * c
  end.

(** Library calls of a sample run: no variable to expand, nothing quoted *)
Definition sampleProcessWord (w : string) (env : list string) : res string := Ok w.

Definition sampleUnquote (v : string) : option string := None.

Definition sampleParseUser (u : string) : Builder.User := Builder.mkUser u "".

(** *** Notions used to state properties of the handlers *)

(** The key of a flag: the text before its first "=" *)
Definition flagKey (f : string) : string := fst (splitKeyValue f).

(** The value given last to the flag [k] in [flags], or "" *)
Definition lastFlagValue (k : string) (flags : list string) : string :=
  default ""
    (last (omap (fun f => if decide (flagKey f = k) then snd (splitKeyValue f) else None)
                flags)).

(** [ARG] and [SHELL] change the state of the parser only; every other
    instruction appends one operation. *)
Definition addsNoOp (n : Node) : bool :=
  bool_decide (Value n = "arg") || bool_decide (Value n = "shell").

(** The names [readNode] dispatches on *)
Definition instructions : list string :=
  ["from"; "copy"; "add"; "label"; "maintainer"; "arg"; "env"; "workdir"; "user";
   "shell"; "run"; "expose"; "volume"; "entrypoint"; "cmd"; "stopsignal"].

(** What the three scope maps always satisfy: a name passed to [RUN] or
    declared by [ENV] is in scope for substitution, and [envMap] is a set. *)
Definition scopesOk (s : DockerfileBuilder) : Prop :=
  dom (runEnvMap s) ⊆ dom (varScope s)
  ∧ dom (envMap s) ⊆ dom (varScope s)
  ∧ ∀ k b, envMap s !! k = Some b -> b = true.

(** *** Applying the operations ([Apply]) *)

(** The errors of [Apply]: what the image builder returned, the refusal of
    [opAdd], and the wrapping by [Apply]. *)
Inductive applyError :=
| BuilderError (msg : string)
| AddFromUnsupported
| ApplyDockerfile (e : applyError).

(** The [ImageBuilder] interface; [T] is the state of its implementation. *)
Class ImageBuilder (T : Type) := {
  BuildName : T -> string -> T;
  AddEnv : T -> gmap string string -> T * option applyError;
  AddExposedPorts : T -> list string -> T * option applyError;
  AddLabels : T -> gmap string string -> T * option applyError;
  AddVolumes : T -> list string -> T * option applyError;
  AddFiles : T -> string -> list string -> string -> option Builder.User
             -> T * option applyError;
  CopyFiles : T -> string -> list string -> string -> option Builder.User
              -> T * option applyError;
  CopyFilesFromImage : T -> string -> list string -> string -> option Builder.User
                       -> T * option applyError;
  FromImage : T -> string -> T * option applyError;
  Run : T -> list string -> gmap string string -> T * option applyError;
  SetAuthor : T -> string -> T * option applyError;
  SetCmd : T -> list string -> T * option applyError;
  SetEntrypoint : T -> list string -> T * option applyError;
  SetStopSignal : T -> string -> T * option applyError;
  SetUser : T -> string -> T * option applyError;
  SetWorkingDir : T -> string -> T * option applyError
}.

Section Apply.
Context {T : Type} `{ImageBuilder T}.

(** The loop of the LABEL operation over the entries of its map: the
    author is set from the key "maintainer", which is then deleted. *)
Fixpoint promoteMaintainer (entries : list (string * string)) (m : gmap string string)
    (b : T) : gmap string string * T * option applyError :=
  match entries with
  | [] => (m, b, None)
  | (k, v) :: entries' =>
      if decide (k = "maintainer") then
        match SetAuthor b v with
        | (b, Some e) => (m, b, Some e)
        | (b, None) => promoteMaintainer entries' (delete k m) b
        end
      else promoteMaintainer entries' m b
  end.

Definition applyLabels (m : gmap string string) (b : T) : T * option applyError :=
  match promoteMaintainer (map_to_list m) m b with
  | (m, b, Some e) => (b, Some e)
  | (m, b, None) => if decide (0 < size m) then AddLabels b m else (b, None)
  end.

(** One operation, on the stage counter [imageCount] and the builder. *)
Definition applyOp (op : Op) (st : nat * T) : nat * T * option applyError :=
  let '(imageCount, b) := st in
  match op with
  | OpFromImage image v =>
      match FromImage b image with
      | (b, Some e) => (imageCount, b, Some e)
      | (b, None) =>
          let b := BuildName b (pretty imageCount) in
          let b := if decide (length v = 3) then BuildName b (default "" (v !! 2)) else b in
          (S imageCount, b, None)
      end
  | OpCopyFiles dir srcs dest usr =>
      let '(b, e) := CopyFiles b dir srcs dest usr in (imageCount, b, e)
  | OpCopyFilesFromImage from srcs dest usr =>
      let '(b, e) := CopyFilesFromImage b from srcs dest usr in (imageCount, b, e)
  | OpAddFiles from dir srcs dest usr =>
      if decide (from = "") then
        let '(b, e) := AddFiles b dir srcs dest usr in (imageCount, b, e)
      else (imageCount, b, Some AddFromUnsupported)
  | OpLabels m => let '(b, e) := applyLabels m b in (imageCount, b, e)
  | OpSetAuthor author => let '(b, e) := SetAuthor b author in (imageCount, b, e)
  | OpAddEnv m => let '(b, e) := AddEnv b m in (imageCount, b, e)
  | OpSetUser u => let '(b, e) := SetUser b u in (imageCount, b, e)
  | OpSetWorkingDir dir => let '(b, e) := SetWorkingDir b dir in (imageCount, b, e)
  | OpRun v addEnv => let '(b, e) := Run b v addEnv in (imageCount, b, e)
  | OpAddExposedPorts v => let '(b, e) := AddExposedPorts b v in (imageCount, b, e)
  | OpAddVolumes v => let '(b, e) := AddVolumes b v in (imageCount, b, e)
  | OpSetEntrypoint v => let '(b, e) := SetEntrypoint b v in (imageCount, b, e)
  | OpSetCmd v => let '(b, e) := SetCmd b v in (imageCount, b, e)
  | OpSetStopSignal sig => let '(b, e) := SetStopSignal b sig in (imageCount, b, e)
  end.

(** The loop of [Apply]: it breaks at the first error. *)
Fixpoint applyOps (l : list Op) (st : nat * T) : nat * T * option applyError :=
  match l with
  | [] => (st, None)
  | op :: l' =>
      match applyOp op st with
      | (st, Some e) => (st, Some e)
      | (st, None) => applyOps l' st
      end
  end.

(** [Apply]: the operations of the loaded Dockerfile [s], from the stage
    counter [imageCount] it holds; the error is wrapped. *)
Definition Apply (s : DockerfileBuilder) (imageCount : nat) (b : T)
    : nat * T * option applyError :=
  let '(st, e) := applyOps (ops s) (imageCount, b) in
  (st, ApplyDockerfile <$> e).

End Apply.

(** A builder that records the calls made on it, and fails on request *)
Record Recorder := mkRecorder {
  calls : list string;
  failOn : string
}.

Definition record (name : string) (r : Recorder) : Recorder * option applyError :=
  (mkRecorder (calls r ++ [name]) (failOn r),
   if decide (failOn r = name) then Some (BuilderError name) else None).

#[export] Instance recorderBuilder : ImageBuilder Recorder := {|
  BuildName r name := mkRecorder (calls r ++ ["BuildName " +:+ name]) (failOn r);
  AddEnv r m := record "AddEnv" r;
  AddExposedPorts r v := record "AddExposedPorts" r;
  AddLabels r m := record "AddLabels" r;
  AddVolumes r v := record "AddVolumes" r;
  AddFiles r dir srcs dest usr := record "AddFiles" r;
  CopyFiles r dir srcs dest usr := record "CopyFiles" r;
  CopyFilesFromImage r from srcs dest usr := record "CopyFilesFromImage" r;
  FromImage r image := record ("FromImage " +:+ image) r;
  Run r v addEnv := record "Run" r;
  SetAuthor r author := record ("SetAuthor " +:+ author) r;
  SetCmd r v := record "SetCmd" r;
  SetEntrypoint r v := record "SetEntrypoint" r;
  SetStopSignal r sig := record "SetStopSignal" r;
  SetUser r u := record "SetUser" r;
  SetWorkingDir r dir := record "SetWorkingDir" r
|}.

Definition isFrom (op : Op) : bool :=
  match op with OpFromImage _ _ => true | _ => false end.

(** *** More sample instructions *)

(** [FROM alpine:3.7 as build] *)
Definition fromAlpine : Node :=
  mkNode "from" "FROM alpine:3.7 as build" [] ["alpine:3.7"; "as"; "build"] 1.

(** [COPY --from=build /src/app /usr/bin/app] *)
Definition copyFromBuild : Node :=
  mkNode "copy" "COPY --from=build /src/app /usr/bin/app" ["--from=build"]
         ["/src/app"; "/usr/bin/app"] 8.

(** [ENV VERSION 2.0] *)
Definition envVersion : Node := mkNode "env" "ENV VERSION 2.0" [] ["VERSION"; "2.0"] 9.

(** [HEALTHCHECK NONE], an instruction [readNode] does not know *)
Definition healthcheck : Node := mkNode "healthcheck" "HEALTHCHECK NONE" [] ["NONE"] 10.

(** A recorder that fails in no call, and one that fails in [Run] *)
Definition recorder : Recorder := mkRecorder [] "".

Definition recorderFailRun : Recorder := mkRecorder [] "Run".

(** The operations of a two stage Dockerfile *)
Definition fromGolang : Op := OpFromImage "golang" ["golang"; "as"; "build"].

Definition runMake : Op := OpRun ["/bin/sh"; "-c"; "make"] ∅.

Definition twoStages : DockerfileBuilder :=
  mkBuilder [fromGolang; runMake; OpFromImage "alpine" ["alpine"]; OpSetCmd ["/app"]]
            "/ctx" ∅ ∅ ∅ ∅ ["/bin/sh"; "-c"] [] 2 [].

End Dockerfile.

(** ** The lock file wrapper ([pkg/lock/lockfile.go]) *)

Module Lock.

(** A Go error as the wrapper looks at it: its text, whether its dynamic
    type is a [lockfile.TemporaryError] (and what [Temporary()] says), and
    whether [os.IsNotExist] holds of it. *)
Record error := mkError {
  Message : string;
  Temporary : option bool;
  NotExist : bool
}.

(** [errors.Wrap(e, msg)] and [errors.New(msg)] give a plain error. *)
Definition Wrap (e : error) (msg : string) : error :=
  mkError (msg +:+ ": " +:+ Message e) None false.

Definition New (msg : string) : error := mkError msg None false.

Definition wrapOpt (e : option error) (msg : string) : option error :=
  (fun e => Wrap e msg) <$> e.

(** What the file system and the other processes answer: [os.MkdirAll],
    the n-th [lockfile.TryLock()] of a call, the n-th [awaitFileChange],
    and [lockfile.Unlock()]. *)
Record Env := mkEnv {
  MkdirAll : option error;
  FsTryLock : nat -> option error;
  AwaitFileChange : nat -> option error;
  FsUnlock : option error
}.

(** A call returns, blocks on the in-process mutex, or is still retrying
    when the fuel of the model is used up. *)
Inductive called (A : Type) :=
| Returns (a : A)
| Blocks
| Retrying.
Arguments Returns {A} a.
Arguments Blocks {A}.
Arguments Retrying {A}.

(** Modelled from the spec: the package functions [lock(file)] and
    [unlock(file)] are not part of the sources.  "In-process, a per-file
    mutex guards the lockfile": the state is the set of files whose mutex is
    held; [lock] waits while the file is in it. *)
Definition Held := gset string.

Definition lock (file : string) (held : Held) : called Held :=
  if decide (file ∈ held) then Blocks else Returns ({[file]} ∪ held).

Definition unlock (file : string) (held : Held) : Held := held ∖ {[file]}.

Record Lockfile := mkLockfile { file : string }.

Definition mkdirs (env : Env) : option error :=
  wrapOpt (MkdirAll env) "mk lock parent dir".

(** The deferred function of [TryLock] and [Lock] *)
Definition onReturn (l : Lockfile) (msg : string) (err : option error) (held : Held)
    : Held * option error :=
  match err with
  | Some e => (unlock (file l) held, Some (Wrap e msg))
  | None => (held, None)
  end.

Definition TryLock (l : Lockfile) (env : Env) (held : Held) : called (Held * option error) :=
  match lock (file l) held with
  | Returns held =>
      let err :=
        match mkdirs env with
        | Some e => Some e
        | None => FsTryLock env 0
        end in
      Returns (onReturn l "trylock" err held)
  | Blocks => Blocks
  | Retrying => Retrying
  end.

(** The [for] loop of [Lock], at its [i]-th round *)
Fixpoint lockLoop (env : Env) (fuel i : nat) : called (option error) :=
  match fuel with
  | 0 => Retrying
  | S fuel' =>
      match FsTryLock env i with
      | None => Returns None
      | Some e =>
          match Temporary e with
          | Some true =>
              match AwaitFileChange env i with
              | Some e' =>
                  if NotExist e' then lockLoop env fuel' (S i) else Returns (Some e')
              | None => lockLoop env fuel' (S i)
              end
          | _ => Returns (Some e)
          end
      end
  end.

Definition Lock (l : Lockfile) (env : Env) (fuel : nat) (held : Held)
    : called (Held * option error) :=
  match lock (file l) held with
  | Returns held =>
      match mkdirs env with
      | Some e => Returns (onReturn l "lock" (Some e) held)
      | None =>
          match lockLoop env fuel 0 with
          | Returns err => Returns (onReturn l "lock" err held)
          | Blocks => Blocks
          | Retrying => Retrying
          end
      end
  | Blocks => Blocks
  | Retrying => Retrying
  end.

Definition Unlock (l : Lockfile) (env : Env) (held : Held) : Held * option error :=
  let err := (fun e => New ("unlock: " +:+ Message e)) <$> FsUnlock env in
  (unlock (file l) held, err).

(** The loop of [Lock] returns as soon as a round ends it. *)
Definition endsAt (env : Env) (i : nat) : Prop :=
  match FsTryLock env i with
  | None => True
  | Some e =>
      match Temporary e with
      | Some true =>
          match AwaitFileChange env i with
          | Some e' => NotExist e' = false
          | None => False
          end
      | _ => True
      end
  end.

(** *** Sample environments *)

Definition lockFile : Lockfile := mkLockfile "/store/lock".

Definition busy : error := mkError "Locked by other process" (Some true) false.

Definition denied : error := mkError "permission denied" None false.

(** The directory cannot be created *)
Definition envNoDir : Env := mkEnv (Some denied) (fun _ => None) (fun _ => None) None.

(** Another process holds the lock file for two rounds, then the lock file
    cannot be written *)
Definition envBusyThenDenied : Env :=
  mkEnv None (fun i => if decide (i < 2) then Some busy else Some denied)
        (fun _ => None) (Some denied).

(** No other process holds the lock file *)
Definition envFree : Env := mkEnv None (fun _ => None) (fun _ => None) None.

(** Another process holds the lock file for two rounds *)
Definition envBusyThenFree : Env :=
  mkEnv None (fun i => if decide (i < 2) then Some busy else None) (fun _ => None) None.

(** Another process holds the lock file and never releases it *)
Definition envBusy : Env := mkEnv None (fun _ => Some busy) (fun _ => None) None.

End Lock.

(** ** CNI arguments ([net/net.go]) *)

Module Net.
Import GoStrings.

Definition semicolon : ascii := ";"%char.
Definition equals : ascii := "="%char.

(** [errors.Errorf("invalid CNI_ARGS pair %q", pair)] *)
Inductive error :=
| InvalidPair (pair : string).

(** The loop of [parseCniArgs] over the pairs, with the [result] built so
    far *)
Fixpoint parsePairs (pairs : list string) (result : list (string * string))
    : error + list (string * string) :=
  match pairs with
  | [] => inr result
  | arg :: pairs' =>
      match Split equals arg with
      | [k; v] =>
          if decide (k = "" ∨ v = "") then inl (InvalidPair arg)
          else parsePairs pairs' (result ++ [(k, v)])
      | _ => inl (InvalidPair arg)
      end
  end.

Definition parseCniArgs (args : string) : error + list (string * string) :=
  parsePairs (Split semicolon args) [].

(** A pair as it is written in [CNI_ARGS] *)
Definition pairString (kv : string * string) : string :=
  fst kv +:+ String equals (snd kv).

(** What [parseCniArgs] accepts as a key or a value *)
Definition wordOk (w : string) : Prop :=
  w ≠ "" ∧ has_byte equals w = false ∧ has_byte semicolon w = false.

End Net.

(** * Properties *)

Module GoStringsFacts.
Import GoStrings.

Lemma trimRightByte_idem c s : trimRightByte c (trimRightByte c s) = trimRightByte c s.
Proof.
  induction s as [|a s IH]; simpl; [done|].
  destruct (trimRightByte c s) as [|a' r] eqn:E.
  - destruct (decide (a = c)); simpl; [done|].
    by destruct (decide (a = c)).
  - simpl in *. by rewrite IH.
Qed.

Lemma trimLeftByte_idem c s : trimLeftByte c (trimLeftByte c s) = trimLeftByte c s.
Proof.
  induction s as [|a s IH]; simpl; [done|].
  destruct (decide (a = c)) as [->|Hne]; [done|].
  simpl. by destruct (decide (a = c)).
Qed.

Lemma trim_left_right_comm c s :
  trimRightByte c (trimLeftByte c s) = trimLeftByte c (trimRightByte c s).
Proof.
  induction s as [|a s IH]; simpl; [done|].
  destruct (decide (a = c)) as [->|Hne].
  - rewrite IH. destruct (trimRightByte c s) eqn:E; simpl.
    + by destruct (decide (c = c)).
    + by destruct (decide (c = c)).
  - simpl. destruct (trimRightByte c s) eqn:E; simpl.
    + destruct (decide (a = c)); [done|]. simpl. by destruct (decide (a = c)).
    + by destruct (decide (a = c)).
Qed.

Lemma Trim_idem c s : Trim c (Trim c s) = Trim c s.
Proof.
  unfold Trim.
  rewrite <- (trim_left_right_comm c (trimLeftByte c (trimRightByte c s))).
  rewrite trimLeftByte_idem, trim_left_right_comm, trimRightByte_idem. done.
Qed.

Lemma has_byte_trimRightByte d c s :
  has_byte d s = false -> has_byte d (trimRightByte c s) = false.
Proof.
  induction s as [|a s IH]; simpl; [done|].
  destruct (decide (a = d)); [done|]. intros Hs.
  destruct (trimRightByte c s) eqn:E; simpl.
  - destruct (decide (a = c)); simpl; [done|]. by destruct (decide (a = d)).
  - destruct (decide (a = d)); [done|]. by apply IH.
Qed.

Lemma has_byte_trimLeftByte d c s :
  has_byte d s = false -> has_byte d (trimLeftByte c s) = false.
Proof.
  induction s as [|a s IH]; simpl; [done|].
  destruct (decide (a = d)); [done|]. intros Hs.
  destruct (decide (a = c)); [by apply IH|].
  simpl. by destruct (decide (a = d)).
Qed.

Lemma has_byte_Trim d c s : has_byte d s = false -> has_byte d (Trim c s) = false.
Proof. intros. by apply has_byte_trimLeftByte, has_byte_trimRightByte. Qed.

Lemma Split_nonempty sep s : Split sep s ≠ [].
Proof.
  destruct s as [|a s]; simpl; [done|].
  destruct (decide (a = sep)); [done|]. by destruct (Split sep s).
Qed.

Lemma Split_has_byte sep s : Forall (fun w => has_byte sep w = false) (Split sep s).
Proof.
  induction s as [|a s IH]; simpl; [by repeat constructor|].
  destruct (decide (a = sep)) as [->|Hne]; [by constructor|].
  destruct (Split sep s) as [|w ws] eqn:E; [by apply Split_nonempty in E|].
  inversion IH; subst. constructor; [|done].
  simpl. by destruct (decide (a = sep)).
Qed.

Lemma Split_no_sep sep w : has_byte sep w = false -> Split sep w = [w].
Proof.
  induction w as [|a w IH]; simpl; [done|].
  destruct (decide (a = sep)); [done|]. intros Hw. by rewrite IH.
Qed.

Lemma Split_app_sep sep w s :
  has_byte sep w = false -> Split sep (w +:+ String sep s) = w :: Split sep s.
Proof.
  induction w as [|a w IH]; simpl.
  - intros _. by destruct (decide (sep = sep)).
  - destruct (decide (a = sep)); [done|]. intros Hw.
    change (String.app w (String sep s)) with (w +:+ String sep s).
    by rewrite IH.
Qed.

Lemma Split_Join sep l :
  l ≠ [] -> Forall (fun w => has_byte sep w = false) l -> Split sep (Join sep l) = l.
Proof.
  induction l as [|w l IH]; [done|]. intros _ Hl.
  inversion Hl as [|? ? Hw Hl']; subst.
  destruct l as [|w' l]; simpl.
  - by apply Split_no_sep.
  - rewrite Split_app_sep by done. f_equal. by apply IH.
Qed.

Lemma Join_empty sep l : Join sep l = "" -> l = [] ∨ l = [""].
Proof.
  destruct l as [|w [|w' l]]; simpl; [by left|by right; subst|].
  destruct w; simpl; discriminate.
Qed.

End GoStringsFacts.

Module BuilderFacts.
Import GoStrings GoStringsFacts Builder.


Lemma foldl_insert_set (f : string -> string) (l : list string) (X : gset string) :
  foldl (fun acc p => {[f p]} ∪ acc) X l = list_to_set (f <$> l) ∪ X.
Proof.
  revert X. induction l as [|p l IH]; intros X; simpl; [set_solver|].
  rewrite IH. set_solver.
Qed.

Lemma exposedSet_eq ann ports :
  exposedSet ann ports =
    list_to_set (Trim space <$> ports)
    ∪ (if decide (ann = "") then ∅ else list_to_set (Trim space <$> Split comma ann)).
Proof.
  unfold exposedSet. rewrite foldl_insert_set. f_equal.
  destruct (decide (ann = "")); [done|].
  rewrite foldl_insert_set. set_solver.
Qed.

Lemma elem_of_exposedSet ann ports x :
  x ∈ exposedSet ann ports <->
    (ann ≠ "" ∧ ∃ p, p ∈ Split comma ann ∧ x = Trim space p)
    ∨ (∃ p, p ∈ ports ∧ x = Trim space p).
Proof.
  rewrite exposedSet_eq, elem_of_union, elem_of_list_to_set, list_elem_of_fmap.
  destruct (decide (ann = "")) as [->|Hne].
  - rewrite elem_of_empty. naive_solver.
  - rewrite elem_of_list_to_set, list_elem_of_fmap. naive_solver.
Qed.

Lemma sortedKeys_Permutation X : sortedKeys X ≡ₚ elements X.
Proof. apply merge_sort_Permutation. Qed.

Lemma elem_of_sortedKeys X x : x ∈ sortedKeys X <-> x ∈ X.
Proof. by rewrite sortedKeys_Permutation, elem_of_elements. Qed.

Lemma sortedKeys_NoDup X : NoDup (sortedKeys X).
Proof. rewrite sortedKeys_Permutation. apply NoDup_elements. Qed.

Lemma sortedKeys_sorted X : StronglySorted String.le (sortedKeys X).
Proof. apply StronglySorted_merge_sort; apply _. Qed.

Lemma list_to_set_sortedKeys X : list_to_set (sortedKeys X) = X.
Proof. apply set_eq. intros x. by rewrite elem_of_list_to_set, elem_of_sortedKeys. Qed.

Lemma sortedKeys_nil X : sortedKeys X = [] -> X = ∅.
Proof.
  intros E. apply set_eq. intros x.
  rewrite <- elem_of_sortedKeys, E. set_solver.
Qed.

Lemma size_pos_nonempty (X : gset string) : 0 < size X <-> X ≠ ∅.
Proof.
  split.
  - intros Hs ->. rewrite size_empty in Hs. lia.
  - intros Hne. destruct (decide (size X = 0)) as [E|]; [|lia].
    by apply size_empty_inv, leibniz_equiv in E.
Qed.

Lemma AddExposedPorts_empty ports b :
  exposedSet (exposedPortsAnn b) ports = ∅ -> AddExposedPorts ports b = b.
Proof.
  intros E. unfold AddExposedPorts. fold (exposedPortsAnn b). rewrite E.
  rewrite size_empty. by destruct (decide (0 < 0)); [lia|].
Qed.

Lemma AddExposedPorts_nonempty ports b :
  exposedSet (exposedPortsAnn b) ports ≠ ∅ ->
  AddExposedPorts ports b =
    with_generator
      (AddAnnotation exposedPortsKey
         (Join comma (sortedKeys (exposedSet (exposedPortsAnn b) ports))) (generator b)) b.
Proof.
  intros E. unfold AddExposedPorts. fold (exposedPortsAnn b).
  apply size_pos_nonempty in E. by destruct (decide _).
Qed.

Lemma exposedPortsAnn_AddAnnotation v b :
  exposedPortsAnn (with_generator (AddAnnotation exposedPortsKey v (generator b)) b) = v.
Proof. unfold exposedPortsAnn. simpl. by rewrite lookup_insert_eq. Qed.

Lemma AddAnnotation_twice k v b :
  with_generator
    (AddAnnotation k v (generator (with_generator (AddAnnotation k v (generator b)) b)))
    (with_generator (AddAnnotation k v (generator b)) b)
  = with_generator (AddAnnotation k v (generator b)) b.
Proof.
  unfold with_generator, AddAnnotation, with_Annotations. simpl.
  by rewrite insert_insert_eq.
Qed.

(** Every key of [exposed] is trimmed, and free of commas when the ports are. *)
Lemma exposedSet_trimmed ann ports x :
  x ∈ exposedSet ann ports -> Trim space x = x.
Proof.
  rewrite elem_of_exposedSet. intros [(_ & p & _ & ->)|(p & _ & ->)]; apply Trim_idem.
Qed.

Lemma exposedSet_no_comma ann ports x :
  Forall (fun p => has_byte comma p = false) ports ->
  x ∈ exposedSet ann ports -> has_byte comma x = false.
Proof.
  intros Hp. rewrite elem_of_exposedSet. intros [(_ & p & Hin & ->)|(p & Hin & ->)].
  - apply has_byte_Trim. pose proof (Split_has_byte comma ann) as Hs.
    rewrite Forall_forall in Hs. by apply Hs.
  - apply has_byte_Trim. rewrite Forall_forall in Hp. by apply Hp.
Qed.

Lemma fmap_Trim_id (l : list string) :
  (∀ x, x ∈ l -> Trim space x = x) -> Trim space <$> l = l.
Proof.
  induction l as [|x l IH]; intros Hl; simpl; [done|].
  rewrite Hl by set_solver. f_equal. apply IH. intros. apply Hl. set_solver.
Qed.

Lemma AddExposedPorts_idempotent ports b :
  Forall (fun p => has_byte comma p = false) ports ->
  AddExposedPorts ports (AddExposedPorts ports b) = AddExposedPorts ports b.
Proof.
  intros Hp.
  set (X := exposedSet (exposedPortsAnn b) ports).
  destruct (decide (X = ∅)) as [E|Hne].
  { rewrite (AddExposedPorts_empty ports b E). by apply AddExposedPorts_empty. }
  rewrite (AddExposedPorts_nonempty ports b Hne). fold X.
  set (j := Join comma (sortedKeys X)).
  set (b1 := with_generator _ b).
  assert (Hann : exposedPortsAnn b1 = j) by apply exposedPortsAnn_AddAnnotation.
  assert (HP : list_to_set (Trim space <$> ports) ⊆ X).
  { unfold X. rewrite exposedSet_eq. set_solver. }
  assert (HX : exposedSet j ports = X ∨ exposedSet j ports = ∅).
  { rewrite exposedSet_eq. destruct (decide (j = "")) as [Ej|Ej].
    - apply Join_empty in Ej as [Ej|Ej]; [by apply sortedKeys_nil in Ej|].
      assert (X = {[""]}) as EX.
      { rewrite <- (list_to_set_sortedKeys X), Ej. set_solver. }
      destruct (decide (list_to_set (Trim space <$> ports) = (∅ : gset string))) as [E0|E0].
      + right. set_solver.
      + left. rewrite EX in *. apply set_eq. intros x. split; [set_solver|].
        intros ->%elem_of_singleton. apply elem_of_union_l.
        destruct (set_choose_L _ E0) as [y Hy]. 
        assert (y = "") as <- by set_solver. done.
    - left. unfold j. rewrite Split_Join.
      + rewrite (fmap_Trim_id (sortedKeys X)).
        * rewrite list_to_set_sortedKeys. set_solver.
        * intros x Hx%elem_of_sortedKeys. by eapply exposedSet_trimmed.
      + intros E0. by apply sortedKeys_nil in E0.
      + apply Forall_forall. intros x Hx%elem_of_sortedKeys.
        by eapply exposedSet_no_comma. }
  destruct HX as [HX|HX].
  - rewrite AddExposedPorts_nonempty; rewrite Hann, HX; [|done].
    apply AddAnnotation_twice.
  - apply AddExposedPorts_empty. by rewrite Hann.
Qed.

Lemma AddExposedPorts_order ports ports' b :
  (∀ p, p ∈ ports <-> p ∈ ports') ->
  AddExposedPorts ports' b = AddExposedPorts ports b.
Proof.
  intros Hp. unfold AddExposedPorts.
  assert (E : ∀ ann, exposedSet ann ports' = exposedSet ann ports).
  { intros ann. apply set_eq. intros x. rewrite !elem_of_exposedSet. naive_solver. }
  by rewrite E.
Qed.

End BuilderFacts.

Module SpecFacts.
Import GoStrings GoStringsFacts Builder.


Lemma pretty_N_char_digit x : is_digit (pretty_N_char x) = true.
Proof. unfold pretty_N_char. by repeat case_match. Qed.

Lemma pretty_N_go_digits x s :
  all_digits s = true -> all_digits (pretty_N_go x s) = true.
Proof.
  revert s. induction (N.lt_wf_0 x) as [x _ IH]; intros s Hs.
  assert (x = 0 ∨ 0 < x)%N as [->|?] by lia; [by rewrite pretty_N_go_0|].
  rewrite pretty_N_go_step by done. apply IH; [by apply N.div_lt|].
  cbn [all_digits]. by rewrite pretty_N_char_digit, Hs.
Qed.

Lemma pretty_N_go_length x s :
  (String.length s <= String.length (pretty_N_go x s))%nat.
Proof.
  revert s. induction (N.lt_wf_0 x) as [x _ IH]; intros s.
  assert (x = 0 ∨ 0 < x)%N as [->|?] by lia; [by rewrite pretty_N_go_0|].
  rewrite pretty_N_go_step by done.
  etrans; [|by eapply IH, N.div_lt]. simpl. lia.
Qed.

Lemma pretty_N_digits (x : N) : all_digits (pretty x) = true ∧ pretty x ≠ "".
Proof.
  unfold pretty, pretty_N. destruct (decide (x = 0%N)) as [->|Hx]; [done|].
  split; [by apply pretty_N_go_digits|].
  rewrite pretty_N_go_step by lia. intros E.
  pose proof (pretty_N_go_length (x `div` 10) (String (pretty_N_char (x `mod` 10)) "")) as Hl.
  rewrite E in Hl. simpl in Hl. lia.
Qed.

Lemma app_String c s t : String c s +:+ t = String c (s +:+ t).
Proof. reflexivity. Qed.

Lemma app_empty t : "" +:+ t = t.
Proof. reflexivity. Qed.

Lemma digits_colon_zero s1 s2 :
  all_digits s1 = true -> s1 ≠ "" -> s1 +:+ ":" +:+ s2 = "0:0" -> s1 = "0" ∧ s2 = "0".
Proof.
  intros Hd Hne E. destruct s1 as [|c s1]; [done|].
  rewrite app_String in E. injection E as -> E. destruct s1 as [|c' s1].
  - rewrite app_empty, app_String, app_empty in E. by injection E as ->.
  - rewrite app_String in E. injection E as -> E. simpl in Hd. discriminate.
Qed.

(** The resolved user prints as "0:0" exactly when both ids are 0. *)
Lemma User_String_root ids :
  User_String (UserIds_User ids) = "0:0" <-> Uid ids = 0%N ∧ Gid ids = 0%N.
Proof.
  destruct ids as [u g]. unfold User_String, UserIds_User. simpl. split.
  - intros E. destruct (pretty_N_digits u) as [Hd Hne].
    apply digits_colon_zero in E as [Eu Eg]; [|done..].
    split; apply (inj pretty); done.
  - by intros [-> ->].
Qed.

Lemma applyEntrypoint_args b :
  ProcessArgs (generator (applyEntrypoint b)) =
    match proot b with
    | Some p =>
        ["/dev/proot/proot"; "--kill-on-exit"; "-n"]
          ++ (if decide (User_String (user b) = "0:0") then ["-0"]
              else ["-i"; User_String (user b)])
          ++ portArgs (Ports p) ++ (default [] (entrypoint b) ++ default [] (cmd b))
    | None => default [] (entrypoint b) ++ default [] (cmd b)
    end.
Proof.
  unfold applyEntrypoint. simpl.
  assert (E : match entrypoint b, cmd b with
              | Some e, Some c => e ++ c
              | Some e, None => e
              | None, Some c => c
              | None, None => []
              end = default [] (entrypoint b) ++ default [] (cmd b)).
  { destruct (entrypoint b), (cmd b); simpl; by rewrite ?app_nil_r. }
  rewrite E. destruct (proot b); [|done].
  destruct (decide _); by rewrite <- ?app_assoc.
Qed.

Lemma replaceEnv_elem name env l l' :
  replaceEnv name env l = Some l' -> env ∈ l'.
Proof.
  revert l'. induction l as [|e l IH]; intros l'; simpl; [done|].
  destruct (HasPrefix e (name +:+ "=")).
  - intros [= <-]. set_solver.
  - destruct (replaceEnv name env l) eqn:E; simpl; [|done].
    intros [= <-]. apply list_elem_of_further. by apply IH.
Qed.

Lemma replaceEnv_keeps name env l l' x :
  replaceEnv name env l = Some l' -> x ∈ l -> HasPrefix x (name +:+ "=") = false -> x ∈ l'.
Proof.
  revert l'. induction l as [|e l IH]; intros l'; simpl; [done|].
  destruct (HasPrefix e (name +:+ "=")) eqn:Ep.
  - intros [= <-] Hx Hnp. apply elem_of_cons in Hx as [->|Hx]; [congruence|set_solver].
  - destruct (replaceEnv name env l) eqn:E; simpl; [|done].
    intros [= <-] Hx Hnp. apply elem_of_cons in Hx as [->|Hx]; [set_solver|].
    apply list_elem_of_further. by apply IH.
Qed.

Lemma AddProcessEnv_elem name value g :
  name ≠ "" -> (name +:+ "=" +:+ value) ∈ ProcessEnv (AddProcessEnv name value g).
Proof.
  intros Hn. unfold AddProcessEnv. destruct (decide (name = "")); [done|].
  destruct (replaceEnv _ _ _) eqn:E; simpl.
  - by eapply replaceEnv_elem.
  - set_solver.
Qed.

Lemma AddProcessEnv_keeps name value g x :
  x ∈ ProcessEnv g -> HasPrefix x (name +:+ "=") = false ->
  x ∈ ProcessEnv (AddProcessEnv name value g).
Proof.
  intros Hx Hp. unfold AddProcessEnv. destruct (decide (name = "")); [done|].
  destruct (replaceEnv _ _ _) eqn:E; simpl.
  - by eapply replaceEnv_keeps.
  - set_solver.
Qed.


Lemma ToUpper_idem s : ToUpper (ToUpper s) = ToUpper s.
Proof.
  induction s as [|a s IH]; simpl; [done|]. f_equal; [|done].
  unfold upper_byte.
  destruct ((97 <=? nat_of_ascii a)%nat && (nat_of_ascii a <=? 122)%nat) eqn:E.
  - apply andb_true_iff in E as [E1%Nat.leb_le E2%Nat.leb_le].
    rewrite nat_ascii_embedding by lia.
    destruct (97 <=? nat_of_ascii a - 32)%nat eqn:E3; [|done].
    apply Nat.leb_le in E3. lia.
  - by rewrite E.
Qed.

Lemma addCap_has c l : hasCapability (ToUpper c) (addCap (ToUpper c) l).
Proof.
  unfold addCap. destruct (List.existsb _ l) eqn:E.
  - apply existsb_exists in E as (x & Hx & Hb).
    exists x. split; [by apply list_elem_of_In|]. by apply bool_decide_eq_true in Hb.
  - exists (ToUpper c). split; [set_solver|apply ToUpper_idem].
Qed.

Lemma Mounts_AddProcessEnv n v g : Mounts (AddProcessEnv n v g) = Mounts g.
Proof. unfold AddProcessEnv. by repeat case_match. Qed.

Lemma Mounts_AddProcessCapability c g : Mounts (AddProcessCapability c g) = Mounts g.
Proof. unfold AddProcessCapability. by case_match. Qed.

Lemma ProcessEnv_AddProcessCapability c g :
  ProcessEnv (AddProcessCapability c g) = ProcessEnv g.
Proof. unfold AddProcessCapability. by case_match. Qed.

Lemma SetPRootPath_unfold path b :
  generator (SetPRootPath path b) =
    AddProcessCapability ("CAP_" +:+ CAP_SYS_PTRACE_String)
      (AddProcessEnv "PROOT_NO_SECCOMP" "1"
         (AddProcessEnv "PROOT_TMP_DIR" "/dev/proot"
            (AddBindMount path "/dev/proot/proot" ["bind"; "ro"]
               (AddTmpfsMount "/dev/proot" ["exec"; "mode=755"; "size=32256k"]
                  (generator b))))).
Proof. reflexivity. Qed.

Lemma SetPRootPath_generator path b :
  let g := generator (SetPRootPath path b) in
  mkMount "/dev/proot" "tmpfs" "tmpfs" ["exec"; "mode=755"; "size=32256k"] ∈ Mounts g
  ∧ mkMount "/dev/proot/proot" "bind" path ["bind"; "ro"] ∈ Mounts g
  ∧ "PROOT_TMP_DIR=/dev/proot" ∈ ProcessEnv g
  ∧ "PROOT_NO_SECCOMP=1" ∈ ProcessEnv g
  ∧ hasCapability "CAP_SYS_PTRACE" (Bounding (ProcessCapabilities g))
  ∧ hasCapability "CAP_SYS_PTRACE" (Effective (ProcessCapabilities g))
  ∧ hasCapability "CAP_SYS_PTRACE" (Inheritable (ProcessCapabilities g))
  ∧ hasCapability "CAP_SYS_PTRACE" (Permitted (ProcessCapabilities g))
  ∧ hasCapability "CAP_SYS_PTRACE" (Ambient (ProcessCapabilities g)).
Proof.
  intros g. unfold g. rewrite SetPRootPath_unfold.
  rewrite Mounts_AddProcessCapability, !Mounts_AddProcessEnv,
    ProcessEnv_AddProcessCapability.
  split; [unfold AddBindMount, AddTmpfsMount; simpl; set_solver|].
  split; [unfold AddBindMount, AddTmpfsMount; simpl; set_solver|].
  split; [apply AddProcessEnv_keeps;
          [by apply (AddProcessEnv_elem "PROOT_TMP_DIR" "/dev/proot")|done]|].
  split; [by apply (AddProcessEnv_elem "PROOT_NO_SECCOMP" "1")|].
  repeat split; apply (addCap_has "CAP_sys_ptrace").
Qed.

End SpecFacts.

Module SpecClaims.
Import GoStrings GoStringsFacts Builder BuilderFacts SpecFacts.

(** C9 (amended).  [AddExposedPorts] merges the pieces of the existing
    annotation and the given ports, each trimmed of leading and trailing
    spaces, into one set; when the set is empty the builder is unchanged,
    otherwise the annotation becomes the comma-joined list of the set's
    members, sorted by bytes and free of duplicates.  The result depends
    only on the set of ports given (not on their order), and applying the
    same ports twice changes nothing provided no port string contains a
    comma. *)
Theorem AddExposedPorts_merges (ports : list string) (b : SpecBuilder) :
  let X := exposedSet (exposedPortsAnn b) ports in
  (∀ x, x ∈ X <->
        (exposedPortsAnn b ≠ "" ∧
         ∃ p, p ∈ Split comma (exposedPortsAnn b) ∧ x = Trim space p)
        ∨ (∃ p, p ∈ ports ∧ x = Trim space p))
  ∧ (X = ∅ -> AddExposedPorts ports b = b)
  ∧ (X ≠ ∅ ->
     ∃ l, exposedPortsAnn (AddExposedPorts ports b) = Join comma l
          ∧ StronglySorted String.le l ∧ NoDup l ∧ ∀ x, x ∈ l <-> x ∈ X)
  ∧ (Forall (fun p => has_byte comma p = false) ports ->
     AddExposedPorts ports (AddExposedPorts ports b) = AddExposedPorts ports b)
  ∧ (∀ ports', (∀ p, p ∈ ports <-> p ∈ ports') ->
     AddExposedPorts ports' b = AddExposedPorts ports b).
Proof.
  intros X. split; [intros x; apply elem_of_exposedSet|].
  split; [apply AddExposedPorts_empty|].
  split.
  - intros Hne. exists (sortedKeys X).
    rewrite (AddExposedPorts_nonempty ports b Hne), exposedPortsAnn_AddAnnotation.
    split; [done|]. split; [apply sortedKeys_sorted|].
    split; [apply sortedKeys_NoDup|apply elem_of_sortedKeys].
  - split; [apply AddExposedPorts_idempotent|].
    intros ports'. apply AddExposedPorts_order.
Qed.

Lemma AddExposedPorts_merges_witness :
  Forall (fun p => has_byte comma p = false) [" 80/tcp "; "443/tcp"; "80/tcp"]
  ∧ exposedPortsAnn (AddExposedPorts [" 80/tcp "; "443/tcp"; "80/tcp"] NewSpecBuilder)
    = "443/tcp,80/tcp"
  ∧ AddExposedPorts [" 80/tcp "; "443/tcp"; "80/tcp"]
      (AddExposedPorts [" 80/tcp "; "443/tcp"; "80/tcp"] NewSpecBuilder)
    = AddExposedPorts [" 80/tcp "; "443/tcp"; "80/tcp"] NewSpecBuilder.
Proof.
  assert (H : Forall (fun p => has_byte comma p = false) [" 80/tcp "; "443/tcp"; "80/tcp"])
    by (repeat constructor).
  split; [exact H|]. split; [vm_compute; reflexivity|].
  exact (proj1 (proj2 (proj2 (proj2
           (AddExposedPorts_merges [" 80/tcp "; "443/tcp"; "80/tcp"] NewSpecBuilder)))) H).
Defined.

(** C9 as stated fails: a port string holding a comma is split again by the
    second call, and only the space character is trimmed. *)
Lemma AddExposedPorts_comma_not_idempotent :
  exposedPortsAnn (AddExposedPorts ["80,443"] NewSpecBuilder) = "80,443"
  ∧ exposedPortsAnn (AddExposedPorts ["80,443"] (AddExposedPorts ["80,443"] NewSpecBuilder))
    = "443,80,80,443"
  ∧ AddExposedPorts ["80,443"] (AddExposedPorts ["80,443"] NewSpecBuilder)
    ≠ AddExposedPorts ["80,443"] NewSpecBuilder
  ∧ exposedPortsAnn (AddExposedPorts [String "009" "80"] NewSpecBuilder)
    = String "009" "80".
Proof.
  split; [vm_compute; reflexivity|]. split; [vm_compute; reflexivity|].
  split; [|vm_compute; reflexivity].
  intros E. apply (f_equal exposedPortsAnn) in E. vm_compute in E. discriminate.
Qed.

Section WithResolve.
Variable Resolve : User -> string -> result UserIds.
Variables Geteuid Getegid : N.


(** C6.  With a PRoot path set, [Spec] either rejects an id above the range
    check or sets the process arguments to the PRoot command line: the fixed
    prefix, [-0] for the resolved user 0:0 and [-i UID:GID] otherwise, one
    [-p published:target] per registered port mapping, then entrypoint and
    command.  [SetPRootPath] records the path and adds the tmpfs, the
    read-only bind mount of the binary, the two environment entries and the
    capability; [AddPRootPortMapping] registers [published:target]. *)
Theorem proot_emulation (b : SpecBuilder) (rootfs : string) (ids : UserIds)
    (p : prootOptions) :
  (proot b = Some p -> Path p ≠ "" -> Resolve (user b) rootfs = Ok ids ->
   match snd (Spec Resolve Geteuid Getegid b rootfs) with
   | Ok g =>
       ProcessArgs g =
         ["/dev/proot/proot"; "--kill-on-exit"; "-n"]
           ++ (if decide (Uid ids = 0%N ∧ Gid ids = 0%N) then ["-0"]
               else ["-i"; pretty (Uid ids) +:+ ":" +:+ pretty (Gid ids)])
           ++ portArgs (Ports p) ++ (default [] (entrypoint b) ++ default [] (cmd b))
   | Err e => (2 ^ 32 < Uid ids)%N ∨ (2 ^ 32 < Gid ids)%N
   end)
  ∧ (∀ path,
       proot (SetPRootPath path b) = Some (mkPRoot path (default [] (Ports <$> proot b)))
       ∧ let g := generator (SetPRootPath path b) in
         mkMount "/dev/proot" "tmpfs" "tmpfs" ["exec"; "mode=755"; "size=32256k"] ∈ Mounts g
         ∧ mkMount "/dev/proot/proot" "bind" path ["bind"; "ro"] ∈ Mounts g
         ∧ "PROOT_TMP_DIR=/dev/proot" ∈ ProcessEnv g
         ∧ "PROOT_NO_SECCOMP=1" ∈ ProcessEnv g
         ∧ hasCapability "CAP_SYS_PTRACE" (Bounding (ProcessCapabilities g))
         ∧ hasCapability "CAP_SYS_PTRACE" (Effective (ProcessCapabilities g))
         ∧ hasCapability "CAP_SYS_PTRACE" (Inheritable (ProcessCapabilities g))
         ∧ hasCapability "CAP_SYS_PTRACE" (Permitted (ProcessCapabilities g))
         ∧ hasCapability "CAP_SYS_PTRACE" (Ambient (ProcessCapabilities g)))
  ∧ (∀ published target,
       Ports <$> proot (AddPRootPortMapping published target b)
       = Some (default [] (Ports <$> proot b) ++ [published +:+ ":" +:+ target])).
Proof.
  split; [|split].
  - intros Hp Hpath HR. unfold Builder.Spec. rewrite HR.
    destruct (2 ^ 32 <? Uid ids)%N eqn:Eu; [left; by apply N.ltb_lt|].
    destruct (2 ^ 32 <? Gid ids)%N eqn:Eg; [right; by apply N.ltb_lt|].
    simpl. rewrite Hp. destruct (decide (Path p = "")); [done|].
    assert (EA : ∀ g', ProcessArgs
              (if customSeccomp b then g' else SetLinuxSeccompDefault g') = ProcessArgs g').
    { intros g'. by destruct (customSeccomp b). }
    simpl. rewrite EA.
    assert (EB : ∀ g', ProcessArgs
              (if rootless b then
                 AddLinuxGIDMapping (uint32 Getegid) (uint32 0) 1
                   (AddLinuxUIDMapping (uint32 Geteuid) (uint32 0) 1
                      (ClearLinuxGIDMappings (ClearLinuxUIDMappings g')))
               else g') = ProcessArgs g').
    { intros g'. by destruct (rootless b). }
    rewrite EB. simpl.
    destruct (decide (User_String (UserIds_User ids) = "0:0")) as [E|E];
      destruct (decide (Uid ids = 0%N ∧ Gid ids = 0%N)) as [E'|E'].
    + destruct (entrypoint b), (cmd b); simpl; by rewrite <- ?app_assoc, ?app_nil_r.
    + by apply User_String_root in E.
    + by apply User_String_root in E'.
    + destruct (entrypoint b), (cmd b); simpl; by rewrite <- ?app_assoc, ?app_nil_r.
  - intros path. split; [|apply SetPRootPath_generator].
    unfold SetPRootPath. simpl. by destruct (proot b).
  - intros published target. unfold AddPRootPortMapping. simpl. by destruct (proot b).
Qed.

End WithResolve.





Lemma proot_emulation_witness :
  (ProcessArgs <$> (match snd (Spec (resolveTo 1000 1000) 1000 1000 prootBuilder "/rootfs")
                    with Ok g => Some g | Err _ => None end))
  = Some ["/dev/proot/proot"; "--kill-on-exit"; "-n"; "-i"; "1000:1000";
          "-p"; "8080:80"; "/bin/sh"; "-c"; "id"].
Proof.
  pose proof (proj1 (proot_emulation (resolveTo 1000 1000) 1000 1000 prootBuilder "/rootfs"
                       (mkUserIds 1000 1000) (mkPRoot "/usr/bin/proot" ["8080:80"]))
                eq_refl ltac:(discriminate) eq_refl) as H.
  destruct (snd (Spec (resolveTo 1000 1000) 1000 1000 prootBuilder "/rootfs")) as [g|e] eqn:E.
  - simpl. rewrite H. reflexivity.
  - vm_compute in E. discriminate E.
Defined.

(** C8 (the code at the failing input).  A resolved uid of exactly 2^32
    passes the range check [usr.Uid > 1<<32] and is written to the spec as
    [uint32(2^32) = 0]; 2^32 + 1 is rejected. *)
Theorem Spec_uid_range_off_by_one (Geteuid Getegid : N) (rootfs : string) :
  (∃ g, snd (Spec (resolveTo (2 ^ 32) (2 ^ 32)) Geteuid Getegid NewSpecBuilder rootfs) = Ok g
        ∧ ProcessUID g = 0%N ∧ ProcessGID g = 0%N)
  ∧ snd (Spec (resolveTo (2 ^ 32 + 1) 0) Geteuid Getegid NewSpecBuilder rootfs)
    = Err (UidExceedsRange (2 ^ 32 + 1)).
Proof. split; [eexists; split; [reflexivity|done]|reflexivity]. Qed.

End SpecClaims.

Module ImageBuilderFacts.
Import ImageBuilder.

Section EngineFacts.
Context {S C B : Type} `{ImageStoreRW S} `{ImageBuildCache C} `{BundleStore B} `{GoLib}.

Local Abbreviation State := (BuildState S C B).

(** [emit] only extends the trace. *)
Ltac emit_fields key b :=
  change (parentImgId (emit (Println key) b)) with (parentImgId b);
  change (cache (emit (Println key) b)) with (cache b);
  change (images (emit (Println key) b)) with (images b).

Lemma releaseBundle_bundle (b : State) e : bundle (fst (releaseBundle b e)) = None.
Proof. unfold releaseBundle. by destruct (bundle b) eqn:E. Qed.

Lemma releaseBundle_closed (b : State) e bd :
  bundle b = Some bd -> BundleClosed bd ∈ trace (fst (releaseBundle b e)).
Proof. intros E. unfold releaseBundle. rewrite E. simpl. set_solver. Qed.

Lemma releaseBundle_cache (b : State) e : cache (fst (releaseBundle b e)) = cache b.
Proof. unfold releaseBundle. by destruct (bundle b). Qed.

Lemma cached_miss key call (b : State) :
  miss key b ->
  cached key call b = build key call (parentImgId b) (emit (Println key) b).
Proof.
  unfold cached. emit_fields key b.
  intros [(m & E)|(d & e & E & E')]; rewrite E; [done|]. by rewrite E'.
Qed.

Lemma build_failed_releases key call parent (b b' : State) e :
  build key call parent b = (b', Failed e) ->
  bundle b' = None
  ∧ ∀ b1 o bd, call key (emit (Println "  -> building ...") b) = (b1, o) ->
               bundle b1 = Some bd -> BundleClosed bd ∈ trace b'.
Proof.
  unfold build. destruct (call key _) as [b1 [|e1|]] eqn:Ecall.
  - destruct (image b1) as [img|]; [|done].
    destruct (Put _ _ _ _) as [c [pe|]] eqn:EP; [|done].
    destruct (releaseBundle _ pe) as [b2 e2] eqn:ER. intros [= <- <-].
    change b2 with (fst (b2, e2)). rewrite <- ER. split; [apply releaseBundle_bundle|].
    intros b1' o bd [= <- <-] Hbd. by apply releaseBundle_closed.
  - destruct (releaseBundle b1 e1) as [b2 e2] eqn:ER. intros [= <- <-].
    change b2 with (fst (b2, e2)). rewrite <- ER. split; [apply releaseBundle_bundle|].
    intros b1' o bd [= <- <-] Hbd. by apply releaseBundle_closed.
  - done.
Qed.

Lemma build_done_puts key call parent (b b1 : State) img :
  call key (emit (Println "  -> building ...") b) = (b1, Done) ->
  image b1 = Some img ->
  cache (fst (build key call parent b)) = fst (Put (cache b1) parent key (ID img))
  ∧ (snd (Put (cache b1) parent key (ID img)) = None ->
     build key call parent b =
       (emit (Println ("  -> built image " +:+ ID img))
             (with_cache (fst (Put (cache b1) parent key (ID img))) b1), Done)).
Proof.
  intros Ecall Eimg. unfold build. rewrite Ecall, Eimg.
  destruct (Put _ _ _ _) as [c [pe|]] eqn:EP; simpl.
  - split; [|done]. destruct (releaseBundle _ pe) as [b2 e2] eqn:ER. simpl.
    change b2 with (fst (b2, e2)). rewrite <- ER. by rewrite releaseBundle_cache.
  - done.
Qed.

(** C3.  [cached]: on a hit whose image loads, the action is not run (the
    result does not depend on it) and [image] is the cached image; on a miss
    (temporary cache error, or cached image not loadable) the action is run
    and, when it succeeds, its image is put into the cache under the same
    parent and key; any other cache error is returned as it is; and when the
    build fails the bundle is closed and dropped. *)
Theorem cached_control_flow (key : string)
    (call : string -> State -> State * outcome) (b : State) :
  let parent := parentImgId b in
  let building := emit (Println "  -> building ...") (emit (Println key) b) in
  (∀ d img, Get (cache b) parent key = Ok d -> ImageById (images b) d = Ok img ->
     image (fst (cached key call b)) = Some img
     ∧ (∀ call', cached key call' b = cached key call b)
     ∧ (snd (Config img) = None -> snd (cached key call b) = Done))
  ∧ (miss key b ->
     ∀ b1 img, call key building = (b1, Done) -> image b1 = Some img ->
       cache (fst (cached key call b)) = fst (Put (cache b1) parent key (ID img))
       ∧ (snd (Put (cache b1) parent key (ID img)) = None ->
          cached key call b =
            (emit (Println ("  -> built image " +:+ ID img))
                  (with_cache (fst (Put (cache b1) parent key (ID img))) b1), Done)))
  ∧ (∀ e, Get (cache b) parent key = Err e -> (∀ m, e ≠ ErrCache true m) ->
     cached key call b = (emit (Println key) b, Failed e))
  ∧ (miss key b ->
     ∀ b' e, cached key call b = (b', Failed e) ->
       bundle b' = None
       ∧ ∀ b1 o bd, call key building = (b1, o) -> bundle b1 = Some bd ->
                    BundleClosed bd ∈ trace b').
Proof.
  intros parent building. split; [|split; [|split]].
  - intros d img EG EI. unfold cached. emit_fields key b. fold parent. rewrite EG, EI.
    unfold setImage. simpl. split; [by destruct (snd (Config img))|].
    split; [done|]. by intros ->.
  - intros Hm b1 img Ecall Eimg. rewrite (cached_miss key call b Hm).
    by apply build_done_puts.
  - intros e EG Hne. unfold cached. emit_fields key b. fold parent. rewrite EG.
    destruct e as [| |[] m|]; try done. by destruct (Hne m).
  - intros Hm b' e. rewrite (cached_miss key call b Hm).
    apply build_failed_releases.
Qed.









End EngineFacts.


Lemma cached_control_flow_witness :
  (* a miss on the empty cache builds and fills the cache *)
  miss "AUTHOR Max" sampleState
  ∧ snd (cached "AUTHOR Max" commitConfig sampleState) = Done
  ∧ cache (fst (cached "AUTHOR Max" commitConfig sampleState))
    = {[ (None, "AUTHOR Max") := "sha256:1" ]}
  (* a failing step leaves no bundle behind *)
  ∧ bundle (fst (cached "RUN false" failingStep sampleState)) = None
  ∧ BundleClosed (mkBundle "/bundles/build" None)
      ∈ trace (fst (cached "RUN false" failingStep sampleState)).
Proof.
  assert (Hm : ∀ key, miss key sampleState) by (intros key; left; by eexists).
  destruct (cached_control_flow "AUTHOR Max" commitConfig sampleState) as (_ & Hput & _ & _).
  destruct (cached_control_flow "RUN false" failingStep sampleState) as (_ & _ & _ & Hfail).
  split; [apply Hm|].
  destruct (Hput (Hm _) _ _ eq_refl eq_refl) as [Hc Hd].
  split; [by rewrite (Hd eq_refl)|]. split; [by rewrite Hc|].
  destruct (Hfail (Hm _) _ _ eq_refl) as [Hb Ht].
  split; [exact Hb|]. exact (Ht _ _ _ eq_refl eq_refl).
Defined.

(** C2 (the code at the failing input).  The history entry of a config-only
    commit carries the author and the fingerprint, and [EmptyLayer] is
    [false]. *)
Theorem commitConfig_history_entry :
  last (HistoryEntries (config (fst (SetAuthor "Max" sampleState))))
  = Some (mkHistory "Max" "AUTHOR Max" false)
  ∧ last (HistoryEntries (config (fst (SetCmd (Some ["/bin/sh"]) sampleState))))
    = Some (mkHistory "" "CMD [/bin/sh]" false)
  ∧ ∀ comment (b : SampleState),
      last (HistoryEntries (config (fst (commitConfig comment b))))
      = Some (mkHistory (Author (config b)) comment false).
Proof.
  split; [reflexivity|]. split; [reflexivity|].
  intros comment b. unfold commitConfig. simpl. by rewrite last_snoc.
Qed.

End ImageBuilderFacts.

Module DockerfileFacts.
Import GoStrings Dockerfile.

Lemma bind_Ok {A B} (r : res A) (f : A -> res B) b :
  r ≫= f = Ok b -> ∃ a, r = Ok a ∧ f a = Ok b.
Proof. destruct r as [a| |]; simpl; [by exists a|done..]. Qed.

Lemma readInstructionNode_Ok n :
  Next n ≠ [] -> Flags n = [] -> readInstructionNode n [] = Ok (Next n, []).
Proof.
  intros Hn Hf. unfold readInstructionNode, readFlags. rewrite Hf.
  by destruct (Next n).
Qed.

Lemma readInstructionNode_inv n fl r :
  readInstructionNode n fl = Ok r -> fst r = Next n ∧ Next n ≠ [].
Proof.
  unfold readInstructionNode. destruct (Next n) eqn:E; [done|].
  intros (x & _ & [= <-])%bind_Ok. done.
Qed.

(** Splits the hypothesis that a chain of binds returned a value. *)
Ltac split_binds :=
  repeat match goal with
         | H : _ ≫= _ = Ok _ |- _ => apply bind_Ok in H as (? & ? & H)
         | H : (let '(_, _) := ?p in _) = Ok _ |- _ => destruct p
         | H : (if ?c then _ else _) = Ok _ |- _ => destruct c
         | H : Ok _ = Ok _ |- _ => injection H as <-
         | H : Err _ = Ok _ |- _ => discriminate H
         | H : Panic = Ok _ |- _ => discriminate H
         end.

Section HandlerFacts.
Variable ProcessWord : string -> list string -> res string.
Variable Unquote : string -> option string.
Variable ParseUser : string -> Builder.User.
Variable appendCap : nat -> nat.



Lemma addCmd_ops shared mk v s :
  length (ops (addCmd shared mk v s)) = S (length (ops s))
  ∧ last (ops (addCmd shared mk v s)) = Some (mk v).
Proof.
  destruct shared; simpl; rewrite last_snoc, length_app; simpl.
  - rewrite length_imap. split; [lia|done].
  - split; [lia|done].
Qed.

Lemma addCmd_own mk v s : addCmd false mk v s = add (mk v) s.
Proof. done. Qed.






End HandlerFacts.



(** Where the instruction name is not followed by a space, [isJsonNotation]
    still cuts the line at its first space.  [CMD<TAB>["a", "b"]] is exec
    form for the parser; the text decoded is ["b"]], and the command is run
    through the shell.  [CMD<TAB>["a","b"]] holds no space: [line[-1:]]
    panics. *)
Lemma first_space_is_not_the_end_of_the_name :
  isJsonNotation cmdTab = Some false
  ∧ readInstructionNodeCmd emptyBuilder cmdTab = Ok ["/bin/sh"; "-c"; "a b"]
  ∧ isJsonNotation cmdTabNoSpace = None
  ∧ readInstructionNodeCmd emptyBuilder cmdTabNoSpace = Panic.
Proof. repeat split; vm_compute; reflexivity. Qed.

(** A shell of three elements has capacity four.  Every shell form
    instruction appends its command line to the same backing array, so after
    [RUN echo one] and [RUN echo two] both operations run [echo two]. *)
Lemma shell_form_shares_the_shell_array :
  ops <$> (match LoadDockerfile sampleProcessWord sampleUnquote sampleParseUser
                   goAppendCap [shellBusybox; runOne; runTwo] "/ctx" None
           with Ok s => Some s | _ => None end)
  = Some [OpRun ["/bin/busybox"; "sh"; "-c"; "echo two"] ∅;
          OpRun ["/bin/busybox"; "sh"; "-c"; "echo two"] ∅].
Proof. vm_compute. reflexivity. Qed.

(** What [arg] does with the words of an [ARG] instruction: the first is the
    name, the others, joined, the default.  The value is the build-time
    override when there is one, else that default.  If the name was declared
    by [ENV] in this stage a warning is recorded and nothing is stored;
    otherwise a non-empty value is stored in [runEnvMap] and [varScope], and
    an empty value is not stored. *)
Lemma arg_words (s : DockerfileBuilder) (n : Node) (k : string) (rest : list string) :
  Next n = k :: rest -> Flags n = [] ->
  let v := match buildArgs s !! k with
           | Some barg => barg
           | None => match rest with [] => "" | _ => Join space rest end
           end in
  ∃ s', arg n s = Ok s'
    ∧ ops s' = ops s ∧ envMap s' = envMap s ∧ shell s' = shell s
    ∧ (envMap s !! k = Some true ->
       ArgShadowedByEnv k ∈ warnings s'
       ∧ runEnvMap s' = runEnvMap s ∧ varScope s' = varScope s)
    ∧ (envMap s !! k ≠ Some true -> v ≠ "" ->
       runEnvMap s' = <[k := v]> (runEnvMap s) ∧ varScope s' = <[k := v]> (varScope s))
    ∧ (envMap s !! k ≠ Some true -> v = "" ->
       runEnvMap s' = runEnvMap s ∧ varScope s' = varScope s).
Proof.
  intros Hn Hf v. unfold arg.
  rewrite readInstructionNode_Ok by (by rewrite ?Hn). rewrite Hn. simpl.
  assert (Hv : (if decide (2 <= S (length rest)) then Join space rest else "")
               = match rest with [] => "" | _ => Join space rest end).
  { destruct rest; [done|]. case_decide; [done|]. simpl in *. lia. }
  rewrite Hv. clear Hv. unfold v. clear v.
  set (v := match rest with [] => "" | _ => Join space rest end).
  destruct (buildArgs s !! k) as [barg|] eqn:Eb; [|destruct (decide (v = "")) as [Ev|Ev]];
    destruct (envMap s !! k) as [[]|] eqn:Ee; simpl; rewrite ?Ee; simpl;
    repeat case_decide;
    (eexists; split; [reflexivity|]);
    repeat split; intros; simplify_eq/=; try done; set_solver.
Qed.

(** C5 (the code at the failing input).  The parser hands [ARG k=default]
    over as the one word [k=default].  [arg] takes the whole word for the
    name and has no default: unless a build argument or an [ENV] variable
    is named [k=default] itself, it warns that the build argument is
    undefined and stores nothing, whatever override there is for [k]. *)
Theorem arg_default_not_split (s : DockerfileBuilder) (n : Node) (k d : string) :
  Next n = [k +:+ "=" +:+ d] -> Flags n = [] ->
  buildArgs s !! (k +:+ "=" +:+ d) = None ->
  envMap s !! (k +:+ "=" +:+ d) ≠ Some true ->
  arg n s = Ok (warn (UndefinedBuildArg (k +:+ "=" +:+ d)) s)
  ∧ ∀ s', arg n s = Ok s' ->
      runEnvMap s' = runEnvMap s ∧ varScope s' = varScope s
      ∧ runEnvMap s' !! k = runEnvMap s !! k ∧ varScope s' !! k = varScope s !! k.
Proof.
  intros Hn Hf Hb He.
  assert (Ha : arg n s = Ok (warn (UndefinedBuildArg (k +:+ "=" +:+ d)) s)).
  { unfold arg. rewrite readInstructionNode_Ok by (by rewrite ?Hn). rewrite Hn. simpl.
    rewrite Hb. simpl.
    destruct (envMap s !! (k +:+ "=" +:+ d)) as [[]|] eqn:Ee; simpl; rewrite ?Ee; done. }
  split; [done|]. intros s'. rewrite Ha. by intros [= <-].
Qed.

Lemma arg_default_not_split_witness :
  let s := with_buildArgs {[ "BASEARG" := "override" ]} emptyBuilder in
  arg argBaseArg emptyBuilder
  = Ok (warn (UndefinedBuildArg "BASEARG=baseargval") emptyBuilder)
  ∧ arg argBaseArg s = Ok (warn (UndefinedBuildArg "BASEARG=baseargval") s)
  ∧ runEnvMap (warn (UndefinedBuildArg "BASEARG=baseargval") s) !! "BASEARG" = None.
Proof.
  intros s. split; [|split; [|reflexivity]].
  - refine (proj1 (arg_default_not_split emptyBuilder argBaseArg "BASEARG" "baseargval"
                     eq_refl eq_refl eq_refl _)).
    discriminate.
  - refine (proj1 (arg_default_not_split s argBaseArg "BASEARG" "baseargval"
                     eq_refl eq_refl eq_refl _)).
    discriminate.
Defined.

End DockerfileFacts.

Module LockFacts.
Import Lock.

Lemma lock_unlock f (held held1 : Held) :
  lock f held = Returns held1 -> (f ∉ held) ∧ f ∈ held1 ∧ unlock f held1 = held.
Proof.
  unfold lock, unlock. destruct (decide (f ∈ held)); [done|].
  intros [= <-]. set_solver.
Qed.

Lemma onReturn_released l msg err (held held' : Held) r :
  onReturn l msg err held = (held', r) ->
  match r with
  | Some _ => held' = unlock (file l) held ∧ is_Some err
  | None => held' = held ∧ err = None
  end.
Proof. unfold onReturn. destruct err; intros [= <- <-]; eauto. Qed.

Lemma lockLoop_returns env n :
  ∀ i fuel, endsAt env (i + n) -> n < fuel -> ∃ r, lockLoop env fuel i = Returns r.
Proof.
  induction n as [|n IH]; intros i fuel He Hf.
  - destruct fuel as [|fuel]; [lia|]. rewrite Nat.add_0_r in He.
    unfold endsAt in He. simpl.
    destruct (FsTryLock env i) as [e|]; [|by eexists].
    destruct (Temporary e) as [[]|]; [|by eexists..].
    destruct (AwaitFileChange env i) as [e'|]; [|done]. rewrite He. by eexists.
  - destruct fuel as [|fuel]; [lia|]. simpl.
    destruct (FsTryLock env i) as [e|]; [|by eexists].
    destruct (Temporary e) as [[]|]; [|by eexists..].
    assert (Hn : ∃ r, lockLoop env fuel (S i) = Returns r).
    { apply IH; [|lia]. by replace (S i + n) with (i + S n) by lia. }
    destruct (AwaitFileChange env i) as [e'|]; [|done].
    destruct (NotExist e'); [done|by eexists].
Qed.

(** C10.  When [TryLock] or [Lock] returns an error the mutex of the file is
    not held (the set of held files is as it was before the call); when
    they return without error it is held; [Lock] returns once a round of its
    loop ends it; [Unlock] releases the mutex whatever the file system
    answers. *)
Theorem failed_lock_releases_mutex (l : Lockfile) (env : Env) (held : Held) :
  (∀ held' r, TryLock l env held = Returns (held', r) ->
     match r with
     | Some _ => (file l ∉ held') ∧ held' = held
     | None => file l ∈ held'
     end)
  ∧ (∀ fuel held' r, Lock l env fuel held = Returns (held', r) ->
     match r with
     | Some _ => (file l ∉ held') ∧ held' = held
     | None => file l ∈ held'
     end)
  ∧ (file l ∉ held -> ∀ n fuel, endsAt env n -> n < fuel ->
     ∃ held' r, Lock l env fuel held = Returns (held', r))
  ∧ ((file l ∉ fst (Unlock l env held))
     ∧ (is_Some (FsUnlock env) <-> is_Some (snd (Unlock l env held)))).
Proof.
  split; [|split; [|split]].
  - intros held' r. unfold TryLock.
    destruct (lock (file l) held) as [held1| |] eqn:El; [|done..].
    intros Hr. apply lock_unlock in El as (Hn & Hin & Hu).
    assert (Hr' : onReturn l "trylock"
                    match mkdirs env with Some e => Some e | None => FsTryLock env 0 end
                    held1 = (held', r)) by congruence.
    clear Hr. rename Hr' into Hr. apply onReturn_released in Hr. destruct r; [|by destruct Hr as [-> _]].
    destruct Hr as [-> _]. by rewrite Hu.
  - intros fuel held' r. unfold Lock.
    destruct (lock (file l) held) as [held1| |] eqn:El; [|done..].
    apply lock_unlock in El as (Hn & Hin & Hu).
    assert (Hret : ∀ err, onReturn l "lock" err held1 = (held', r) ->
              match r with
              | Some _ => (file l ∉ held') ∧ held' = held
              | None => file l ∈ held'
              end).
    { intros err Hr. apply onReturn_released in Hr.
      destruct r; [|by destruct Hr as [-> _]]. destruct Hr as [-> _]. by rewrite Hu. }
    destruct (mkdirs env) as [e|]; [intros Hr; apply (Hret (Some e)); congruence|].
    destruct (lockLoop env fuel 0) as [err| |]; [|done..].
    intros Hr. apply (Hret err). congruence.
  - intros Hn n fuel He Hf. unfold Lock, lock.
    destruct (decide (file l ∈ held)); [done|].
    destruct (mkdirs env); [by eexists _, _|].
    destruct (lockLoop_returns env n 0 fuel He Hf) as [r ->].
    destruct (onReturn l "lock" r ({[file l]} ∪ held)) as [h r'] eqn:E.
    by exists h, r'.
  - unfold Unlock, unlock. simpl. split; [set_solver|].
    destruct (FsUnlock env); simpl; split; intros [x Hx]; by eauto.
Qed.

Lemma failed_lock_releases_mutex_witness :
  TryLock lockFile envNoDir ∅
  = Returns (∅, Some (Wrap (Wrap denied "mk lock parent dir") "trylock"))
  ∧ (∃ held' r, Lock lockFile envBusyThenDenied 3 ∅ = Returns (held', Some r)
                ∧ (file lockFile ∉ held'))
  ∧ file lockFile ∉ fst (Unlock lockFile envBusyThenDenied {[file lockFile]}).
Proof.
  destruct (failed_lock_releases_mutex lockFile envBusyThenDenied ∅) as (_ & HL & HR & _).
  destruct (failed_lock_releases_mutex lockFile envBusyThenDenied {[file lockFile]})
    as (_ & _ & _ & HU & _).
  split; [reflexivity|]. split; [|exact HU].
  destruct (HR ltac:(set_solver) 2 3 I ltac:(lia)) as (held' & r & E).
  specialize (HL 3 held' r E). destruct r as [e|].
  - exists held', e. split; [exact E|]. exact (proj1 HL).
  - vm_compute in E. discriminate E.
Defined.

End LockFacts.

Module DockerfileExtra.
Import GoStrings Dockerfile DockerfileFacts.

Lemma readInstructionNode_flag n f fs :
  Next n ≠ [] -> Flags n = f :: fs ->
  readInstructionNode n [] = Err (UnsupportedFlag (flagKey f)).
Proof.
  intros Hn Hf. unfold readInstructionNode, readFlags. rewrite Hf.
  destruct (Next n); [done|]. simpl. unfold flagKey.
  by destruct (splitKeyValue f).
Qed.

Lemma readInstructionNode_incomplete n fl :
  Next n = [] -> readInstructionNode n fl = Err (IncompleteInstruction n).
Proof. intros Hn. unfold readInstructionNode. by rewrite Hn. Qed.

Section Handlers.
Variable ProcessWord : string -> list string -> res string.
Variable Unquote : string -> option string.
Variable ParseUser : string -> Builder.User.
Variable appendCap : nat -> nat.

Local Abbreviation dispatch := (dispatch ProcessWord Unquote ParseUser appendCap).
Local Abbreviation readNode := (readNode ProcessWord Unquote ParseUser appendCap).
Local Abbreviation readNodes := (readNodes ProcessWord Unquote ParseUser appendCap).

(** The handlers that read their arguments without flags *)
Ltac unfold_handlers :=
  unfold from, label, maintainer, arg, env, workdir, user, useShell, run,
    exposePorts, volume, entrypoint, cmd, stopsignal, oneArg, readInstructionNodeCmd,
    addCmd.

Lemma dispatch_unknown n s :
  Value n ∉ instructions -> dispatch n s = Err (UnsupportedInstruction (Value n)).
Proof.
  intros Hn. unfold Dockerfile.dispatch.
  repeat (case_decide; [exfalso; apply Hn; unfold instructions;
                        match goal with H : Value n = _ |- _ => rewrite H end;
                        set_solver|]).
  done.
Qed.

(** X1.  Instructions without arguments, and flags on instructions other than
    COPY and ADD. *)
Theorem readNode_rejects (n : Node) (s : DockerfileBuilder) :
  (Value n ∉ instructions ->
   readNode n s
   = Err (AtLine (StartLine n) (Value n) (UnsupportedInstruction (Value n))))
  ∧ (Value n ∈ instructions -> Next n = [] ->
     readNode n s = Err (AtLine (StartLine n) (Value n) (IncompleteInstruction n)))
  ∧ (Value n ∈ instructions -> Value n ≠ "copy" -> Value n ≠ "add" ->
     Next n ≠ [] ->
     ∀ f fs, Flags n = f :: fs ->
       readNode n s = Err (AtLine (StartLine n) (Value n) (UnsupportedFlag (flagKey f)))).
Proof.
  split; [|split].
  - intros Hn. unfold Dockerfile.readNode. by rewrite dispatch_unknown.
  - intros Hin Hn. unfold Dockerfile.readNode.
    assert (E : dispatch n s = Err (IncompleteInstruction n)).
    { unfold Dockerfile.dispatch, copy. unfold_handlers.
      rewrite !(readInstructionNode_incomplete n _ Hn). simpl.
      repeat (case_decide; [done|]).
      exfalso. unfold instructions in Hin. set_solver. }
    by rewrite E.
  - intros Hin Hc Ha Hn f fs Hf. unfold Dockerfile.readNode.
    assert (E : dispatch n s = Err (UnsupportedFlag (flagKey f))).
    { unfold Dockerfile.dispatch. unfold_handlers.
      rewrite !(readInstructionNode_flag n f fs Hn Hf). simpl.
      repeat (case_decide; [done|]).
      exfalso. unfold instructions in Hin. set_solver. }
    by rewrite E.
Qed.

Lemma dispatch_frame n s s' :
  dispatch n s = Ok s' ->
  buildArgs s' = buildArgs s ∧ ctxDir s' = ctxDir s
  ∧ length (ops s') = (if addsNoOp n then length (ops s) else S (length (ops s))).
Proof.
  unfold Dockerfile.dispatch, addsNoOp.
  repeat (match goal with
          | |- context [decide (Value n = ?x)] =>
              destruct (decide (Value n = x)) as [Hv|_]; [
                rewrite Hv; unfold copy; unfold_handlers; unfold addCmd;
                intros Hs; split_binds;
                repeat (case_match; simplify_eq/=; try done);
                rewrite ?length_app, ?length_imap; simpl;
                repeat split; try done; lia |]
          end).
  done.
Qed.

Lemma readNodes_frame nodes : ∀ s s',
  readNodes nodes s = Ok s' ->
  buildArgs s' = buildArgs s ∧ ctxDir s' = ctxDir s
  ∧ length (ops s') = length (ops s) + length (filter (fun n => addsNoOp n = false) nodes).
Proof.
  induction nodes as [|n nodes IH]; intros s s'; simpl.
  - intros [= <-]. rewrite Nat.add_0_r. done.
  - intros (s1 & H1 & H2)%bind_Ok.
    unfold Dockerfile.readNode in H1.
    destruct (Dockerfile.dispatch _ _ _ _ n s) eqn:Ed; simplify_eq/=.
    apply dispatch_frame in Ed as (Eb & Ec & Eo).
    apply IH in H2 as (Eb' & Ec' & Eo').
    split; [congruence|]. split; [congruence|].
    rewrite Eo', Eo, filter_cons.
    destruct (addsNoOp n) eqn:Ea; case_decide; try done. simpl. lia.
Qed.

(** X2.  One operation per instruction.  Loading a Dockerfile yields exactly
    one operation for every instruction other than ARG and SHELL, and keeps
    the build arguments and the context directory it was given. *)
Theorem LoadDockerfile_ops (children : list Node) (dir : string)
    (args : option (gmap string string)) (s' : DockerfileBuilder) :
  LoadDockerfile ProcessWord Unquote ParseUser appendCap children dir args = Ok s' ->
  length (ops s') = length (filter (fun n => addsNoOp n = false) children)
  ∧ buildArgs s' = default ∅ args
  ∧ ctxDir s' = dir.
Proof.
  unfold LoadDockerfile. intros Hl. apply readNodes_frame in Hl as (Eb & Ec & Eo).
  by rewrite Eo, Eb, Ec.
Qed.

Lemma readNodes_app pre post s :
  readNodes (pre ++ post) s = readNodes pre s ≫= readNodes post.
Proof.
  revert s. induction pre as [|n pre IH]; intros s; simpl; [done|].
  destruct (Dockerfile.readNode _ _ _ _ n s) as [s1| |]; simpl; [apply IH|done..].
Qed.

(** X3.  The first failing instruction.  When the instructions before [n]
    load and the handler of [n] fails, loading stops there: the error names
    the line and the instruction of [n], and the instructions after it play
    no part. *)
Theorem readNodes_first_error (pre post : list Node) (n : Node)
    (s s1 : DockerfileBuilder) (e : error) :
  readNodes pre s = Ok s1 ->
  dispatch n s1 = Err e ->
  readNodes (pre ++ n :: post) s = Err (AtLine (StartLine n) (Value n) e).
Proof.
  intros Hpre He. rewrite readNodes_app, Hpre. simpl.
  unfold Dockerfile.readNode. by rewrite He.
Qed.

(** X4.  FROM.  After substitution the arguments must be an image, or an
    image, the word [as] in lower case and a name; the image must not be
    empty.  A FROM that is accepted starts a stage with empty scopes (no
    ENV or ARG of the stage before is in scope) and the same shell. *)
Theorem from_stage (n : Node) (s : DockerfileBuilder) (v : list string) :
  Next n ≠ [] -> Flags n = [] ->
  subst ProcessWord s (Next n) = Ok v ->
  (∀ img, img ≠ "" -> (v = [img] ∨ ∃ name, v = [img; "as"; name]) ->
     from ProcessWord n s = Ok (add (OpFromImage img v) (resetState s)))
  ∧ ((¬ ∃ img, img ≠ "" ∧ (v = [img] ∨ ∃ name, v = [img; "as"; name])) ->
     from ProcessWord n s = Err (FromExpected v))
  ∧ (∀ s', from ProcessWord n s = Ok s' ->
       envMap s' = ∅ ∧ runEnvMap s' = ∅ ∧ varScope s' = ∅
       ∧ shell s' = shell s ∧ warnings s' = warnings s).
Proof.
  intros Hn Hf Hs. unfold from.
  rewrite (readInstructionNode_Ok n Hn Hf). simpl. rewrite Hs. simpl.
  split; [|split].
  - intros img Himg [->|[name ->]]; simpl.
    + rewrite bool_decide_eq_false_2 by (by intros [=]). done.
    + rewrite bool_decide_eq_false_2 by (by intros [=]). done.
  - intros Hno.
    destruct v as [|a [|b [|c [|d v]]]]; simpl; try done.
    + destruct (decide (a = "")) as [->|Ha]; [done|].
      destruct Hno. exists a. eauto.
    + destruct (decide (a = "")) as [->|Ha]; [done|].
      rewrite bool_decide_eq_false_2 by (by intros [=]). simpl.
      destruct (decide (b = "as")) as [->|Hb].
      * destruct Hno. exists a. eauto.
      * rewrite bool_decide_eq_false_2 by (by intros [=]). done.
  - intros s'. case_match; [done|]. by intros [= <-].
Qed.

Lemma lastFlagValue_cons k f flags :
  lastFlagValue k (f :: flags) =
    match last (omap (fun f => if decide (flagKey f = k) then snd (splitKeyValue f) else None)
                     flags) with
    | Some v => v
    | None => if decide (flagKey f = k) then default "" (snd (splitKeyValue f)) else ""
    end.
Proof.
  unfold lastFlagValue. simpl.
  destruct (decide (flagKey f = k)); [|by destruct (last _)].
  destruct (snd (splitKeyValue f)); [|by destruct (last _)].
  rewrite last_cons. by destruct (last _).
Qed.

Lemma readFlagValues_last known flags : ∀ vals,
  Forall (fun f => flagKey f ∈ known) flags ->
  ∃ vals', readFlagValues known flags vals = Ok vals'
    ∧ ∀ k, vals' !! k =
           match last (omap (fun f => if decide (flagKey f = k)
                                      then snd (splitKeyValue f) else None) flags) with
           | Some v => Some v
           | None => vals !! k
           end.
Proof.
  induction flags as [|f flags IH]; intros vals Hk; simpl; [by eexists|].
  inversion Hk as [|? ? Hf Hk']; subst. unfold flagKey in Hf.
  destruct (splitKeyValue f) as [key v] eqn:Ef. simpl in Hf.
  rewrite bool_decide_eq_true_2 by done.
  destruct (IH (match v with Some v => <[key:=v]> vals | None => vals end) Hk')
    as (vals' & -> & Hl).
  exists vals'. split; [done|]. intros k. rewrite Hl. unfold flagKey. rewrite Ef. simpl.
  destruct (decide (key = k)) as [->|Hne].
  - destruct v as [v|]; simpl.
    + rewrite last_cons. destruct (last _); [done|]. by rewrite lookup_insert_eq.
    + done.
  - destruct (last _); [done|]. destruct v; [|done]. by rewrite lookup_insert_ne.
Qed.

Lemma readFlagValues_unknown known pre f post : ∀ vals,
  Forall (fun f => flagKey f ∈ known) pre -> flagKey f ∉ known ->
  readFlagValues known (pre ++ f :: post) vals = Err (UnsupportedFlag (flagKey f)).
Proof.
  induction pre as [|g pre IH]; intros vals Hk Hf; simpl.
  - unfold flagKey in *. destruct (splitKeyValue f) as [key v]. simpl in *.
    by rewrite bool_decide_eq_false_2.
  - inversion Hk as [|? ? Hg Hk']; subst. unfold flagKey in Hg.
    destruct (splitKeyValue g) as [key v]. simpl in Hg.
    rewrite bool_decide_eq_true_2 by done. by apply IH.
Qed.

Lemma readFlags_known n known :
  "" ∉ known ->
  Forall (fun f => flagKey f ∈ known) (Flags n) ->
  readFlags n known = Ok ((fun k => lastFlagValue k (Flags n)) <$> known).
Proof.
  intros He Hk. unfold readFlags. rewrite bool_decide_eq_false_2 by done.
  destruct (readFlagValues_last known (Flags n) ∅ Hk) as (vals' & -> & Hl).
  simpl. f_equal. apply list_fmap_ext. intros i k _. rewrite Hl.
  unfold lastFlagValue. destruct (last _); [done|]. by rewrite lookup_empty.
Qed.

(** X5.  Flags.  When every flag of the instruction is one of the known
    names, each known flag gets the value given to it last ("" when it is
    not given or never has a value); the first flag with another name is
    reported as unsupported. *)
Theorem readFlags_values (n : Node) (known : list string) :
  "" ∉ known ->
  (Forall (fun f => flagKey f ∈ known) (Flags n) ->
   readFlags n known = Ok ((fun k => lastFlagValue k (Flags n)) <$> known))
  ∧ (∀ pre f post, Flags n = pre ++ f :: post ->
       Forall (fun f => flagKey f ∈ known) pre -> flagKey f ∉ known ->
       readFlags n known = Err (UnsupportedFlag (flagKey f))).
Proof.
  intros He. split; [by apply readFlags_known|].
  unfold readFlags. rewrite bool_decide_eq_false_2 by done.
  intros pre f post -> Hk Hf. by rewrite readFlagValues_unknown.
Qed.

Lemma removelast_snoc {A} (l : list A) x : removelast (l ++ [x]) = l.
Proof. by rewrite removelast_app, app_nil_r. Qed.

(** X6.  COPY and ADD.  The last argument is the destination and the others
    are the sources; a single argument is a source with the empty
    destination.  COPY copies from the context unless [--from] names an
    image; ADD takes [--from] along (it is refused when the operation is
    applied); [--chown] gives the user. *)
Theorem copy_operation (n : Node) (isAdd : bool) (s : DockerfileBuilder)
    (chown from : string) (v : list string) :
  Next n ≠ [] ->
  Forall (fun f => flagKey f ∈ ["--chown"; "--from"]) (Flags n) ->
  subst ProcessWord s [lastFlagValue "--chown" (Flags n); lastFlagValue "--from" (Flags n)]
  = Ok [chown; from] ->
  subst ProcessWord s (Next n) = Ok v ->
  let usr := if decide (chown = "") then None else Some (ParseUser chown) in
  let op srcs dest :=
    if isAdd then OpAddFiles from (ctxDir s) srcs dest usr
    else if decide (from = "") then OpCopyFiles (ctxDir s) srcs dest usr
    else OpCopyFilesFromImage from srcs dest usr in
  (∀ srcs dest, srcs ≠ [] -> v = srcs ++ [dest] ->
     copy ProcessWord ParseUser n isAdd s = Ok (add (op srcs dest) s))
  ∧ (∀ src, v = [src] ->
     copy ProcessWord ParseUser n isAdd s = Ok (add (op [src] "") s)).
Proof.
  intros Hn Hk Hfl Hv usr op.
  assert (Hr : readInstructionNode n ["--chown"; "--from"]
               = Ok (Next n, [lastFlagValue "--chown" (Flags n);
                              lastFlagValue "--from" (Flags n)])).
  { unfold readInstructionNode. destruct (Next n) eqn:E; [done|].
    rewrite (readFlags_known n ["--chown"; "--from"] ltac:(set_solver) Hk).
    done. }
  unfold copy. rewrite Hr. simpl. rewrite Hfl. simpl. rewrite Hv. simpl. split.
  - intros srcs dest Hs ->.
    destruct (decide (1 < length (srcs ++ [dest]))) as [_|Hl].
    + by rewrite removelast_snoc, last_snoc.
    + rewrite length_app in Hl. simpl in Hl. destruct srcs; [done|simpl in Hl; lia].
  - intros src ->. simpl. done.
Qed.

Lemma toMapFrom_lookup (ps : list (string * string)) (tl : list string) (k : string) :
  ∀ m, length tl <= 1 ->
  toMapFrom Unquote (flat_map (fun p => [fst p; snd p]) ps ++ tl) m !! k =
    match last (filter (fun p => unquote Unquote (fst p) = k) ps) with
    | Some p => Some (unquote Unquote (snd p))
    | None => m !! k
    end.
Proof.
  induction ps as [|[a b] ps IH]; intros m Hl; simpl.
  - destruct tl as [|x [|y tl]]; simpl in *; [done..|lia].
  - rewrite IH by done. rewrite filter_cons. simpl.
    destruct (decide (unquote Unquote a = k)) as [<-|Hne].
    + rewrite last_cons. destruct (last _); [done|]. by rewrite lookup_insert_eq.
    + destruct (last _); [done|]. by rewrite lookup_insert_ne.
Qed.

(** X7.  Key and value lists.  [toMap] reads its arguments as key, value
    pairs, unquoting both; a key given twice keeps its last value, and an
    argument left over at the end (a key without value) is dropped. *)
Theorem toMap_pairs (ps : list (string * string)) (tl : list string) (k : string) :
  length tl <= 1 ->
  toMap Unquote (flat_map (fun p => [fst p; snd p]) ps ++ tl) !! k =
    (fun p => unquote Unquote (snd p))
      <$> last (filter (fun p => unquote Unquote (fst p) = k) ps).
Proof.
  intros Hl. unfold toMap. rewrite toMapFrom_lookup by done.
  destruct (last _); [done|]. by rewrite lookup_empty.
Qed.

(** X8.  ENV.  The pairs of an ENV instruction go into [varScope] and
    [envMap] and into one [AddEnv] operation; names it does not mention
    keep their value; [runEnvMap] is left as it is, so an ARG declared
    before an ENV of the same name is still handed to RUN. *)
Theorem env_scoping (n : Node) (s s' : DockerfileBuilder) :
  env ProcessWord Unquote n s = Ok s' ->
  ∃ v, subst ProcessWord s (Next n) = Ok v
    ∧ ops s' = ops s ++ [OpAddEnv (toMap Unquote v)]
    ∧ runEnvMap s' = runEnvMap s
    ∧ (∀ k x, toMap Unquote v !! k = Some x ->
         varScope s' !! k = Some x ∧ envMap s' !! k = Some true)
    ∧ (∀ k, toMap Unquote v !! k = None ->
         varScope s' !! k = varScope s !! k ∧ envMap s' !! k = envMap s !! k)
    ∧ (∀ r w, readInstructionNodeCmd s' r = Ok w ->
         ∃ s'', run r s' = Ok s''
           ∧ last (ops s'') = Some (OpRun w (runEnvMap s))
           ∧ (sharesShell s' r = false -> s'' = add (OpRun w (runEnvMap s)) s')).
Proof.
  unfold env. intros Hs. split_binds.
  apply readInstructionNode_inv in H as [E _]. simpl in E. subst.
  eexists. split; [done|]. simpl. split; [done|]. split; [done|].
  split; [|split].
  - intros k val Hk. split.
    + by apply lookup_union_Some_l.
    + apply lookup_union_Some_l. by rewrite lookup_fmap, Hk.
  - intros k Hk. split.
    + by rewrite lookup_union_r.
    + rewrite lookup_union_r; [done|]. by rewrite lookup_fmap, Hk.
  - intros r w Hr. unfold run. rewrite Hr. simpl. eexists. split; [done|].
    split; [apply addCmd_ops|]. by intros ->.
Qed.

Lemma scopesOk_frame (s s' : DockerfileBuilder) :
  envMap s' = envMap s -> runEnvMap s' = runEnvMap s -> varScope s' = varScope s ->
  scopesOk s -> scopesOk s'.
Proof. unfold scopesOk. by intros -> -> ->. Qed.

Lemma dispatch_scopesOk n s s' :
  dispatch n s = Ok s' -> scopesOk s -> scopesOk s'.
Proof.
  unfold Dockerfile.dispatch.
  destruct (decide (Value n = "from")).
  { unfold from. intros Hs _. split_binds. unfold scopesOk. simpl.
    split; [set_solver|]. split; [set_solver|]. intros k b. by rewrite lookup_empty. }
  destruct (decide (Value n = "copy")).
  { unfold copy. intros Hs. split_binds. by apply scopesOk_frame. }
  destruct (decide (Value n = "add")).
  { unfold copy. intros Hs. split_binds. by apply scopesOk_frame. }
  destruct (decide (Value n = "label")).
  { unfold_handlers. intros Hs. split_binds. by apply scopesOk_frame. }
  destruct (decide (Value n = "maintainer")).
  { unfold_handlers. intros Hs. split_binds. by apply scopesOk_frame. }
  destruct (decide (Value n = "arg")).
  { unfold arg. intros Hs (H1 & H2 & H3). split_binds.
    repeat (case_match; simplify_eq/=; try done);
      unfold scopesOk; simpl; rewrite ?dom_insert; (split; [set_solver|]);
      (split; [set_solver|]); done. }
  destruct (decide (Value n = "env")).
  { unfold env. intros Hs (H1 & H2 & H3). split_binds. unfold scopesOk. simpl.
    rewrite !dom_union, dom_fmap. split; [set_solver|]. split; [set_solver|].
    intros k b [Hk|[_ Hk]]%lookup_union_Some_raw; [|by eapply H3].
    rewrite lookup_fmap in Hk. destruct (toMap Unquote _ !! k); by simplify_eq/=. }
  repeat (match goal with
          | |- context [decide (Value n = ?x)] =>
              destruct (decide (Value n = x)) as [Hv|_]; [
                unfold_handlers; intros Hs; split_binds;
                repeat (case_match; simplify_eq/=; try done);
                by apply scopesOk_frame |]
          end).
  done.
Qed.

(** X9.  The scope invariant.  In the state a Dockerfile loads to, every name
    handed to RUN as an argument and every name declared by ENV is in scope
    for substitution, and [envMap] maps the names it holds to [true]. *)
Theorem LoadDockerfile_scopesOk (children : list Node) (dir : string)
    (args : option (gmap string string)) (s' : DockerfileBuilder) :
  LoadDockerfile ProcessWord Unquote ParseUser appendCap children dir args = Ok s' ->
  scopesOk s'.
Proof.
  unfold LoadDockerfile.
  assert (H0 : scopesOk (resetState (mkBuilder [] dir (default ∅ args) ∅ ∅ ∅
                                               ["/bin/sh"; "-c"] [] 2 []))).
  { unfold scopesOk. simpl. split; [set_solver|]. split; [set_solver|].
    intros k b. by rewrite lookup_empty. }
  revert H0. generalize (resetState (mkBuilder [] dir (default ∅ args) ∅ ∅ ∅
                                               ["/bin/sh"; "-c"] [] 2 [])).
  induction children as [|n children IH]; intros s Hs; simpl.
  - by intros [= <-].
  - intros (s1 & H1 & H2)%bind_Ok. apply (IH s1); [|done].
    unfold Dockerfile.readNode in H1.
    destruct (Dockerfile.dispatch _ _ _ _ n s) eqn:Ed; simplify_eq/=.
    by eapply dispatch_scopesOk.
Qed.

End Handlers.

Local Abbreviation sampleLoad :=
  (LoadDockerfile sampleProcessWord sampleUnquote sampleParseUser goAppendCap).

Lemma LoadDockerfile_ops_witness :
  ∃ s', sampleLoad [fromAlpine; argDefault; shellBash; runShell] "/ctx" None = Ok s'
        ∧ length (ops s') = 2.
Proof.
  destruct (sampleLoad [fromAlpine; argDefault; shellBash; runShell] "/ctx" None)
    as [s'| |] eqn:E; [|vm_compute in E; discriminate E..].
  exists s'. split; [reflexivity|].
  exact (proj1 (LoadDockerfile_ops _ _ _ _ _ _ _ _ E)).
Defined.

Lemma readNodes_first_error_witness :
  readNodes sampleProcessWord sampleUnquote sampleParseUser goAppendCap
            [runShell; healthcheck; runExec] emptyBuilder
  = Err (AtLine 10 "healthcheck" (UnsupportedInstruction "healthcheck")).
Proof.
  exact (readNodes_first_error sampleProcessWord sampleUnquote sampleParseUser goAppendCap
           [runShell] [runExec] healthcheck emptyBuilder _ _ eq_refl eq_refl).
Defined.

Lemma from_stage_witness :
  from sampleProcessWord fromAlpine emptyBuilder
  = Ok (add (OpFromImage "alpine:3.7" ["alpine:3.7"; "as"; "build"])
            (resetState emptyBuilder)).
Proof.
  refine (proj1 (from_stage sampleProcessWord fromAlpine emptyBuilder
                   ["alpine:3.7"; "as"; "build"] _ eq_refl eq_refl)
                "alpine:3.7" _ _).
  - discriminate.
  - discriminate.
  - right. by exists "build".
Defined.

Lemma readFlags_values_witness :
  readFlags copyFromBuild ["--chown"; "--from"] = Ok [""; "build"].
Proof.
  refine (proj1 (readFlags_values copyFromBuild ["--chown"; "--from"] _) _).
  - set_solver.
  - repeat constructor.
Defined.

Lemma copy_operation_witness :
  copy sampleProcessWord sampleParseUser copyFromBuild false emptyBuilder
  = Ok (add (OpCopyFilesFromImage "build" ["/src/app"] "/usr/bin/app" None) emptyBuilder).
Proof.
  refine (proj1 (copy_operation sampleProcessWord sampleUnquote sampleParseUser
                   copyFromBuild false emptyBuilder "" "build"
                   ["/src/app"; "/usr/bin/app"] _ _ eq_refl eq_refl)
                ["/src/app"] "/usr/bin/app" _ eq_refl).
  - discriminate.
  - repeat constructor.
  - discriminate.
Defined.

Lemma toMap_pairs_witness :
  toMap sampleUnquote ["VERSION"; "1.0"; "VERSION"; "2.0"; "HOME"] !! "VERSION"
  = Some "2.0".
Proof.
  refine (toMap_pairs sampleUnquote [("VERSION", "1.0"); ("VERSION", "2.0")] ["HOME"]
            "VERSION" _).
  simpl. lia.
Defined.

Lemma env_scoping_witness :
  ∃ s', env sampleProcessWord sampleUnquote envVersion emptyBuilder = Ok s'
        ∧ runEnvMap s' = runEnvMap emptyBuilder.
Proof.
  destruct (env sampleProcessWord sampleUnquote envVersion emptyBuilder)
    as [s'| |] eqn:E; [|vm_compute in E; discriminate E..].
  exists s'. split; [reflexivity|].
  destruct (env_scoping _ _ _ _ _ E) as (v & _ & _ & Hr & _). exact Hr.
Defined.

Lemma LoadDockerfile_scopesOk_witness :
  ∃ s', sampleLoad [fromAlpine; argDefault; envVersion; runShell] "/ctx" None = Ok s'
        ∧ scopesOk s'.
Proof.
  destruct (sampleLoad [fromAlpine; argDefault; envVersion; runShell] "/ctx" None)
    as [s'| |] eqn:E; [|vm_compute in E; discriminate E..].
  exists s'. split; [reflexivity|].
  exact (LoadDockerfile_scopesOk _ _ _ _ _ _ _ _ E).
Defined.

End DockerfileExtra.

Module ApplyFacts.
Import GoStrings Dockerfile.

Section ApplyFacts.
Context {T : Type} `{ImageBuilder T}.

Lemma applyOps_cons op l (st : nat * T) :
  applyOps (op :: l) st =
    match applyOp op st with
    | (st, Some e) => (st, Some e)
    | (st, None) => applyOps l st
    end.
Proof. reflexivity. Qed.

Lemma applyOps_app pre post (st : nat * T) :
  applyOps (pre ++ post) st =
    match applyOps pre st with
    | (st1, None) => applyOps post st1
    | r => r
    end.
Proof.
  revert st. induction pre as [|op pre IH]; intros st; [done|].
  rewrite <- app_comm_cons, !applyOps_cons.
  destruct (applyOp op st) as [st1 [e|]]; [done|apply IH].
Qed.

(** X10.  The first failing operation.  [Apply] runs the operations in order
    and stops at the first that fails: its error is returned wrapped, the
    operations after it are not run.  An ADD with a [--from] fails in this
    way without a call to the builder. *)
Theorem Apply_first_error (s : DockerfileBuilder) (pre post : list Op) (op : Op)
    (imageCount : nat) (b : T) (st1 : nat * T) :
  ops s = pre ++ op :: post ->
  applyOps pre (imageCount, b) = (st1, None) ->
  (∀ st2 e, applyOp op st1 = (st2, Some e) ->
     Apply s imageCount b = (st2, Some (ApplyDockerfile e)))
  ∧ (∀ from dir srcs dest usr, op = OpAddFiles from dir srcs dest usr -> from ≠ "" ->
     Apply s imageCount b = (st1, Some (ApplyDockerfile AddFromUnsupported))).
Proof.
  intros Hops Hpre.
  assert (Hfirst : ∀ st2 e, applyOp op st1 = (st2, Some e) ->
            Apply s imageCount b = (st2, Some (ApplyDockerfile e))).
  { intros st2 e Hop. unfold Apply. rewrite Hops, applyOps_app, Hpre, applyOps_cons.
    by rewrite Hop. }
  split; [done|].
  intros from dir srcs dest usr -> Hfrom. apply Hfirst.
  destruct st1 as [c b1]. simpl. by destruct (decide (from = "")).
Qed.

Lemma applyOps_count l : ∀ c (b : T) c' b',
  applyOps l (c, b) = (c', b', None) -> c' = c + length (filter (fun op => isFrom op = true) l).
Proof.
  induction l as [|op l IH]; intros c b c' b'.
  - simpl. intros [= <- <-]. lia.
  - rewrite applyOps_cons.
    destruct (applyOp op (c, b)) as [[c1 b1] [e|]] eqn:Eop; [intros Hl; discriminate Hl|].
    intros Hl. apply IH in Hl as ->. rewrite filter_cons.
    assert (c1 = if isFrom op then S c else c) as ->.
    { destruct op; simpl in Eop;
        repeat (case_match; simplify_eq/=; try done). }
    destruct (isFrom op); case_decide; try done; simpl; lia.
Qed.

(** X11.  Stage names.  The stages are numbered in the order of their FROM,
    counting from the stage counter [Apply] starts with: when the
    operations before a FROM succeed, the image of that FROM is named by
    the number of FROMs before it (and then by its alias, if it has one),
    and the counter moves on by one. *)
Theorem Apply_stage_names (pre : list Op) (image : string) (v : list string)
    (c c1 : nat) (b b1 b2 : T) :
  applyOps pre (c, b) = (c1, b1, None) ->
  FromImage b1 image = (b2, None) ->
  let k := c + length (filter (fun op => isFrom op = true) pre) in
  let named := BuildName b2 (pretty k) in
  applyOps (pre ++ [OpFromImage image v]) (c, b)
  = (S k, if decide (length v = 3) then BuildName named (default "" (v !! 2)) else named,
     None).
Proof.
  intros Hpre Hfrom k named. rewrite applyOps_app, Hpre.
  apply applyOps_count in Hpre as ->. rewrite applyOps_cons. simpl. by rewrite Hfrom.
Qed.

Lemma promoteMaintainer_none l m (b : T) :
  (∀ v, ("maintainer", v) ∉ l) -> promoteMaintainer l m b = (m, b, None).
Proof.
  induction l as [|[k v] l IH]; intros Hl; simpl; [done|].
  destruct (decide (k = "maintainer")) as [->|Hk].
  - destruct (Hl v). set_solver.
  - apply IH. intros v' Hv'. apply (Hl v'). set_solver.
Qed.

Lemma promoteMaintainer_some l m (b : T) a :
  NoDup l.*1 -> ("maintainer", a) ∈ l ->
  promoteMaintainer l m b =
    match SetAuthor b a with
    | (b', Some e) => (m, b', Some e)
    | (b', None) => (delete "maintainer" m, b', None)
    end.
Proof.
  induction l as [|[k v] l IH]; intros Hnd Hin; simpl; [by apply elem_of_nil in Hin|].
  simpl in Hnd. apply NoDup_cons in Hnd as [Hk Hnd].
  destruct (decide (k = "maintainer")) as [->|Hne].
  - assert (v = a) as ->.
    { apply elem_of_cons in Hin as [[= ->]|Hin]; [done|].
      destruct Hk. apply list_elem_of_fmap. by exists ("maintainer", a). }
    destruct (SetAuthor b a) as [b' [e|]]; [done|].
    apply promoteMaintainer_none. intros v' Hv'. apply Hk.
    apply list_elem_of_fmap. by exists ("maintainer", v').
  - apply IH; [done|]. apply elem_of_cons in Hin as [Heq|Hin]; [congruence|done].
Qed.

(** X12.  LABEL.  A label with the key "maintainer" sets the author and is
    not passed on as a label; [AddLabels] is called with the other labels
    when there are any, and not at all when there are none or when setting
    the author failed. *)
Theorem applyLabels_maintainer (m : gmap string string) (b : T) :
  applyLabels m b =
    match m !! "maintainer" with
    | Some a =>
        match SetAuthor b a with
        | (b', Some e) => (b', Some e)
        | (b', None) =>
            if decide (0 < size (delete "maintainer" m))
            then AddLabels b' (delete "maintainer" m) else (b', None)
        end
    | None => if decide (0 < size m) then AddLabels b m else (b, None)
    end.
Proof.
  unfold applyLabels. destruct (m !! "maintainer") as [a|] eqn:Em.
  - rewrite (promoteMaintainer_some _ m b a).
    + by destruct (SetAuthor b a) as [b' [e|]].
    + apply NoDup_fst_map_to_list.
    + by apply elem_of_map_to_list.
  - rewrite promoteMaintainer_none; [done|].
    intros v Hv%elem_of_map_to_list. congruence.
Qed.

End ApplyFacts.

Lemma Apply_first_error_witness :
  Apply twoStages 0 recorderFailRun
  = (1, mkRecorder ["FromImage golang"; "BuildName 0"; "BuildName build"; "Run"] "Run",
     Some (ApplyDockerfile (BuilderError "Run"))).
Proof.
  exact (proj1 (Apply_first_error twoStages [fromGolang]
                  [OpFromImage "alpine" ["alpine"]; OpSetCmd ["/app"]] runMake
                  0 recorderFailRun _ eq_refl eq_refl)
               _ _ eq_refl).
Defined.

Lemma Apply_stage_names_witness :
  applyOps [fromGolang; runMake; OpFromImage "alpine" ["alpine"]] (0, recorder)
  = (2, mkRecorder ["FromImage golang"; "BuildName 0"; "BuildName build"; "Run";
                    "FromImage alpine"; "BuildName 1"] "", None).
Proof.
  exact (Apply_stage_names [fromGolang; runMake] "alpine" ["alpine"] 0 _ recorder _ _
           eq_refl eq_refl).
Defined.

End ApplyFacts.

Module SpecExtra.
Import GoStrings Builder SpecFacts.

Section WithResolve.
Variable Resolve : User -> string -> result UserIds.
Variables Geteuid Getegid : N.

Local Abbreviation Spec := (Spec Resolve Geteuid Getegid).

(** X13.  PRoot options without a path.  Once a port mapping was added or an
    empty path was set, [Spec] fails for every user whose ids pass the
    range check, in rootless mode or not; the spec is left as it was. *)
Theorem Spec_without_proot_path (b : SpecBuilder) (rootfs : string) (ids : UserIds)
    (p : prootOptions) :
  proot b = Some p -> Path p = "" ->
  Resolve (user b) rootfs = Ok ids ->
  (Uid ids <= 2 ^ 32)%N -> (Gid ids <= 2 ^ 32)%N ->
  Spec b rootfs = (with_user (UserIds_User ids) b, Err NoPRootPath).
Proof.
  intros Hp Hpath HR Hu Hg. unfold Builder.Spec. rewrite HR.
  apply N.ltb_ge in Hu, Hg. rewrite Hu, Hg. simpl. rewrite Hp.
  by destruct (decide (Path p = "")).
Qed.

(** X14.  The ids of the process.  When [Spec] succeeds: with PRoot the
    process runs as 0:0 whatever the user is; without PRoot the resolved ids
    are written, unchanged when they are below 2^32.  In rootless mode the
    id mappings are replaced by the single mapping of the caller's
    effective id to the process id; otherwise they are left alone. *)
Theorem Spec_ids (b b' : SpecBuilder) (rootfs : string) (g : Generator) :
  Spec b rootfs = (b', Ok g) ->
  ∃ ids, Resolve (user b) rootfs = Ok ids
    ∧ user b' = UserIds_User ids
    ∧ (is_Some (proot b) -> ProcessUID g = 0%N ∧ ProcessGID g = 0%N)
    ∧ (proot b = None ->
       ProcessUID g = uint32 (Uid ids) ∧ ProcessGID g = uint32 (Gid ids)
       ∧ ((Uid ids < 2 ^ 32)%N -> ProcessUID g = Uid ids)
       ∧ ((Gid ids < 2 ^ 32)%N -> ProcessGID g = Gid ids))
    ∧ (rootless b = true ->
       UIDMappings g = [mkIDMapping (uint32 Geteuid) (ProcessUID g) 1]
       ∧ GIDMappings g = [mkIDMapping (uint32 Getegid) (ProcessGID g) 1])
    ∧ (rootless b = false ->
       UIDMappings g = UIDMappings (generator b)
       ∧ GIDMappings g = GIDMappings (generator b)).
Proof.
  unfold Builder.Spec. destruct (Resolve (user b) rootfs) as [ids|e] eqn:HR; [|done].
  destruct (2 ^ 32 <? Uid ids)%N; [done|]. destruct (2 ^ 32 <? Gid ids)%N; [done|].
  simpl. intros Hs. exists ids. split; [done|].
  destruct (proot b) as [p|] eqn:Hp.
  - destruct (decide (Path p = "")); [done|]. simpl in Hs.
    injection Hs as <- <-. simpl.
    split; [done|]. split; [by destruct (customSeccomp b), (rootless b)|].
    split; [done|].
    split; intros ->; by destruct (customSeccomp b).
  - destruct (rootless b && _) eqn:Er; [done|]. simpl in Hs.
    injection Hs as <- <-. simpl.
    split; [done|]. split; [by intros [? ?]|].
    split.
    { intros _.
      assert (Hu : ∀ x, (x < 2 ^ 32)%N -> uint32 x = x).
      { intros x Hx. unfold uint32. by apply N.mod_small. }
      destruct (customSeccomp b), (rootless b); simpl; repeat split; auto. }
    split; intros Hrl; rewrite Hrl in *; by destruct (customSeccomp b).
Qed.

(** X15.  What [Spec] leaves alone.  [Spec] changes the user and, on success,
    the process arguments, ids, id mappings and the seccomp profile; mounts,
    environment, annotations and capabilities stay as they are.  A seccomp
    profile set by the caller is kept, otherwise the default profile is
    generated.  On an error the spec is not changed at all. *)
Theorem Spec_frame (b b' : SpecBuilder) (rootfs : string) (r : result Generator) :
  Spec b rootfs = (b', r) ->
  entrypoint b' = entrypoint b ∧ cmd b' = cmd b ∧ proot b' = proot b
  ∧ rootless b' = rootless b ∧ customSeccomp b' = customSeccomp b
  ∧ match r with
    | Ok g =>
        generator b' = g
        ∧ Mounts g = Mounts (generator b)
        ∧ ProcessEnv g = ProcessEnv (generator b)
        ∧ Annotations g = Annotations (generator b)
        ∧ ProcessCapabilities g = ProcessCapabilities (generator b)
        ∧ LinuxSeccomp g = (if customSeccomp b then LinuxSeccomp (generator b)
                            else Some DefaultProfile)
    | Err _ => generator b' = generator b
    end.
Proof.
  unfold Builder.Spec. destruct (Resolve (user b) rootfs) as [ids|e] eqn:HR.
  2: { by intros [= <- <-]. }
  destruct (2 ^ 32 <? Uid ids)%N; [by intros [= <- <-]|].
  destruct (2 ^ 32 <? Gid ids)%N; [by intros [= <- <-]|].
  simpl. destruct (proot b) as [p|] eqn:Hp.
  - destruct (decide (Path p = "")); [by intros [= <- <-]|].
    simpl. intros [= <- <-]. simpl.
    by destruct (customSeccomp b), (rootless b).
  - destruct (rootless b && _) eqn:Er; [by intros [= <- <-]|].
    simpl. intros [= <- <-]. simpl.
    by destruct (customSeccomp b), (rootless b).
Qed.

Lemma applyEntrypoint_idempotent b : applyEntrypoint (applyEntrypoint b) = applyEntrypoint b.
Proof. by destruct b as [[] ? ? ? ? ? ?]. Qed.

(** X16.  Generating twice.  When the user written back by a successful
    [Spec] resolves to the same ids, a second [Spec] returns the same spec
    and leaves the builder as it is: neither the PRoot prefix nor the id
    mappings pile up. *)
Theorem Spec_idempotent (b b1 : SpecBuilder) (rootfs : string) (g : Generator) :
  Spec b rootfs = (b1, Ok g) ->
  Resolve (user b1) rootfs = Resolve (user b) rootfs ->
  Spec b1 rootfs = (b1, Ok g).
Proof.
  unfold Builder.Spec. intros Hs HR2. rewrite HR2.
  destruct (Resolve (user b) rootfs) as [ids|e] eqn:HR; [|done].
  destruct (2 ^ 32 <? Uid ids)%N eqn:Eu; [done|].
  destruct (2 ^ 32 <? Gid ids)%N eqn:Eg; [done|].
  simpl in *. destruct b as [gen ep cm us cs pr rl]. simpl in *.
  destruct pr as [p|].
  - destruct (decide (Path p = "")) as [|Hpath]; [done|]. simpl in Hs.
    injection Hs as <- <-. simpl.
    destruct (decide (Path p = "")); [done|]. simpl.
    destruct gen, cs, rl; reflexivity.
  - destruct (rl && _) eqn:Er; [done|]. simpl in Hs.
    injection Hs as <- <-. simpl. rewrite Er. simpl.
    destruct gen, cs, rl; reflexivity.
Qed.

End WithResolve.

(** X17.  Entrypoint and command.  Setting the entrypoint drops the command
    set before it; a command set after the entrypoint is appended to it.
    With PRoot both follow the same PRoot prefix. *)
Theorem entrypoint_resets_cmd (e c : option (list string)) (b : SpecBuilder) :
  let pre :=
    ProcessArgs (generator (applyEntrypoint
                              (SetProcessCmd None (SetProcessEntrypoint None b)))) in
  cmd (SetProcessEntrypoint e (SetProcessCmd c b)) = None
  ∧ ProcessArgs (generator (applyEntrypoint (SetProcessEntrypoint e (SetProcessCmd c b))))
    = pre ++ default [] e
  ∧ ProcessArgs (generator (applyEntrypoint (SetProcessCmd c (SetProcessEntrypoint e b))))
    = pre ++ default [] e ++ default [] c.
Proof.
  intros pre. unfold pre. rewrite !applyEntrypoint_args. simpl.
  split; [done|]. destruct (proot b); simpl; rewrite ?app_nil_r.
  - by rewrite <- !app_assoc.
  - done.
Qed.

(** X18.  PRoot path and port mappings.  The path and the port mappings can be
    set in either order with the same result, and the mappings are kept in
    the order they were added.  A second path replaces the first in the
    PRoot options, but the mounts added for the first path stay in the
    spec: [/dev/proot] and [/dev/proot/proot] are then mounted twice. *)
Theorem proot_options_order (path path' published target : string) (b : SpecBuilder) :
  SetPRootPath path (AddPRootPortMapping published target b)
  = AddPRootPortMapping published target (SetPRootPath path b)
  ∧ proot (AddPRootPortMapping published target (SetPRootPath path b))
    = Some (mkPRoot path (default [] (Ports <$> proot b) ++ [published +:+ ":" +:+ target]))
  ∧ proot (SetPRootPath path' (SetPRootPath path b))
    = Some (mkPRoot path' (default [] (Ports <$> proot b)))
  ∧ Mounts (generator (SetPRootPath path' (SetPRootPath path b)))
    = Mounts (generator b)
      ++ [mkMount "/dev/proot" "tmpfs" "tmpfs" ["exec"; "mode=755"; "size=32256k"];
          mkMount "/dev/proot/proot" "bind" path ["bind"; "ro"];
          mkMount "/dev/proot" "tmpfs" "tmpfs" ["exec"; "mode=755"; "size=32256k"];
          mkMount "/dev/proot/proot" "bind" path' ["bind"; "ro"]].
Proof.
  split; [|split; [|split]].
  - unfold SetPRootPath, AddPRootPortMapping. simpl. by destruct (proot b).
  - unfold SetPRootPath, AddPRootPortMapping. simpl. by destruct (proot b).
  - unfold SetPRootPath, AddPRootPortMapping. simpl. by destruct (proot b).
  - unfold SetPRootPath.
    cbn [generator with_generator with_proot].
    rewrite !Mounts_AddProcessCapability, !Mounts_AddProcessEnv.
    unfold AddBindMount, AddTmpfsMount. simpl.
    rewrite ?Mounts_AddProcessCapability, ?Mounts_AddProcessEnv. simpl.
    by rewrite <- ?app_assoc.
Qed.

Lemma Spec_without_proot_path_witness :
  snd (Spec (resolveTo 0 0) 1000 1000 (AddPRootPortMapping "8080" "80" rootlessBuilder)
            "/rootfs")
  = Err NoPRootPath.
Proof.
  refine (f_equal snd
            (Spec_without_proot_path (resolveTo 0 0) 1000 1000
               (AddPRootPortMapping "8080" "80" rootlessBuilder) "/rootfs"
               (mkUserIds 0 0) (mkPRoot "" ["8080:80"]) eq_refl eq_refl eq_refl _ _));
    by vm_compute.
Defined.

Lemma Spec_ids_witness :
  ∃ b' g, Spec (resolveTo 1000 1000) 1000 1000 prootBuilder "/rootfs" = (b', Ok g)
          ∧ ProcessUID g = 0%N ∧ ProcessGID g = 0%N.
Proof.
  destruct (Spec (resolveTo 1000 1000) 1000 1000 prootBuilder "/rootfs")
    as [b' [g|e]] eqn:E; [|vm_compute in E; discriminate E].
  exists b', g. split; [reflexivity|].
  destruct (Spec_ids _ _ _ _ _ _ _ E) as (ids & _ & _ & Hp & _).
  apply Hp. by eexists.
Defined.

Lemma Spec_frame_witness :
  ∃ b' g, Spec (resolveTo 0 0) 1000 1000 rootlessBuilder "/rootfs" = (b', Ok g)
          ∧ Mounts g = Mounts (generator rootlessBuilder).
Proof.
  destruct (Spec (resolveTo 0 0) 1000 1000 rootlessBuilder "/rootfs")
    as [b' [g|e]] eqn:E; [|vm_compute in E; discriminate E].
  exists b', g. split; [reflexivity|].
  destruct (Spec_frame _ _ _ _ _ _ _ E) as (_ & _ & _ & _ & _ & _ & Hm & _).
  exact Hm.
Defined.

Lemma Spec_idempotent_witness :
  ∃ b1 g, Spec (resolveTo 1000 1000) 1000 1000 prootBuilder "/rootfs" = (b1, Ok g)
          ∧ Spec (resolveTo 1000 1000) 1000 1000 b1 "/rootfs" = (b1, Ok g).
Proof.
  destruct (Spec (resolveTo 1000 1000) 1000 1000 prootBuilder "/rootfs")
    as [b1 [g|e]] eqn:E; [|vm_compute in E; discriminate E].
  exists b1, g. split; [reflexivity|].
  exact (Spec_idempotent _ _ _ _ _ _ _ E eq_refl).
Defined.

End SpecExtra.

Module EngineExtra.
Import ImageBuilder ImageBuilderFacts.

Section EngineExtra.
Context {S C B : Type} `{ImageStoreRW S} `{ImageNames S} `{ImageBuildCache C}
        `{BundleStore B} `{GoLib}.

Local Abbreviation State := (BuildState S C B).
Local Abbreviation safe := (@safe S C B).

(** [emit] only extends the trace. *)
Ltac emit_norm key b :=
  change (parentImgId (emit (Println key) b)) with (parentImgId b);
  change (cache (emit (Println key) b)) with (cache b);
  change (images (emit (Println key) b)) with (images b).

Lemma commitConfig_safe comment : safe (commitConfig comment).
Proof.
  intros b. unfold commitConfig.
  destruct (AddImageConfig _ _ _) as [imgs [img|e]]; simpl; [|done].
  destruct (snd (Config img)); simpl; split; done.
Qed.

Lemma commitLayer_safe comment (b : State) :
  is_Some (bundle b) ->
  snd (commitLayer comment b) ≠ Panicked
  ∧ (snd (commitLayer comment b) = Done -> is_Some (image (fst (commitLayer comment b)))).
Proof.
  intros [bd Hb]. unfold commitLayer. simpl. rewrite Hb.
  destruct (AddImageLayer _ _ _ _ _) as [imgs [img|e]]; simpl; [|done].
  destruct (snd (Config img)); simpl; [done|].
  destruct (SetParentImageId bd (ID img)) as [bd' [e|]]; simpl; split; done.
Qed.

Lemma initBundle_bundle cmd (b b' : State) :
  initBundle cmd b = (b', None) -> is_Some (bundle b').
Proof.
  unfold initBundle. destruct (bundle b) as [bd|] eqn:Eb.
  - destruct (decide (cmd = "")); [intros [= <-]; by rewrite Eb|].
    destruct (BundleSpec bd); [done|]. intros [= <-]. by eexists.
  - destruct (CreateBundle _ _ _ _); [|done]. intros [= <-]. by eexists.
Qed.

Lemma cached_safe key (call : string -> State -> State * outcome) :
  safe (call key) -> safe (cached key call).
Proof.
  intros Hcall b. unfold cached.
  assert (Hbuild : ∀ parent (b0 : State),
            snd (build key call parent b0) ≠ Panicked
            ∧ (snd (build key call parent b0) = Done ->
               is_Some (image (fst (build key call parent b0))))).
  { intros parent b0. unfold build.
    destruct (Hcall (emit (Println "  -> building ...") b0)) as [Hp Hd].
    destruct (call key _) as [b1 [|e|]]; simpl in *.
    - destruct (Hd eq_refl) as [img Himg]. rewrite Himg.
      destruct (Put _ _ _ _) as [c [pe|]]; simpl.
      + by destruct (releaseBundle _ pe).
      + split; [done|]. intros _. by eexists.
    - by destruct (releaseBundle b1 e).
    - done. }
  destruct (Get _ _ _) as [d|e].
  - destruct (ImageById _ _) as [img|e]; [|apply Hbuild].
    simpl. destruct (snd (Config img)); simpl; split; done.
  - destruct e as [| |[] m|]; simpl; try done; apply Hbuild.
Qed.

Lemma Run_action_safe cmd (comment : string) :
  safe (fun b : State =>
          match initBundle cmd b with
          | (b, Some e) => (b, Failed e)
          | (b, None) =>
              match bundle b with
              | None => (b, Panicked)
              | Some bd =>
                  match NewContainer bd (rootless b) with
                  | Some e => (b, Failed e)
                  | None =>
                      closeContainer bd
                        match StartAndWait bd with
                        | Some e => (b, Failed e)
                        | None => commitLayer comment b
                        end
                  end
              end
          end).
Proof.
  intros b. destruct (initBundle cmd b) as [b1 [e|]] eqn:Ei; [done|].
  pose proof (initBundle_bundle _ _ _ Ei) as [bd Hb]. rewrite Hb.
  destruct (NewContainer bd (rootless b1)); [done|].
  destruct (StartAndWait bd); simpl.
  - unfold closeContainer. by destruct (CloseContainer bd).
  - destruct (commitLayer_safe comment b1 ltac:(by eexists)) as [Hp Hd].
    unfold closeContainer.
    destruct (commitLayer comment b1) as [b2 [|e|]]; simpl in *;
      destruct (CloseContainer bd); simpl; split; try done.
Qed.

Lemma SetAuthor_safe author : safe (SetAuthor author).
Proof. intros b. unfold SetAuthor. apply cached_safe, commitConfig_safe. Qed.

Lemma SetWorkingDir_safe dir : safe (SetWorkingDir dir).
Proof. intros b. unfold SetWorkingDir. apply cached_safe, commitConfig_safe. Qed.

Lemma SetEntrypoint_safe v : safe (SetEntrypoint v).
Proof.
  intros b. unfold SetEntrypoint. destruct (json_Marshal v); [|done].
  apply cached_safe, commitConfig_safe.
Qed.

Lemma SetCmd_safe v : safe (SetCmd v).
Proof.
  intros b. unfold SetCmd. destruct (json_Marshal v); [|done].
  apply cached_safe, commitConfig_safe.
Qed.

Lemma Run_safe cmd : safe (Run cmd).
Proof.
  intros b. unfold Run. destruct (image b); [|done].
  apply (cached_safe _ (fun comment b => _)), Run_action_safe.
Qed.

Lemma CopyFile_safe contextDir patterns dest root :
  safe (CopyFile contextDir patterns dest root).
Proof.
  intros b. unfold CopyFile.
  destruct (initBundle "" b) as [b1 [e|]] eqn:Ei;
    [simpl; by destruct (releaseBundle b1 e)|].
  pose proof (initBundle_bundle _ _ _ Ei) as [bd Hb]. rewrite Hb.
  destruct (FsAdd bd contextDir patterns dest);
    [simpl; by destruct (releaseBundle b1 _)|].
  destruct (commitLayer_safe copyFileComment b1 ltac:(by eexists)) as [Hp Hd].
  destruct (commitLayer copyFileComment b1) as [b2 [|e|]]; simpl in *; try done.
  by destruct (releaseBundle b2 e).
Qed.

(** X19.  No panic.  The build steps [SetAuthor], [SetWorkingDir],
    [SetEntrypoint], [SetCmd], [Run] and [CopyFile] never dereference a nil
    image or bundle, whatever the stores answer, and when one of them
    succeeds the builder holds an image. *)
Theorem steps_never_panic (author dir cmd contextDir dest root : string)
    (v : option (list string)) (patterns : list string) :
  safe (SetAuthor author) ∧ safe (SetWorkingDir dir)
  ∧ safe (SetEntrypoint v) ∧ safe (SetCmd v)
  ∧ safe (Run cmd)
  ∧ safe (CopyFile contextDir patterns dest root).
Proof.
  split; [apply SetAuthor_safe|]. split; [apply SetWorkingDir_safe|].
  split; [apply SetEntrypoint_safe|]. split; [apply SetCmd_safe|].
  split; [apply Run_safe|apply CopyFile_safe].
Qed.

(** X20.  Rebuilding.  A step built after a miss is found again: with a cache
    that returns what was put and a store that still has the image, the
    same step on the same parent image is a hit, whatever action is passed:
    the action is not run and the builder gets the image built before. *)
Theorem rebuild_hits_cache (key : string) (call : string -> State -> State * outcome)
    (b b1 : State) (img : Image) :
  miss key b ->
  call key (emit (Println "  -> building ...") (emit (Println key) b)) = (b1, Done) ->
  image b1 = Some img ->
  snd (Put (cache b1) (parentImgId b) key (ID img)) = None ->
  Get (fst (Put (cache b1) (parentImgId b) key (ID img))) (parentImgId b) key
  = Ok (ID img) ->
  ∀ b2 : State,
    cache b2 = cache (fst (cached key call b)) ->
    parentImgId b2 = parentImgId b ->
    ImageById (images b2) (ID img) = Ok img ->
    ∀ call',
      image (fst (cached key call' b2)) = Some img
      ∧ trace (fst (cached key call' b2))
        = trace b2 ++ [Println key] ++
          match snd (Config img) with
          | None => [Println ("  -> using cached image " +:+ ID img)]
          | Some _ => []
          end
      ∧ ∀ call'', cached key call'' b2 = cached key call' b2.
Proof.
  intros Hm Hcall Himg Hput Hget b2 Hc Hp Hid call'.
  assert (Ec : cache b2 = fst (Put (cache b1) (parentImgId b) key (ID img))).
  { rewrite Hc, (cached_miss key call b Hm).
    by destruct (build_done_puts key call (parentImgId b) _ b1 img Hcall Himg) as [-> _]. }
  assert (Hhit : ∀ f, cached key f b2 =
            let '(b3, e) := setImage img (emit (Println key) b2) in
            match e with
            | Some e => (b3, Failed (ErrWrap e "cached image"))
            | None => (emit (Println ("  -> using cached image " +:+ ID img)) b3, Done)
            end).
  { intros f. unfold cached. emit_norm key b2. by rewrite Ec, Hp, Hget, Hid. }
  split; [|split].
  - rewrite Hhit. unfold setImage. simpl. by destruct (snd (Config img)).
  - rewrite Hhit. unfold setImage. simpl.
    destruct (snd (Config img)); simpl; [done|by rewrite <- app_assoc].
  - intros call''. by rewrite !Hhit.
Qed.

Lemma commitLayer_keeps_bundle comment (b : State) :
  is_Some (bundle b) -> is_Some (bundle (fst (commitLayer comment b))).
Proof.
  intros [bd Hb]. unfold commitLayer. simpl. rewrite Hb.
  destruct (AddImageLayer _ _ _ _ _) as [imgs [img|e]]; simpl; [|by eexists].
  destruct (snd (Config img)); simpl; [by eexists|].
  destruct (SetParentImageId bd (ID img)); simpl. by eexists.
Qed.

(** X21.  A failed COPY.  When [CopyFile] fails the builder holds no bundle
    any more, the error is wrapped as "copy file into image", and if the
    builder held a bundle before, a bundle was closed. *)
Theorem CopyFile_failure (contextDir : string) (patterns : list string)
    (dest root : string) (b b' : State) (e : error) :
  CopyFile contextDir patterns dest root b = (b', Failed e) ->
  bundle b' = None
  ∧ (∃ e0, e = ErrWrap e0 "copy file into image")
  ∧ (is_Some (bundle b) -> ∃ bd, BundleClosed bd ∈ trace b').
Proof.
  unfold CopyFile.
  set (r := match initBundle "" b with
            | (b0, Some e0) => (b0, Failed e0)
            | (b0, None) =>
                match bundle b0 with
                | Some bd =>
                    match FsAdd bd contextDir patterns dest with
                    | Some e0 => (b0, Failed e0)
                    | None => commitLayer copyFileComment b0
                    end
                | None => (b0, Panicked)
                end
            end).
  assert (Hkeep : is_Some (bundle b) -> is_Some (bundle (fst r))).
  { intros [bd Hb]. unfold r, initBundle. rewrite Hb. simpl. rewrite Hb.
    destruct (FsAdd bd contextDir patterns dest); simpl; [by eexists|].
    apply commitLayer_keeps_bundle. by eexists. }
  destruct r as [b0 [|e0|]]; [done| |done]. simpl in Hkeep.
  destruct (releaseBundle b0 e0) as [b1 e1] eqn:Er. intros [= <- <-].
  assert (b1 = fst (releaseBundle b0 e0)) as -> by (by rewrite Er).
  split; [apply releaseBundle_bundle|]. split; [by eexists|].
  intros Hb. destruct (Hkeep Hb) as [bd Hbd]. exists bd.
  by apply releaseBundle_closed.
Qed.

(** *** The list of build steps *)

Local Abbreviation keepsImage := (@keepsImage S C B).

Lemma releaseBundle_image (b : State) e :
  image (fst (releaseBundle b e)) = image b.
Proof. unfold releaseBundle. by destruct (bundle b). Qed.

Lemma initBundle_image cmd (b : State) :
  image (fst (initBundle cmd b)) = image b.
Proof.
  unfold initBundle. destruct (bundle b).
  - destruct (decide (cmd = "")); [done|]. by destruct (BundleSpec _).
  - by destruct (CreateBundle _ _ _ _).
Qed.

Lemma commitConfig_keeps comment : keepsImage (commitConfig comment).
Proof.
  intros b Hb. unfold commitConfig.
  destruct (AddImageConfig _ _ _) as [imgs [img|e]]; simpl; [by eexists|done].
Qed.

Lemma commitLayer_keeps comment : keepsImage (commitLayer comment).
Proof.
  intros b Hb. unfold commitLayer. simpl. destruct (bundle b) as [bd|]; [|done].
  destruct (AddImageLayer _ _ _ _ _) as [imgs [img|e]]; simpl; [|done].
  destruct (snd (Config img)); simpl; [by eexists|].
  destruct (SetParentImageId bd (ID img)); simpl. by eexists.
Qed.

Lemma cached_keeps key (call : string -> State -> State * outcome) :
  keepsImage (call key) -> keepsImage (cached key call).
Proof.
  intros Hcall b Hb. unfold cached.
  assert (Hbuild : ∀ parent (b0 : State), is_Some (image b0) ->
            is_Some (image (fst (build key call parent b0)))).
  { intros parent b0 Hb0. unfold build.
    pose proof (Hcall (emit (Println "  -> building ...") b0) Hb0) as Hi.
    destruct (call key _) as [b1 [|e|]]; simpl in *.
    - destruct Hi as [img Himg]. rewrite Himg.
      destruct (Put _ _ _ _) as [c [pe|]]; simpl; [|by eexists].
      pose proof (releaseBundle_image
        (emit (Println ("  -> built image " +:+ ID img)) (with_cache c b1)) pe) as Hr.
      destruct (releaseBundle _ pe). simpl in *. rewrite Hr, Himg. by eexists.
    - pose proof (releaseBundle_image b1 e) as Hr.
      destruct (releaseBundle b1 e). simpl in *. by rewrite Hr.
    - done. }
  destruct (Get _ _ _) as [d|e].
  - destruct (ImageById _ _) as [img|e]; [|by apply Hbuild].
    simpl. destruct (snd (Config img)); simpl; by eexists.
  - destruct e as [| |[] m|]; simpl; try done; by apply Hbuild.
Qed.

Lemma Run_keeps cmd : keepsImage (Run cmd).
Proof.
  intros b Hb. unfold Run. destruct (image b) eqn:Ei; [|by destruct Hb].
  apply (cached_keeps _ (fun comment b => _)); [|by rewrite Ei].
  intros b0 Hb0. pose proof (initBundle_image cmd b0) as Hi.
  destruct (initBundle cmd b0) as [b1 [e|]]; simpl in *; [by rewrite Hi|].
  destruct (bundle b1) as [bd|]; simpl; [|by rewrite Hi].
  destruct (NewContainer bd (rootless b1)); simpl; [by rewrite Hi|].
  assert (Hc : ∀ r : State * outcome, fst (closeContainer bd r) = fst r).
  { intros [b2 [|e|]]; unfold closeContainer; by destruct (CloseContainer bd). }
  rewrite Hc. destruct (StartAndWait bd); simpl; [by rewrite Hi|].
  apply commitLayer_keeps. by rewrite Hi.
Qed.

Lemma FromImage_safe name : safe (FromImage name).
Proof.
  intros b. unfold FromImage. destruct (image b); [done|].
  destruct (ImageByName _ _) as [img|e0].
  - simpl. destruct (snd (Config img)); simpl; split; done.
  - destruct (ImportImage _ _) as [imgs [img|e]]; simpl; [|done].
    destruct (snd (Config img)); simpl; split; done.
Qed.

Lemma Tag_safe tag : safe (Tag tag).
Proof.
  intros b. unfold Tag. destruct (image b); [|done].
  destruct (TagImage _ _ _) as [imgs [img|e]]; simpl; split; done.
Qed.

Lemma runStep_safe step : isAuthorStep step = false -> safe (runStep step).
Proof.
  destruct step; [|done|..]; intros _; simpl.
  - apply FromImage_safe.
  - apply SetWorkingDir_safe.
  - apply SetEntrypoint_safe.
  - apply SetCmd_safe.
  - apply Run_safe.
  - apply Tag_safe.
Qed.

(** The step of an AUTHOR instruction always reports success. *)
Lemma runStep_author step (b : State) :
  isAuthorStep step = true -> snd (runStep step b) = Done.
Proof.
  destruct step; try done. intros _. simpl.
  destruct (SetAuthor_safe author b) as [Hp _].
  by destruct (SetAuthor author b) as [b1 [|e|]].
Qed.

Lemma runStep_keeps step : keepsImage (runStep step).
Proof.
  intros b Hb. destruct step; simpl.
  - unfold FromImage. destruct Hb as [img Hb]. rewrite Hb. simpl. by rewrite Hb.
  - assert (Hk : is_Some (image (fst (SetAuthor author b)))).
    { unfold SetAuthor. apply cached_keeps; [apply commitConfig_keeps|done]. }
    by destruct (SetAuthor author b) as [b1 [|e|]].
  - unfold SetWorkingDir. apply cached_keeps; [apply commitConfig_keeps|done].
  - unfold SetEntrypoint. destruct (json_Marshal _); [|done].
    apply cached_keeps; [apply commitConfig_keeps|done].
  - unfold SetCmd. destruct (json_Marshal _); [|done].
    apply cached_keeps; [apply commitConfig_keeps|done].
  - by apply Run_keeps.
  - unfold Tag. destruct Hb as [cur Hb]. rewrite Hb.
    destruct (TagImage _ _ _) as [imgs [img|e]]; simpl; [by eexists|by rewrite Hb].
Qed.

Lemma runStep_no_panic step (b : State) :
  snd (runStep step b) ≠ Panicked.
Proof.
  destruct (isAuthorStep step) eqn:Ea.
  - by rewrite runStep_author.
  - by apply runStep_safe.
Qed.

Lemma runSteps_cons step steps (b : State) :
  runSteps (step :: steps) b
  = match runStep step b with
    | (b, Done) => runSteps steps b
    | r => r
    end.
Proof. done. Qed.

Lemma runSteps_app pre post (b : State) :
  runSteps (pre ++ post) b
  = match runSteps pre b with
    | (b, Done) => runSteps post b
    | r => r
    end.
Proof.
  revert b. induction pre as [|s pre IH]; intros b; [done|].
  rewrite <- app_comm_cons, !runSteps_cons.
  destruct (runStep s b) as [b1 [|e|]]; [apply IH|done..].
Qed.

(** Once the builder holds an image, no further step panics or drops it. *)
Lemma runSteps_image steps :
  ∀ b : State, is_Some (image b) ->
    snd (runSteps steps b) ≠ Panicked ∧ is_Some (image (fst (runSteps steps b))).
Proof.
  induction steps as [|s steps IH]; intros b Hb; [done|].
  rewrite runSteps_cons.
  pose proof (runStep_no_panic s b) as Hp. pose proof (runStep_keeps s b Hb) as Hk.
  destruct (runStep s b) as [b1 [|e|]]; simpl in *; [by apply IH|done..].
Qed.

Lemma runSteps_other steps :
  ∀ b : State, (∃ s, s ∈ steps ∧ isAuthorStep s = false) ->
    snd (runSteps steps b) ≠ Panicked
    ∧ (snd (runSteps steps b) = Done -> is_Some (image (fst (runSteps steps b)))).
Proof.
  induction steps as [|s steps IH]; intros b (s0 & Hin & Hs0); [by apply elem_of_nil in Hin|].
  rewrite runSteps_cons. destruct (isAuthorStep s) eqn:Ea.
  - pose proof (runStep_author s b Ea) as Hd.
    destruct (runStep s b) as [b1 o]. simpl in Hd. subst o.
    apply IH. exists s0. split; [|done].
    apply elem_of_cons in Hin as [->|Hin]; [congruence|done].
  - destruct (runStep_safe s Ea b) as [Hp Hd].
    destruct (runStep s b) as [b1 [|e|]]; simpl in *; [|done..].
    destruct (runSteps_image steps b1 (Hd eq_refl)) as [Hp' Hi]. by split.
Qed.

(** X22.  Builds that cannot panic.  When at least one step is not an AUTHOR
    step, [Build] does not panic: it fails, or it succeeds and returns an
    image, namely the one the builder holds at the end. *)
Theorem Build_no_panic (steps : list Step) (imgs : S) (c : C) (rl : bool) (pr : string) :
  (∃ s, s ∈ steps ∧ isAuthorStep s = false) ->
  snd (Build steps imgs c rl pr) ≠ Panicked
  ∧ (snd (Build steps imgs c rl pr) = Done ->
     is_Some (snd (fst (Build steps imgs c rl pr)))
     ∧ snd (fst (Build steps imgs c rl pr))
       = image (fst (fst (Build steps imgs c rl pr)))).
Proof.
  intros Hs. unfold Build.
  destruct (runSteps_other steps (NewBuildState imgs c rl pr) Hs) as [Hp Hd].
  destruct steps as [|s steps]; [by destruct Hs as (s & Hin%elem_of_nil & _)|].
  destruct (runSteps (s :: steps) _) as [b1 [|e|]]; simpl in *; [| |done].
  - destruct (Hd eq_refl) as [img Himg]. rewrite Himg. unfold CloseState.
    destruct (bundle b1) as [bd|]; simpl; [|by split; [|split; [eexists|]]].
    destruct (Close bd); simpl; [done|]. by split; [|split; [eexists|]].
  - unfold CloseState. destruct (bundle b1) as [bd|]; simpl; [|done].
    by destruct (Close bd).
Qed.

(** X23.  The first failing step ends the build.  When the steps before a
    step succeed and the step fails, [Build] runs none of the steps after
    it: the result is that of the build without them, it holds no image,
    and its error is wrapped as "build image". *)
Theorem Build_stops_at_failure (pre post : list Step) (step : Step)
    (imgs : S) (c : C) (rl : bool) (pr : string) (b b' : State) (e : error) :
  runSteps pre (NewBuildState imgs c rl pr) = (b, Done) ->
  runStep step b = (b', Failed e) ->
  Build (pre ++ step :: post) imgs c rl pr = Build (pre ++ [step]) imgs c rl pr
  ∧ snd (fst (Build (pre ++ step :: post) imgs c rl pr)) = None
  ∧ ∃ e0, snd (Build (pre ++ step :: post) imgs c rl pr)
          = Failed (ErrWrap e0 "build image").
Proof.
  intros Hpre Hstep.
  assert (Hrun : ∀ post', runSteps (pre ++ step :: post') (NewBuildState imgs c rl pr)
                          = (b', Failed e)).
  { intros post'. by rewrite runSteps_app, Hpre, runSteps_cons, Hstep. }
  assert (Hb : ∀ post', Build (pre ++ step :: post') imgs c rl pr
                 = let '(state, ce) := CloseState b' in
                   (state, None,
                    wrap "build image"
                      match ce with
                      | Some ce => Failed (ErrMulti [e; ce])
                      | None => Failed e
                      end)).
  { intros post'. unfold Build. rewrite Hrun.
    by destruct (pre ++ step :: post') eqn:El; [destruct pre|]. }
  rewrite !Hb. split; [done|].
  destruct (CloseState b') as [st [ce|]]; simpl; split; by eauto.
Qed.

(** X24.  FROM comes first.  A build in which FROM follows a step that is not
    an AUTHOR step never succeeds and never panics. *)
Theorem Build_late_FROM (pre post : list Step) (name : string)
    (imgs : S) (c : C) (rl : bool) (pr : string) :
  (∃ s, s ∈ pre ∧ isAuthorStep s = false) ->
  ∃ e, snd (Build (pre ++ StepFromImage name :: post) imgs c rl pr) = Failed e.
Proof.
  intros Hs.
  assert (Hrun : ∃ b e, runSteps (pre ++ StepFromImage name :: post)
                          (NewBuildState imgs c rl pr) = (b, Failed e)).
  { rewrite runSteps_app.
    destruct (runSteps_other pre (NewBuildState imgs c rl pr) Hs) as [Hp Hd].
    destruct (runSteps pre _) as [b1 [|e|]]; simpl in Hp, Hd; [|by eauto|done].
    destruct (Hd eq_refl) as [img Himg].
    rewrite runSteps_cons. simpl. unfold FromImage. rewrite Himg. by eauto. }
  destruct Hrun as (b & e & Hrun). unfold Build. rewrite Hrun.
  destruct (pre ++ StepFromImage name :: post) eqn:El; [by destruct pre|].
  destruct (CloseState b) as [st [ce|]]; simpl; by eauto.
Qed.

Lemma SetAuthor_no_image author (b : State) :
  (∀ s d, ∃ e, ImageById s d = Err e) ->
  (∀ s cfg parent, ∃ e, snd (AddImageConfig s cfg parent) = Err e) ->
  image b = None -> image (fst (SetAuthor author b)) = None.
Proof.
  intros Hload Hadd Hb. unfold SetAuthor, cached.
  set (b0 := emit _ (with_config _ b)).
  assert (Hb0 : image b0 = None) by done.
  assert (Hbuild : ∀ parent,
            image (fst (build ("AUTHOR " +:+ author) commitConfig parent b0)) = None).
  { intros parent. unfold build, commitConfig.
    set (b1 := with_config _ (emit _ b0)).
    destruct (Hadd (images b1) (config b1) (parentImgId b1)) as [e He].
    destruct (AddImageConfig _ _ _) as [imgs r]. simpl in He. subst r.
    pose proof (releaseBundle_image (with_images imgs b1) (ErrWrap e "commit config")) as Hr.
    destruct (releaseBundle _ _). simpl in *. by rewrite Hr. }
  destruct (Get _ _ _) as [d|e].
  - destruct (Hload (images b0) d) as [e ->]. apply Hbuild.
  - destruct e as [| |[] m|]; simpl; try done; apply Hbuild.
Qed.

(** X25.  A build of AUTHOR steps only.  The step of an AUTHOR instruction
    drops the error of [SetAuthor].  With an image store that cannot load
    or store an image, a build that consists of AUTHOR steps reaches its
    end without an image and [Build] panics on [*state.image] instead of
    returning an error. *)
Theorem Build_author_only_panics (authors : list string)
    (imgs : S) (c : C) (rl : bool) (pr : string) :
  authors ≠ [] ->
  (∀ s d, ∃ e, ImageById s d = Err e) ->
  (∀ s cfg parent, ∃ e, snd (AddImageConfig s cfg parent) = Err e) ->
  snd (Build (StepSetAuthor <$> authors) imgs c rl pr) = Panicked.
Proof.
  intros Hne Hload Hadd.
  assert (Hrun : ∀ l (b : State), image b = None ->
            ∃ b', runSteps (StepSetAuthor <$> l) b = (b', Done) ∧ image b' = None).
  { induction l as [|a l IH]; intros b Hb; [by exists b|].
    rewrite fmap_cons, runSteps_cons.
    pose proof (runStep_author (StepSetAuthor a) b eq_refl) as Hd.
    pose proof (SetAuthor_no_image a b Hload Hadd Hb) as Hi.
    assert (Hs : fst (runStep (StepSetAuthor a) b) = fst (SetAuthor a b)).
    { simpl. by destruct (SetAuthor a b) as [b1 [|e|]]. }
    destruct (runStep (StepSetAuthor a) b) as [b1 o]. simpl in *. subst o.
    apply IH. by rewrite Hs. }
  destruct (Hrun authors (NewBuildState imgs c rl pr) eq_refl) as (b' & Hr & Hb').
  unfold Build. rewrite Hr, Hb'.
  destruct authors as [|a l]; [done|]. rewrite fmap_cons.
  unfold CloseState. by destruct (bundle b') as [bd|]; simpl.
Qed.

End EngineExtra.

Lemma rebuild_hits_cache_witness :
  ∃ img, image builtState = Some img
         ∧ image (fst (cached "AUTHOR Max" failingStep rebuildState)) = Some img.
Proof.
  eexists. split; [reflexivity|].
  refine (proj1 (rebuild_hits_cache "AUTHOR Max" commitConfig sampleState _ _ _
                   eq_refl eq_refl eq_refl eq_refl rebuildState eq_refl eq_refl eq_refl
                   failingStep)).
  left. by eexists.
Defined.

Lemma CopyFile_failure_witness :
  bundle (fst (CopyFile "/ctx" ["app"] "/usr/bin/" "/" brokenState)) = None.
Proof.
  refine (proj1 (CopyFile_failure "/ctx" ["app"] "/usr/bin/" "/" brokenState
                   (fst (CopyFile "/ctx" ["app"] "/usr/bin/" "/" brokenState)) _ _)).
  reflexivity.
Defined.

Lemma Build_no_panic_witness :
  snd (Build (B := SampleBundle) [StepFromImage "alpine"; StepRun "make"]
             ([] : list Image) ∅ false "") ≠ Panicked.
Proof.
  refine (proj1 (Build_no_panic [StepFromImage "alpine"; StepRun "make"] _ _ _ _ _)).
  exists (StepRun "make"). split; [|reflexivity]. repeat constructor.
Defined.

Lemma Build_stops_at_failure_witness :
  Build (B := SampleBundle) [StepRun "make"; StepTag "app"] ([] : list Image) ∅ false ""
  = Build [StepRun "make"] [] ∅ false "".
Proof.
  exact (proj1 (Build_stops_at_failure [] [StepTag "app"] (StepRun "make")
                  [] ∅ false "" _ _ _ eq_refl eq_refl)).
Defined.

Lemma Build_late_FROM_witness :
  ∃ e, snd (Build (B := SampleBundle)
                  [StepFromImage "golang"; StepSetWorkingDir "/src"; StepFromImage "alpine"]
                  ([] : list Image) ∅ false "") = Failed e.
Proof.
  refine (Build_late_FROM [StepFromImage "golang"; StepSetWorkingDir "/src"] [] "alpine"
            _ _ _ _ _).
  exists (StepFromImage "golang"). split; [|reflexivity]. repeat constructor.
Defined.

Lemma Build_author_only_panics_witness :
  snd (Build (B := SampleBundle) [StepSetAuthor "Max"] tt ∅ false "") = Panicked.
Proof.
  refine (Build_author_only_panics ["Max"] tt _ _ _ _ _ _).
  - discriminate.
  - intros s d. by eexists.
  - intros s cfg parent. by eexists.
Defined.

End EngineExtra.

Module LockExtra.
Import Lock LockFacts.

(** Rounds that do not end the loop are skipped. *)
Lemma lockLoop_skip env n :
  ∀ k fuel, (∀ i, k <= i < k + n -> ¬ endsAt env i) ->
    lockLoop env (n + fuel) k = lockLoop env fuel (k + n).
Proof.
  induction n as [|n IH]; intros k fuel Hbusy.
  - by rewrite Nat.add_0_r.
  - assert (Hk : ¬ endsAt env k) by (apply Hbusy; lia).
    replace (k + S n) with (S k + n) by lia. rewrite <- IH by (intros i Hi; apply Hbusy; lia).
    simpl. unfold endsAt in Hk.
    destruct (FsTryLock env k) as [e|]; [|done].
    destruct (Temporary e) as [[]|]; [|done..].
    destruct (AwaitFileChange env k) as [e'|]; [|done].
    by destruct (NotExist e').
Qed.

Lemma lockLoop_busy env :
  (∀ i, ¬ endsAt env i) -> ∀ fuel k, lockLoop env fuel k = Retrying.
Proof.
  intros Hbusy. induction fuel as [|fuel IH]; intros k; [done|].
  simpl. specialize (Hbusy k). unfold endsAt in Hbusy.
  destruct (FsTryLock env k) as [e|]; [|done].
  destruct (Temporary e) as [[]|]; [|done..].
  destruct (AwaitFileChange env k) as [e'|]; [|done].
  by destruct (NotExist e').
Qed.

Lemma Returns_inj {A} (a b : A) : Returns a = Returns b -> a = b.
Proof. congruence. Qed.

Lemma unlock_lock f (held : Held) : f ∉ held -> unlock f ({[f]} ∪ held) = held.
Proof. unfold unlock. set_solver. Qed.

(** X26.  Waiting for the lock file.  While another process holds the lock
    file and a change of the file is seen (or the file is gone), [Lock]
    tries again; the first round in which [lockfile.TryLock] answers
    something else decides: without error [Lock] returns holding the mutex,
    with an error it returns that error, wrapped, and the mutex released. *)
Theorem Lock_first_decisive_round (l : Lockfile) (env : Env) (held : Held) (n fuel : nat) :
  file l ∉ held ->
  MkdirAll env = None ->
  (∀ i, i < n -> ¬ endsAt env i) ->
  n < fuel ->
  (FsTryLock env n = None ->
   Lock l env fuel held = Returns ({[file l]} ∪ held, None))
  ∧ (∀ e, FsTryLock env n = Some e -> Temporary e ≠ Some true ->
     Lock l env fuel held = Returns (held, Some (Wrap e "lock"))).
Proof.
  intros Hn Hmk Hbusy Hf. unfold Lock, lock, mkdirs. rewrite Hmk. simpl.
  destruct (decide (file l ∈ held)); [done|].
  replace fuel with (n + S (fuel - S n)) by lia.
  rewrite lockLoop_skip by (intros i Hi; apply Hbusy; lia). simpl.
  split.
  - by intros ->.
  - intros e -> Ht.
    destruct (Temporary e) as [[]|]; [done|..]; unfold onReturn;
      by rewrite unlock_lock.
Qed.

(** X27.  No limit on the attempts.  As long as every round finds the lock
    file held by another process, [Lock] does not return, however many
    rounds it is given: the five seconds of [awaitFileChange] bound one
    round, not the call. *)
Theorem Lock_retries_forever (l : Lockfile) (env : Env) (held : Held) :
  file l ∉ held ->
  MkdirAll env = None ->
  (∀ i, ¬ endsAt env i) ->
  ∀ fuel, Lock l env fuel held = Retrying.
Proof.
  intros Hn Hmk Hbusy fuel. unfold Lock, lock, mkdirs. rewrite Hmk. simpl.
  destruct (decide (file l ∈ held)); [done|]. by rewrite lockLoop_busy.
Qed.

(** X28.  Errors are wrapped.  An error returned by [TryLock], [Lock] or
    [Unlock] is a plain error with the prefix of the function: it is no
    [lockfile.TemporaryError] any more, so a caller of [TryLock] cannot
    tell a lock file held by another process from any other failure by
    its type. *)
Theorem lock_errors_are_plain (l : Lockfile) (env : Env) (held : Held) :
  (∀ held' e, TryLock l env held = Returns (held', Some e) ->
     Temporary e = None ∧ ∃ e0, Message e = "trylock: " +:+ Message e0)
  ∧ (∀ fuel held' e, Lock l env fuel held = Returns (held', Some e) ->
     Temporary e = None ∧ ∃ e0, Message e = "lock: " +:+ Message e0)
  ∧ (∀ e, snd (Unlock l env held) = Some e ->
     Temporary e = None ∧ ∃ e0, Message e = "unlock: " +:+ Message e0).
Proof.
  assert (Hon : ∀ msg err (h h' : Held) e,
            onReturn l msg err h = (h', Some e) ->
            Temporary e = None ∧ ∃ e0, Message e = msg +:+ ": " +:+ Message e0).
  { intros msg [e0|] h h' e; unfold onReturn; [|done]. intros [= _ <-]. by eauto. }
  split; [|split].
  - intros held' e. unfold TryLock. destruct (lock (file l) held); [|done..].
    intros Hr%Returns_inj. by apply Hon in Hr.
  - intros fuel held' e. unfold Lock. destruct (lock (file l) held); [|done..].
    destruct (mkdirs env); [intros Hr%Returns_inj; by apply Hon in Hr|].
    destruct (lockLoop env fuel 0); [|done..]. intros Hr%Returns_inj. by apply Hon in Hr.
  - intros e. unfold Unlock. simpl. destruct (FsUnlock env) as [e0|]; [|done].
    intros [= <-]. by eauto.
Qed.

(** X29.  Held until unlocked.  After a [TryLock] without error the mutex of
    the file is held: another [TryLock] or [Lock] of the same file in this
    process blocks, the mutexes of other files are as before, and [Unlock]
    gives back the set of held files from before the [TryLock], also when
    removing the lock file fails. *)
Theorem TryLock_held_until_Unlock (l : Lockfile) (env env' : Env) (held held' : Held) :
  TryLock l env held = Returns (held', None) ->
  TryLock l env' held' = Blocks
  ∧ (∀ fuel, Lock l env' fuel held' = Blocks)
  ∧ (∀ f, f ≠ file l -> f ∈ held' <-> f ∈ held)
  ∧ fst (Unlock l env' held') = held.
Proof.
  unfold TryLock. destruct (lock (file l) held) as [held1| |] eqn:El; [|done..].
  apply lock_unlock in El as (Hn & Hin & Hu).
  intros Hr%Returns_inj. apply onReturn_released in Hr as [-> _].
  assert (Hl : lock (file l) held1 = Blocks).
  { unfold lock. by destruct (decide (file l ∈ held1)). }
  rewrite Hl. split; [done|]. split; [intros fuel; unfold Lock; by rewrite Hl|].
  split; [|done]. intros f Hf. rewrite <- Hu. unfold unlock. set_solver.
Qed.

Lemma Lock_first_decisive_round_witness :
  Lock lockFile envBusyThenFree 3 ∅ = Returns ({[file lockFile]} ∪ ∅, None).
Proof.
  refine (proj1 (Lock_first_decisive_round lockFile envBusyThenFree ∅ 2 3 _ eq_refl _ _)
                eq_refl).
  - set_solver.
  - intros i Hi He. destruct i as [|[|i]]; [exact He|exact He|lia].
  - lia.
Defined.

Lemma Lock_retries_forever_witness :
  Lock lockFile envBusy 1000 ∅ = Retrying.
Proof.
  refine (Lock_retries_forever lockFile envBusy ∅ _ eq_refl _ 1000).
  - set_solver.
  - intros i He. exact He.
Defined.

Lemma TryLock_held_until_Unlock_witness :
  TryLock lockFile envBusy ({[file lockFile]} ∪ ∅) = Blocks
  ∧ fst (Unlock lockFile envNoDir ({[file lockFile]} ∪ ∅)) = ∅.
Proof.
  split.
  - exact (proj1 (TryLock_held_until_Unlock lockFile envFree envBusy ∅
                    ({[file lockFile]} ∪ ∅) eq_refl)).
  - exact (proj2 (proj2 (proj2 (TryLock_held_until_Unlock lockFile envFree envNoDir ∅
                                  ({[file lockFile]} ∪ ∅) eq_refl)))).
Defined.

End LockExtra.

Module NetFacts.
Import GoStrings GoStringsFacts Net.

Lemma Join_Split sep s : Join sep (Split sep s) = s.
Proof.
  induction s as [|a s IH]; simpl; [done|].
  destruct (decide (a = sep)) as [->|Hne].
  - destruct (Split sep s) as [|w ws] eqn:E; [by apply Split_nonempty in E|].
    simpl. by rewrite <- IH.
  - destruct (Split sep s) as [|w ws] eqn:E; [by apply Split_nonempty in E|].
    destruct ws as [|w' ws]; simpl in *; by rewrite <- IH.
Qed.

Lemma has_byte_app c a b :
  has_byte c (a +:+ b) = has_byte c a || has_byte c b.
Proof.
  induction a as [|x a IH]; simpl; [done|].
  destruct (decide (x = c)); [done|]. apply IH.
Qed.

Lemma has_byte_String c x s :
  has_byte c (String x s) = bool_decide (x = c) || has_byte c s.
Proof. simpl. by destruct (decide (x = c)); [rewrite bool_decide_true|rewrite bool_decide_false]. Qed.

Lemma parsePairs_app pairs : ∀ acc r,
  parsePairs pairs acc = inr r -> ∃ kvs, r = acc ++ kvs
    ∧ length kvs = length pairs
    ∧ pairs = pairString <$> kvs
    ∧ Forall (fun kv => fst kv ≠ "" ∧ snd kv ≠ ""
                        ∧ has_byte equals (fst kv) = false
                        ∧ has_byte equals (snd kv) = false) kvs.
Proof.
  induction pairs as [|arg pairs IH]; intros acc r; simpl.
  - intros [= <-]. exists []. by rewrite app_nil_r.
  - pose proof (Split_has_byte equals arg) as Hb.
    pose proof (Join_Split equals arg) as Hj.
    destruct (Split equals arg) as [|k [|v [|x l]]]; try done.
    destruct (decide (k = "" ∨ v = "")) as [|Hne]; [done|].
    intros (kvs & -> & Hlen & -> & Hall)%IH.
    exists ((k, v) :: kvs). rewrite <- app_assoc. split; [done|].
    split; [simpl; by rewrite Hlen|]. split.
    + simpl. f_equal. by rewrite <- Hj.
    + constructor; [|done]. simpl.
      inversion Hb as [|? ? Hk Hb']; subst. inversion Hb' as [|? ? Hv _]; subst.
      repeat split; try done; intros ->; apply Hne; by eauto.
Qed.

Lemma Split_pairString k v :
  has_byte equals k = false -> has_byte equals v = false ->
  Split equals (pairString (k, v)) = [k; v].
Proof.
  intros Hk Hv. unfold pairString. simpl.
  rewrite Split_app_sep by done. by rewrite Split_no_sep.
Qed.

Lemma parsePairs_accepts kvs : ∀ acc,
  Forall (fun kv => wordOk (fst kv) ∧ wordOk (snd kv)) kvs ->
  parsePairs (pairString <$> kvs) acc = inr (acc ++ kvs).
Proof.
  induction kvs as [|[k v] kvs IH]; intros acc Hall; simpl.
  - by rewrite app_nil_r.
  - inversion Hall as [|? ? [(Hk & Hke & _) (Hv & Hve & _)] Hall']; subst. simpl in *.
    change (String.app k (String equals v)) with (pairString (k, v)).
    rewrite Split_pairString by done.
    destruct (decide (k = "" ∨ v = "")) as [[|]|_]; [done..|].
    rewrite IH by done. by rewrite <- app_assoc.
Qed.

(** X30.  What [CNI_ARGS] may hold.  [parseCniArgs] accepts exactly the
    strings that are one or more pairs [key=value] joined by [;], with
    keys and values that are not empty and hold neither [=] nor [;]; it
    returns those pairs in their order.  So the empty string, a [;] at the
    end and a value with a [=] in it are refused. *)
Theorem parseCniArgs_accepts (args : string) (kvs : list (string * string)) :
  parseCniArgs args = inr kvs
  <-> kvs ≠ []
      ∧ Forall (fun kv => wordOk (fst kv) ∧ wordOk (snd kv)) kvs
      ∧ args = Join semicolon (pairString <$> kvs).
Proof.
  unfold parseCniArgs. split.
  - intros Hp. pose proof (Split_has_byte semicolon args) as Hs.
    pose proof (Join_Split semicolon args) as Hj.
    pose proof (Split_nonempty semicolon args) as Hne.
    apply parsePairs_app in Hp as (kvs' & -> & Hlen & Hsplit & Hall). simpl.
    rewrite Hsplit in Hs, Hj, Hne. split; [by destruct kvs'|]. split; [|done].
    clear Hj Hne Hlen Hsplit. induction kvs' as [|[k v] kvs' IH]; [done|].
    inversion Hall as [|? ? (Hk & Hv & Hke & Hve) Hall']; subst.
    rewrite fmap_cons in Hs. inversion Hs as [|? ? Hkv Hs']; subst. simpl in *.
    constructor; [|by apply IH].
    unfold pairString in Hkv. simpl in Hkv.
    rewrite has_byte_app, has_byte_String in Hkv.
    apply orb_false_elim in Hkv as [Hks Hkv].
    apply orb_false_elim in Hkv as [_ Hvs]. by repeat split.
  - intros (Hne & Hall & ->).
    rewrite Split_Join.
    + by rewrite parsePairs_accepts.
    + by destruct kvs.
    + apply Forall_fmap. eapply Forall_impl; [exact Hall|].
      intros [k v] [(_ & _ & Hk) (_ & _ & Hv)]. simpl in *.
      unfold pairString. simpl. by rewrite has_byte_app, has_byte_String, Hk, Hv.
Qed.

End NetFacts.
